(** * rx-player: stream orchestrator, protection driver, media source and
    overlay sink

    Shallow embedding of
    - [src/core/stream/index.ts]                  (modules [StreamCore] and
      [StreamSetup]),
    - [src/core/eme/index.ts]                     (modules [EME] and
      [EMERelease]),
    - [src/core/source_buffers/overlay/index.ts]  (modules [Overlay],
      [OverlayClockSource] and [MediaSource]: the file holds the overlay
      source buffer followed by the media-source helpers),
    - the MetaDASH overlay parser                 (in [Overlay]).

    JavaScript numbers are IEEE-754 doubles: they are embedded as Rocq's
    primitive binary64 floats, so that [Infinity], [NaN], [===], [<] and
    truthiness behave as they do in the program.  RxJS observables are
    embedded as traces of notifications stamped with their instant of
    arrival (module [Rx]). *)

From Stdlib Require Import PrimFloat FloatOps FloatAxioms SpecFloat.
From Stdlib Require Import List String Bool Arith Lia Permutation.
From Stdlib Require BinInt BinPos.
Import ListNotations.

Set Implicit Arguments.
Local Open Scope string_scope.
Local Open Scope list_scope.

(* ================================================================== *)
(** ** JavaScript values *)

Module Js.

Definition number := float.

(** [Number.MAX_VALUE], the largest finite double. *)
Definition Number_MAX_VALUE : number := 0x1.fffffffffffffp1023%float.

Definition Infinity : number := infinity.

(** [a === b] and [a !== b] on numbers. *)
Definition strict_eq (a b : number) : bool := PrimFloat.eqb a b.
Definition strict_neq (a b : number) : bool := negb (PrimFloat.eqb a b).

(** Truthiness of a number: [0], [-0] and [NaN] are falsy. *)
Definition truthy (x : number) : bool := negb (is_nan x || is_zero x).

(** Truthiness of [number | undefined]. *)
Definition truthy_opt (x : option number) : bool :=
  match x with
  | Some v => truthy v
  | None => false
  end.

(** [Math.max(a, b)]: [NaN] if either is [NaN]; [+0] is larger than [-0]. *)
Definition Math_max (a b : number) : number :=
  if is_nan a || is_nan b then nan
  else if PrimFloat.ltb a b then b
  else if PrimFloat.ltb b a then a
  else if get_sign a then b else a.

(** A JavaScript object used as a string-keyed map, keys kept in insertion
    order as [Object.keys] lists them. *)
Definition object (V : Type) := list (string * V).

Definition keys {V} (o : object V) : list string := map fst o.

Fixpoint get {V} (o : object V) (k : string) : option V :=
  match o with
  | [] => None
  | (k', v) :: o' => if String.eqb k k' then Some v else get o' k
  end.

(** [delete o[k]] *)
Definition delete {V} (o : object V) (k : string) : object V :=
  filter (fun kv => negb (String.eqb k (fst kv))) o.

End Js.

(* ================================================================== *)
(** ** Errors *)

Module Errors.

(** The error taxonomy: [MediaError], [NetworkError],
    [EncryptedMediaError] and [OtherError] are the player's own errors. *)
Inductive ErrorType :=
| MEDIA_ERROR
| NETWORK_ERROR
| ENCRYPTED_MEDIA_ERROR
| OTHER_ERROR.

(** A thrown value: one of the player's errors [new XError(code, reason,
    fatal)], where [reason] is [null] or the plain error it wraps (kept by
    its message), or a plain [Error(message)]. *)
Inductive error :=
| CustomError (type : ErrorType) (code : string) (reason : option string)
              (fatal : bool)
| PlainError (message : string).

Definition MediaError := CustomError MEDIA_ERROR.
Definition EncryptedMediaError := CustomError ENCRYPTED_MEDIA_ERROR.
Definition OtherError := CustomError OTHER_ERROR.

(** Modelled from the spec: [isKnownError] (errors/index.ts) is not under
    src/.  An error is known when it belongs to the taxonomy of the player
    ([MediaError], [NetworkError], [EncryptedMediaError], [OtherError]). *)
Definition isKnownError (e : error) : bool :=
  match e with
  | CustomError _ _ _ _ => true
  | PlainError _ => false
  end.

Definition fatal_of (e : error) : bool :=
  match e with
  | CustomError _ _ _ f => f
  | PlainError _ => false
  end.

Definition code_of (e : error) : option string :=
  match e with
  | CustomError _ c _ _ => Some c
  | PlainError _ => None
  end.

Definition type_of (e : error) : option ErrorType :=
  match e with
  | CustomError t _ _ _ => Some t
  | PlainError _ => None
  end.

(** [error.fatal = true] *)
Definition set_fatal (e : error) : error :=
  match e with
  | CustomError t c r _ => CustomError t c r true
  | PlainError m => PlainError m
  end.

End Errors.

(* ================================================================== *)
(** ** Media source: [setDurationToMediaSource], [createMediaSource] *)

Module MediaSource.
Import Js Errors.

Inductive ReadyState := closed | open | ended.

Definition ReadyState_eqb (a b : ReadyState) : bool :=
  match a, b with
  | closed, closed | open, open | ended, ended => true
  | _, _ => false
  end.

(** A native [SourceBuffer] is an object of the platform, known here by its
    identity. *)
Definition SourceBuffer := nat.

(** The platform's [MediaSource].  [sourceBuffers] is the live
    [SourceBufferList]: [removeSourceBuffer] takes the buffer out of it. *)
Record MediaSource := {
  duration : number;
  readyState : ReadyState;
  sourceBuffers : list SourceBuffer;
}.

(** A custom source buffer kept in [sourceBufferMemory.custom]; its
    [abort()] may throw. *)
Record CustomSourceBuffer := {
  custom_id : nat;
  abort_throws : bool;
}.

(** A URL: one given as a string, or an object URL made by the platform.
    Where the program holds a URL or nothing ([video.src], [objectURL]),
    the empty string, which is falsy and is what a cleared [src] reads as,
    is [None]. *)
Inductive Url :=
| PlainUrl (s : string)
| ObjectUrl (n : nat).

Definition url_of_string (s : string) : option Url :=
  if String.eqb s "" then None else Some (PlainUrl s).

(** Calls made on the platform and on the logger, in the order they happen. *)
Inductive Call :=
| SourceBuffer_abort (sb : SourceBuffer)
| removeSourceBuffer (sb : SourceBuffer)
| Custom_abort (key : string) (sb : CustomSourceBuffer)
| clearVideoSrc_call
| revokeObjectURL (u : Url)
| createObjectURL (u : Url)
| log_info (msg : string)
| log_warn (msg : string)
| log_debug (msg : string).

Definition newDuration (duration : number) : number :=
  if strict_eq duration Infinity then Number_MAX_VALUE else duration.

Section Duration.

(** The setter of [mediaSource.duration] belongs to the platform: the
    media source after the assignment, or the error the assignment
    throws. *)
Variable set_duration : MediaSource -> number -> error + MediaSource.

(** [mediaSource.duration = newDuration; log.info("set duration", ...)] *)
Definition assign_duration (mediaSource : MediaSource) (newDuration : number)
  : error + (MediaSource * list Call) :=
  match set_duration mediaSource newDuration with
  | inl e => inl e
  | inr mediaSource' => inr (mediaSource', [log_info "set duration"])
  end.

(** [setDurationToMediaSource(mediaSource, duration)]: the media source
    after the call and the calls made, or the error thrown. *)
Definition setDurationToMediaSource (mediaSource : MediaSource)
  (duration : number) : error + (MediaSource * list Call) :=
  let newDuration := newDuration duration in
  if strict_neq mediaSource.(MediaSource.duration) newDuration then
    assign_duration mediaSource newDuration
  else inr (mediaSource, []).

End Duration.

(** State reached by the closure of [createMediaSource]: its two variables
    [mediaSource] and [objectURL], the [sourceBufferMemory] it was given, the
    [src] of the video element, and the calls made so far. *)
Record State := {
  mediaSource : option MediaSource;
  objectURL : option Url;
  nativeBuffers : object SourceBuffer;
  customBuffers : object CustomSourceBuffer;
  video_src : option Url;
  next_url : nat;
  calls : list Call;
}.

Definition call (c : Call) (s : State) : State :=
  {| mediaSource := s.(mediaSource); objectURL := s.(objectURL);
     nativeBuffers := s.(nativeBuffers); customBuffers := s.(customBuffers);
     video_src := s.(video_src); next_url := s.(next_url);
     calls := s.(calls) ++ [c] |}.

Definition set_mediaSource (m : option MediaSource) (s : State) : State :=
  {| mediaSource := m; objectURL := s.(objectURL);
     nativeBuffers := s.(nativeBuffers); customBuffers := s.(customBuffers);
     video_src := s.(video_src); next_url := s.(next_url);
     calls := s.(calls) |}.

Definition set_objectURL (u : option Url) (s : State) : State :=
  {| mediaSource := s.(mediaSource); objectURL := u;
     nativeBuffers := s.(nativeBuffers); customBuffers := s.(customBuffers);
     video_src := s.(video_src); next_url := s.(next_url);
     calls := s.(calls) |}.

Definition set_nativeBuffers (n : object SourceBuffer) (s : State) : State :=
  {| mediaSource := s.(mediaSource); objectURL := s.(objectURL);
     nativeBuffers := n; customBuffers := s.(customBuffers);
     video_src := s.(video_src); next_url := s.(next_url);
     calls := s.(calls) |}.

Definition set_customBuffers (c : object CustomSourceBuffer) (s : State)
  : State :=
  {| mediaSource := s.(mediaSource); objectURL := s.(objectURL);
     nativeBuffers := s.(nativeBuffers); customBuffers := c;
     video_src := s.(video_src); next_url := s.(next_url);
     calls := s.(calls) |}.

Definition set_video_src (u : option Url) (s : State) : State :=
  {| mediaSource := s.(mediaSource); objectURL := s.(objectURL);
     nativeBuffers := s.(nativeBuffers); customBuffers := s.(customBuffers);
     video_src := u; next_url := s.(next_url);
     calls := s.(calls) |}.

Definition set_sourceBuffers (l : list SourceBuffer) (m : MediaSource)
  : MediaSource :=
  {| duration := m.(duration); readyState := m.(readyState);
     sourceBuffers := l |}.

Definition mem (sb : SourceBuffer) (l : list SourceBuffer) : bool :=
  existsb (Nat.eqb sb) l.

(** The platform's [sourceBuffer.abort()]: throws (here [None]) when the
    buffer is not attached to the media source or the media source is not
    open. *)
Definition platform_abort (m : MediaSource) (sb : SourceBuffer)
  : option unit :=
  if mem sb m.(sourceBuffers) && ReadyState_eqb m.(readyState) open
  then Some tt else None.

(** The platform's [mediaSource.removeSourceBuffer(sb)]: throws when the
    buffer is not in the list. *)
Definition platform_removeSourceBuffer (m : MediaSource) (sb : SourceBuffer)
  : option MediaSource :=
  if mem sb m.(sourceBuffers)
  then Some (set_sourceBuffers
               (filter (fun x => negb (Nat.eqb sb x)) m.(sourceBuffers)) m)
  else None.

(** Body of the [try] of the first loop of [resetMediaElement], for the
    buffer [sourceBuffer]: the media source and the calls made; a throw is
    caught and logged. *)
Definition disposeNative (readyState0 : ReadyState) (sourceBuffer : SourceBuffer)
  (m : MediaSource) : MediaSource * list Call :=
  let aborted :=
    if ReadyState_eqb readyState0 open
    then match platform_abort m sourceBuffer with
         | Some _ => Some [log_info "aborting previous source buffer";
                           SourceBuffer_abort sourceBuffer]
         | None => None
         end
    else Some [] in
  match aborted with
  | None => (m, [log_info "aborting previous source buffer";
                 log_warn "error while disposing souceBuffer"])
  | Some cs =>
      match platform_removeSourceBuffer m sourceBuffer with
      | Some m' => (m', cs ++ [removeSourceBuffer sourceBuffer])
      | None => (m, cs ++ [log_warn "error while disposing souceBuffer"])
      end
  end.

(** [for (let i = 0; i < sourceBuffers.length; i++)] over the live list:
    [n] bounds the number of iterations left (the list never grows, so its
    length at entry is enough). *)
Fixpoint nativeLoop (n i : nat) (readyState0 : ReadyState) (m : MediaSource)
  : MediaSource * list Call :=
  match n with
  | 0 => (m, [])
  | S n' =>
      match nth_error m.(sourceBuffers) i with
      | None => (m, [])
      | Some sourceBuffer =>
          let (m1, cs1) := disposeNative readyState0 sourceBuffer m in
          let (m2, cs2) := nativeLoop n' (S i) readyState0 m1 in
          (m2, cs1 ++ cs2)
      end
  end.

(** The second and third loops: over [Object.keys(...)], a snapshot. *)
Definition deleteNative (s : State) : State :=
  fold_left (fun st bufferType =>
               set_nativeBuffers (delete st.(nativeBuffers) bufferType) st)
            (keys s.(nativeBuffers)) s.

Definition disposeCustom (st : State) (bufferType : string) : State :=
  let st1 :=
    match get st.(customBuffers) bufferType with
    | Some sourceBuffer =>
        let st' := call (Custom_abort bufferType sourceBuffer) st in
        if sourceBuffer.(abort_throws)
        then call (log_warn "error while disposing souceBuffer") st'
        else st'
    | None => call (log_warn "error while disposing souceBuffer") st
    end in
  set_customBuffers (delete st1.(customBuffers) bufferType) st1.

Definition deleteCustom (s : State) : State :=
  fold_left disposeCustom (keys s.(customBuffers)) s.

(** Modelled from the spec: [clearVideoSrc] (compat) is not under src/; it
    leaves the element's [src] cleared. *)
Definition clearVideoSrc (s : State) : State :=
  set_video_src None (call clearVideoSrc_call s).

Definition add_calls (cs : list Call) (s : State) : State :=
  fold_left (fun st c => call c st) cs s.

(** [resetMediaElement()] *)
Definition resetMediaElement (s : State) : State :=
  let s1 :=
    match s.(mediaSource) with
    | Some m =>
        if negb (ReadyState_eqb m.(readyState) closed) then
          let (m', cs) :=
            nativeLoop (List.length m.(sourceBuffers)) 0 m.(readyState) m in
          add_calls cs (set_mediaSource (Some m') s)
        else s
    | None => s
    end in
  let s2 := deleteNative s1 in
  let s3 := deleteCustom s2 in
  let s4 := clearVideoSrc s3 in
  let s5 :=
    match s4.(objectURL) with
    | Some u => call (revokeObjectURL u) (call (log_debug "revoking previous URL") s4)
    | None => s4
    end in
  set_objectURL None (set_mediaSource None s5).

(** The media element and the source-buffer memory as [createMediaSource]
    finds them at subscription. *)
Record Element := {
  el_src : option Url;
  el_native : object SourceBuffer;
  el_custom : object CustomSourceBuffer;
  el_next_url : nat;
}.

(** What the subscriber of [createMediaSource] gets. *)
Record Opened := {
  opened_url : string;
  opened_mediaSource : option MediaSource;
}.

(** Subscription to [createMediaSource(url, video, withMediaSource,
    sourceBufferMemory)].  [MediaSource_] tells whether the platform has a
    MediaSource constructor.  The result is the state of the closure, and
    either the error thrown or the value sent to the observer; the teardown
    returned to the subscriber is [resetMediaElement] on that state. *)
Definition createMediaSource (url : string) (video : Element)
  (withMediaSource MediaSource_ : bool) : State * (error + Opened) :=
  let s0 := {| mediaSource := None;
               objectURL := video.(el_src);
               nativeBuffers := video.(el_native);
               customBuffers := video.(el_custom);
               video_src := video.(el_src);
               next_url := video.(el_next_url);
               calls := [] |} in
  let s1 := resetMediaElement s0 in
  if withMediaSource then
    if negb MediaSource_ then
      (s1, inl (MediaError "MEDIA_SOURCE_NOT_SUPPORTED" None true))
    else
      let s2 := call (log_info "creating MediaSource") s1 in
      let m := {| duration := nan; readyState := closed;
                  sourceBuffers := [] |} in
      let u := ObjectUrl s2.(next_url) in
      let s3 := call (createObjectURL u) (set_mediaSource (Some m) s2) in
      let s4 := set_objectURL (Some u)
                  {| mediaSource := s3.(mediaSource);
                     objectURL := s3.(objectURL);
                     nativeBuffers := s3.(nativeBuffers);
                     customBuffers := s3.(customBuffers);
                     video_src := s3.(video_src);
                     next_url := S s3.(next_url);
                     calls := s3.(calls) |} in
      let s5 := call (log_info "attaching MediaSource URL to video element") s4 in
      (set_video_src (Some u) s5,
       inr {| opened_url := url; opened_mediaSource := Some m |})
  else
    let s2 := set_objectURL (url_of_string url) (set_mediaSource None s1) in
    let s3 := call (log_info "attaching MediaSource URL to video element") s2 in
    (set_video_src (url_of_string url) s3,
     inr {| opened_url := url; opened_mediaSource := None |}).

(** Unsubscription runs the teardown. *)
Definition unsubscribe (s : State) : State := resetMediaElement s.

End MediaSource.

(* ================================================================== *)
(** ** Observables

    An observable is embedded as the trace of a subscription: the [next]
    notifications, each stamped with the instant it arrives at (instants are
    natural numbers and do not decrease along a trace), how the subscription
    ends, and the side effects its callbacks perform, stamped the same way.
    A cold observable is a function of the instant it is subscribed at; a
    notification stamped with the instant of the subscription is one emitted
    during the subscription.  The subscriber that connects a shared
    observable ([share]) sees the whole trace of the source; one that joins
    afterwards ([joined]) has missed what the source emitted while it was
    being connected. *)

Module Rx.
Import Errors.
Local Open Scope nat_scope.

Inductive Ending :=
| Pending
| Completed (t : nat)
| Errored (t : nat) (e : error).

Record Observable (E A : Type) := {
  nexts : list (nat * A);
  ending : Ending;
  effects : list (nat * E);
}.

Arguments nexts {E A} _.
Arguments ending {E A} _.
Arguments effects {E A} _.

Section Operators.
Variable E : Type.

Definition before {X} (t : nat) (l : list (nat * X)) : list (nat * X) :=
  List.filter (fun x => fst x <? t) l.

Definition upto {X} (t : nat) (l : list (nat * X)) : list (nat * X) :=
  List.filter (fun x => fst x <=? t) l.

(** The ending as seen by a subscriber who leaves at [t]. *)
Definition ending_before (t : nat) (e : Ending) : Ending :=
  match e with
  | Pending => Pending
  | Completed t' => if t' <? t then Completed t' else Pending
  | Errored t' x => if t' <? t then Errored t' x else Pending
  end.

(** Unsubscription at [t]. *)
Definition unsubscribed {A} (t : nat) (o : Observable E A) : Observable E A :=
  {| nexts := before t o.(nexts);
     ending := ending_before t o.(ending);
     effects := before t o.(effects) |}.

Definition never {A} : Observable E A :=
  {| nexts := []; ending := Pending; effects := [] |}.

Definition empty {A} (t : nat) : Observable E A :=
  {| nexts := []; ending := Completed t; effects := [] |}.

Definition of_ {A} (a : A) (t : nat) : Observable E A :=
  {| nexts := [(t, a)]; ending := Completed t; effects := [] |}.

Definition throwError {A} (e : error) (t : nat) : Observable E A :=
  {| nexts := []; ending := Errored t e; effects := [] |}.

(** A side effect performed at [t], before [o] is returned. *)
Definition tap_effect {A} (t : nat) (x : E) (o : Observable E A)
  : Observable E A :=
  {| nexts := o.(nexts); ending := o.(ending);
     effects := (t, x) :: o.(effects) |}.

Definition filter {A} (p : A -> bool) (o : Observable E A) : Observable E A :=
  {| nexts := List.filter (fun x => p (snd x)) o.(nexts);
     ending := o.(ending);
     effects := o.(effects) |}.

Definition map {A B} (f : A -> B) (o : Observable E A) : Observable E B :=
  {| nexts := List.map (fun x => (fst x, f (snd x))) o.(nexts);
     ending := o.(ending);
     effects := o.(effects) |}.

(** [map] with a callback that performs side effects and may throw: the
    first throw ends the observable with that error. *)
Fixpoint map_try_nexts {A B} (f : A -> list E * (error + B))
  (l : list (nat * A))
  : list (nat * B) * option (nat * error) * list (nat * E) :=
  match l with
  | [] => ([], None, [])
  | (t, a) :: l' =>
      let (xs, r) := f a in
      let now := List.map (fun x => (t, x)) xs in
      match r with
      | inl e => ([], Some (t, e), now)
      | inr b =>
          match map_try_nexts f l' with
          | (bs, x, later) => ((t, b) :: bs, x, now ++ later)
          end
      end
  end.

Definition map_try {A B} (f : A -> list E * (error + B)) (o : Observable E A)
  : Observable E B :=
  match map_try_nexts f o.(nexts) with
  | (bs, Some (t, e), xs) =>
      {| nexts := bs; ending := Errored t e; effects := xs |}
  | (bs, None, xs) =>
      {| nexts := bs; ending := o.(ending); effects := xs |}
  end.

(** A subscription made at [t] to a hot observable: what arrives after [t]. *)
Definition after {X} (t : nat) (l : list (nat * X)) : list (nat * X) :=
  List.filter (fun x => t <? fst x) l.

Definition subscribed_at {A} (t : nat) (o : Observable E A) : Observable E A :=
  {| nexts := after t o.(nexts);
     ending := o.(ending);
     effects := after t o.(effects) |}.

(** [distinctUntilChanged(compare)]: a notification passes unless [compare]
    holds between the last one that passed and it. *)
Fixpoint distinct_from {A} (compare : A -> A -> bool) (last : option A)
  (l : list (nat * A)) : list (nat * A) :=
  match l with
  | [] => []
  | (t, a) :: l' =>
      match last with
      | Some b =>
          if compare b a then distinct_from compare last l'
          else (t, a) :: distinct_from compare (Some a) l'
      | None => (t, a) :: distinct_from compare (Some a) l'
      end
  end.

Definition distinctUntilChanged {A} (compare : A -> A -> bool)
  (o : Observable E A) : Observable E A :=
  {| nexts := distinct_from compare None o.(nexts);
     ending := o.(ending);
     effects := o.(effects) |}.

(** [take(n)] *)
Definition take {A} (n : nat) (o : Observable E A) : Observable E A :=
  match n with
  | 0 => {| nexts := []; ending := Completed 0; effects := [] |}
  | S k =>
      match nth_error o.(nexts) k with
      | Some (t, _) =>
          {| nexts := firstn n o.(nexts);
             ending := Completed t;
             effects := upto t o.(effects) |}
      | None => o
      end
  end.

(** [skip(n)] *)
Definition skip {A} (n : nat) (o : Observable E A) : Observable E A :=
  {| nexts := skipn n o.(nexts);
     ending := o.(ending);
     effects := o.(effects) |}.

(** Interleaving of two traces by instant; at the same instant the first
    argument, subscribed first, goes first. *)
Fixpoint interleave {X} (a : list (nat * X)) : list (nat * X) -> list (nat * X) :=
  fix aux (b : list (nat * X)) : list (nat * X) :=
    match a, b with
    | [], _ => b
    | _, [] => a
    | x :: a', y :: b' =>
        if fst x <=? fst y then x :: interleave a' b else y :: aux b'
    end.

Definition merge_ending (a b : Ending) : Ending :=
  match a, b with
  | Errored ta x, Errored tb y =>
      if ta <=? tb then Errored ta x else Errored tb y
  | Errored t x, _ => Errored t x
  | _, Errored t y => Errored t y
  | Completed ta, Completed tb => Completed (Nat.max ta tb)
  | _, _ => Pending
  end.

Definition stop_at_error {X} (e : Ending) (l : list (nat * X))
  : list (nat * X) :=
  match e with
  | Errored t _ => upto t l
  | _ => l
  end.

Definition merge {A} (a b : Observable E A) : Observable E A :=
  let e := merge_ending a.(ending) b.(ending) in
  {| nexts := stop_at_error e (interleave a.(nexts) b.(nexts));
     ending := e;
     effects := stop_at_error e (interleave a.(effects) b.(effects)) |}.

(** [a.concat(b)]: [b] is subscribed at the instant [a] completes. *)
Definition concat {A} (a : Observable E A) (b : nat -> Observable E A)
  : Observable E A :=
  match a.(ending) with
  | Completed t =>
      {| nexts := a.(nexts) ++ (b t).(nexts);
         ending := (b t).(ending);
         effects := a.(effects) ++ (b t).(effects) |}
  | _ => a
  end.

(** [o.takeUntil(notifier)]: the notifier is subscribed first, so that a
    notification of [o] arriving at the instant the notifier fires is not
    passed. *)
Definition takeUntil {A B} (o : Observable E A) (notifier : Observable E B)
  : Observable E A :=
  match notifier.(nexts) with
  | [] => o
  | (t, _) :: _ =>
      match ending_before t o.(ending) with
      | Pending =>
          {| nexts := before t o.(nexts);
             ending := Completed t;
             effects := before t o.(effects) |}
      | e =>
          {| nexts := before t o.(nexts);
             ending := e;
             effects := before t o.(effects) |}
      end
  end.

(** [o.switchMap(project)]: the inner observable of a notification is
    subscribed at its instant and left at the instant of the next one. *)
Fixpoint switch_inner {A B} (project : nat -> A -> Observable E B)
  (l : list (nat * A)) : list (Observable E B) :=
  match l with
  | [] => []
  | (t, a) :: l' =>
      match l' with
      | [] => [project t a]
      | (t', _) :: _ => unsubscribed t' (project t a) :: switch_inner project l'
      end
  end.

Fixpoint first_error {B} (l : list (Observable E B)) : option (nat * error) :=
  match l with
  | [] => None
  | o :: l' =>
      match o.(ending) with
      | Errored t e => Some (t, e)
      | _ => first_error l'
      end
  end.

Definition switch_ending {B} (outer : Ending) (inners : list (Observable E B))
  : Ending :=
  match first_error inners with
  | Some (t, e) => Errored t e
  | None =>
      match outer, List.last (List.map (fun o => Some o.(ending)) inners) None with
      | Errored t e, _ => Errored t e
      | Completed t, None => Completed t
      | Completed t, Some (Completed t') => Completed (Nat.max t t')
      | _, _ => Pending
      end
  end.

Definition switchMap {A B} (project : nat -> A -> Observable E B)
  (o : Observable E A) : Observable E B :=
  let inners := switch_inner project o.(nexts) in
  let e := switch_ending o.(ending) inners in
  {| nexts := stop_at_error e (List.concat (List.map nexts inners));
     ending := e;
     effects :=
       stop_at_error e
         (interleave o.(effects) (List.concat (List.map effects inners))) |}.

(** [o.share()], as the first subscriber, whose subscription connects the
    source, sees it: the notifications of the one subscription made to [o].
    The side effects of [o] happen once, at that subscription, and are
    accounted for by [connect]. *)
Definition share {A} (o : Observable E A) : Observable E A :=
  {| nexts := o.(nexts); ending := o.(ending); effects := [] |}.

(** A shared observable, connected at [t], as a subscriber that joins it
    at [t] after the connection sees it: what the source emitted during the
    connection went to the subscribers it had then, and is not repeated. *)
Definition joined {A} (t : nat) (shared : Observable E A) : Observable E A :=
  {| nexts := after t shared.(nexts);
     ending := shared.(ending);
     effects := shared.(effects) |}.

(** [a.combineLatest(b)]: once both have emitted, each notification of
    either gives the pair of the latest of each.  [a] is subscribed first:
    at the same instant its notification is taken first. *)
Fixpoint combine_from {A B} (la : option A) (lb : option B)
  (l : list (nat * (A + B))) : list (nat * (A * B)) :=
  match l with
  | [] => []
  | (t, inl a) :: l' =>
      match lb with
      | Some b => (t, (a, b)) :: combine_from (Some a) lb l'
      | None => combine_from (Some a) lb l'
      end
  | (t, inr b) :: l' =>
      match la with
      | Some a => (t, (a, b)) :: combine_from la (Some b) l'
      | None => combine_from la (Some b) l'
      end
  end.

Definition tagged {A B} (a : list (nat * A)) (b : list (nat * B))
  : list (nat * (A + B)) :=
  interleave (List.map (fun x => (fst x, inl (snd x))) a)
             (List.map (fun x => (fst x, inr (snd x))) b).

Definition combineLatest {A B} (a : Observable E A) (b : Observable E B)
  : Observable E (A * B) :=
  let e := merge_ending a.(ending) b.(ending) in
  {| nexts := stop_at_error e (combine_from None None (tagged a.(nexts) b.(nexts)));
     ending := e;
     effects := stop_at_error e (interleave a.(effects) b.(effects)) |}.

(** The side effects of the shared [source] while [o], built from
    [share source], is subscribed. *)
Definition connect {A B} (source : Observable E A) (o : Observable E B)
  : Observable E B :=
  {| nexts := o.(nexts);
     ending := o.(ending);
     effects := interleave source.(effects) o.(effects) |}.

(** [new BehaviorSubject(v)] subscribed at [t]. *)
Definition BehaviorSubject {A} (v : A) (t : nat) : Observable E A :=
  {| nexts := [(t, v)]; ending := Pending; effects := [] |}.

(** An observable given from outside, whose side effects are not ours. *)
Definition lift {A} (o : Observable Empty_set A) : Observable E A :=
  {| nexts := o.(nexts); ending := o.(ending); effects := [] |}.

(** A trace whose instants do not decrease. *)
Fixpoint ordered_from {X} (t : nat) (l : list (nat * X)) : bool :=
  match l with
  | [] => true
  | x :: l' => (t <=? fst x) && ordered_from (fst x) l'
  end.

Definition ordered {X} (l : list (nat * X)) : bool := ordered_from 0 l.

End Operators.

Arguments never {E A}.
Arguments empty {E A} _.
Arguments of_ {E A} _ _.
Arguments throwError {E A} _ _.
Arguments BehaviorSubject {E A} _ _.
Arguments lift {E A} _.

End Rx.

(* ================================================================== *)
(** ** Overlay source buffer and MetaDASH overlay parser *)

Module Overlay.
Import Js Errors.
Local Open Scope float_scope.

(** A DOM element, known by its identity. *)
Definition HTMLElement := nat.

Record OverlayElement := {
  url : string;
  format : string;
  xAxis : string;
  yAxis : string;
  height : string;
  width : string;
}.

Record IMetaDashOverlayData := {
  od_start : number;
  od_end : number;
  od_version : number;
  od_element : OverlayElement;
}.

Record IHTMLOverlay := {
  start : number;
  end_ : number;
  element : HTMLElement;
}.

(** [parseMetaDASHOverlay(data, timeOffset)]; [fresh] is the identity
    [document.createElement] gives to the next element it creates. *)
Fixpoint parseMetaDASHOverlay (data : list IMetaDashOverlayData)
  (timeOffset : number) (fresh : nat) : list IHTMLOverlay :=
  match data with
  | [] => []
  | overlayData :: rest =>
      {| start := overlayData.(od_start) + timeOffset;
         end_ := overlayData.(od_end) + timeOffset;
         element := fresh |}
      :: parseMetaDASHOverlay rest timeOffset (S fresh)
  end.

(** An entry of the buffer: [{ start, end, data }]. *)
Record Cue := {
  cue_start : number;
  cue_end : number;
  cue_data : HTMLElement;
}.

Record IOverlayTrackSegmentData := {
  timescale : number;
  seg_start : number;
  seg_end : option number;
  seg_data : list IMetaDashOverlayData;
  seg_type : string;
  timeOffset : number;
}.

(** What the source buffer imports and src/ does not hold: the timed-data
    buffer ([TimedDataBufferManager], utils/buffer_manager), the time ranges
    of [AbstractSourceBuffer.buffered], the dispatch [parseOverlayToElements]
    of ./parsers, and the constant of the configuration. *)
Class Imports := {
  TimedDataBufferManager : Type;
  new_TimedDataBufferManager : TimedDataBufferManager;
  bm_insert : list Cue -> number -> number -> TimedDataBufferManager
              -> TimedDataBufferManager;
  bm_get : TimedDataBufferManager -> number -> option Cue;
  bm_remove : number -> number -> TimedDataBufferManager
              -> TimedDataBufferManager;
  TimeRanges : Type;
  new_TimeRanges : TimeRanges;
  tr_insert : number -> number -> TimeRanges -> TimeRanges;
  parseOverlayToElements : string -> list IMetaDashOverlayData -> number
                           -> nat -> list IHTMLOverlay;
  MAXIMUM_OVERLAY_TRACK_UPDATE_INTERVAL : number;
}.

Inductive DomCall :=
| removeChild (child : HTMLElement)
| appendChild (child : HTMLElement)
| log_warn (msg : string)
| log_debug (msg : string).

Section SourceBuffer.
Context {I : Imports}.

(** The fields of [OverlayTrackSourceBuffer], the child nodes of
    [_overlayTrackElement], whether [_destroy$] has fired, the identity of
    the next element of the document, and the calls made so far. *)
Record OverlayTrackSourceBuffer := {
  _buffer : TimedDataBufferManager;
  _currentElement : option HTMLElement;
  buffered : TimeRanges;
  childNodes : list HTMLElement;
  destroyed : bool;
  fresh : nat;
  dom : list DomCall;
}.

Definition constructor (children : list HTMLElement) (fresh0 : nat)
  : OverlayTrackSourceBuffer :=
  {| _buffer := new_TimedDataBufferManager;
     _currentElement := None;
     buffered := new_TimeRanges;
     childNodes := children;
     destroyed := false;
     fresh := fresh0;
     dom := [log_debug "creating html text track source buffer"] |}.

Definition set_currentElement (e : option HTMLElement)
  (s : OverlayTrackSourceBuffer) : OverlayTrackSourceBuffer :=
  {| _buffer := s.(_buffer); _currentElement := e;
     buffered := s.(buffered); childNodes := s.(childNodes);
     destroyed := s.(destroyed); fresh := s.(fresh); dom := s.(dom) |}.

Definition set_childNodes (l : list HTMLElement) (c : DomCall)
  (s : OverlayTrackSourceBuffer) : OverlayTrackSourceBuffer :=
  {| _buffer := s.(_buffer); _currentElement := s.(_currentElement);
     buffered := s.(buffered); childNodes := l;
     destroyed := s.(destroyed); fresh := s.(fresh);
     dom := s.(dom) ++ [c] |}.

Definition is_child (e : HTMLElement) (l : list HTMLElement) : bool :=
  existsb (Nat.eqb e) l.

Definition without (e : HTMLElement) (l : list HTMLElement)
  : list HTMLElement :=
  List.filter (fun x => negb (Nat.eqb e x)) l.

(** [safelyRemoveChild(overlayTrackElement, child)]: the platform's
    [removeChild] throws when [child] is not a child of the element; the
    throw is caught and logged. *)
Definition safelyRemoveChild (child : option HTMLElement)
  (s : OverlayTrackSourceBuffer) : OverlayTrackSourceBuffer :=
  match child with
  | Some c =>
      if is_child c s.(childNodes)
      then set_childNodes (without c s.(childNodes)) (removeChild c) s
      else set_childNodes s.(childNodes)
             (log_warn "Can't remove text track: not in the element.") s
  | None => s
  end.

(** The platform's [appendChild]: the node becomes the last child (it is
    moved there when it is a child already). *)
Definition overlayTrackElement_appendChild (e : HTMLElement)
  (s : OverlayTrackSourceBuffer) : OverlayTrackSourceBuffer :=
  set_childNodes (without e s.(childNodes) ++ [e]) (appendChild e) s.

(** [this._currentElement === overlay.data] *)
Definition same_element (current : option HTMLElement) (e : HTMLElement)
  : bool :=
  match current with
  | Some c => Nat.eqb c e
  | None => false
  end.

(** The time looked up at a clock emission. *)
Definition lookup_time (currentTime : number) : number :=
  Math_max (currentTime - MAXIMUM_OVERLAY_TRACK_UPDATE_INTERVAL / 3000) 0.

(** The subscriber of the clock in the constructor; [currentTime] is
    [this._videoElement.currentTime] when the clock emits. *)
Definition onClock (shouldDisplay : bool) (currentTime : number)
  (s : OverlayTrackSourceBuffer) : OverlayTrackSourceBuffer :=
  if negb shouldDisplay then
    set_currentElement None (safelyRemoveChild s.(_currentElement) s)
  else
    let time := lookup_time currentTime in
    match bm_get s.(_buffer) time with
    | None =>
        set_currentElement None (safelyRemoveChild s.(_currentElement) s)
    | Some overlay =>
        if same_element s.(_currentElement) overlay.(cue_data) then s
        else
          let s1 := safelyRemoveChild s.(_currentElement) s in
          let s2 := set_currentElement (Some overlay.(cue_data)) s1 in
          overlayTrackElement_appendChild overlay.(cue_data) s2
    end.

(** [generateClock(...).takeUntil(this._destroy$)]: the clock emits [true]
    at subscription, at every interval and after a [seeked] or [ended]
    event, and [false] when a [seeking] event stops the interval; it no
    longer reaches its subscriber once [_destroy$] has fired. *)
Definition clock (shouldDisplay : bool) (currentTime : number)
  (s : OverlayTrackSourceBuffer) : OverlayTrackSourceBuffer :=
  if s.(destroyed) then s else onClock shouldDisplay currentTime s.

Definition add_call (c : DomCall) (s : OverlayTrackSourceBuffer)
  : OverlayTrackSourceBuffer :=
  set_childNodes s.(childNodes) c s.

(** [overlays[overlays.length - 1]] *)
Definition last_overlay (overlays : list IHTMLOverlay) : option IHTMLOverlay :=
  List.last (List.map Some overlays) None.

Definition invalid_text_track : string :=
  "Invalid text track appended: the start time is inferior or equal to the end time.".

(** The test guarding [_append]. *)
Definition rejected (data : IOverlayTrackSegmentData) : bool :=
  match data.(seg_end) with
  | Some timescaledEnd =>
      truthy timescaledEnd && (timescaledEnd - data.(seg_start) <=? 0)
  | None => false
  end.

(** [_append(data)]: the source buffer after the call, or the error
    thrown. *)
Definition _append (data : IOverlayTrackSegmentData)
  (s : OverlayTrackSourceBuffer) : error + OverlayTrackSourceBuffer :=
  let s0 := add_call (log_debug "appending new html text tracks") s in
  if rejected data then
    inr (add_call
           (log_warn invalid_text_track)
           s0)
  else
    let startTime := data.(seg_start) / data.(timescale) in
    let endTime :=
      match data.(seg_end) with
      | Some timescaledEnd => Some (timescaledEnd / data.(timescale))
      | None => None
      end in
    let overlays :=
      parseOverlayToElements data.(seg_type) data.(seg_data)
        data.(timeOffset) s0.(fresh) in
    let end_opt :=
      match endTime with
      | Some e => Some e
      | None =>
          match last_overlay overlays with
          | Some o => Some o.(end_)
          | None => None
          end
      end in
    match end_opt with
    | None => inl (PlainError "TypeError: Cannot read property 'end' of undefined")
    | Some e =>
        let formattedData :=
          List.map (fun cue => {| cue_start := cue.(start);
                                  cue_end := cue.(end_);
                                  cue_data := cue.(element) |}) overlays in
        inr {| _buffer := bm_insert formattedData startTime e s0.(_buffer);
               _currentElement := s0.(_currentElement);
               buffered := tr_insert startTime e s0.(buffered);
               childNodes := s0.(childNodes);
               destroyed := s0.(destroyed);
               fresh := s0.(fresh) + List.length overlays;
               dom := s0.(dom) |}
    end.

(** [_remove(from, to)] *)
Definition _remove (from to : number) (s : OverlayTrackSourceBuffer)
  : OverlayTrackSourceBuffer :=
  let s0 := add_call (log_debug "removing html text track data") s in
  {| _buffer := bm_remove from to s0.(_buffer);
     _currentElement := s0.(_currentElement);
     buffered := s0.(buffered);
     childNodes := s0.(childNodes);
     destroyed := s0.(destroyed);
     fresh := s0.(fresh);
     dom := s0.(dom) |}.

(** [_abort()] *)
Definition _abort (s : OverlayTrackSourceBuffer) : OverlayTrackSourceBuffer :=
  let s0 := add_call (log_debug "aborting html text track source buffer") s in
  let s1 := {| _buffer := s0.(_buffer);
               _currentElement := s0.(_currentElement);
               buffered := s0.(buffered);
               childNodes := s0.(childNodes);
               destroyed := true;
               fresh := s0.(fresh);
               dom := s0.(dom) |} in
  safelyRemoveChild s1.(_currentElement) s1.

(** What reaches the source buffer, in order of arrival. *)
Inductive Input :=
| ClockEmits (shouldDisplay : bool) (currentTime : number)
| Append (data : IOverlayTrackSegmentData)
| Remove (from to : number)
| Abort.

Definition step (s : OverlayTrackSourceBuffer) (i : Input)
  : OverlayTrackSourceBuffer :=
  match i with
  | ClockEmits d t => clock d t s
  | Append data => match _append data s with inr s' => s' | inl _ => s end
  | Remove a b => _remove a b s
  | Abort => _abort s
  end.

Definition run (inputs : list Input) (s : OverlayTrackSourceBuffer)
  : OverlayTrackSourceBuffer :=
  fold_left step inputs s.

End SourceBuffer.

(** Modelled from the spec: [TimedDataBufferManager] is not under src/.  It
    keeps a ledger of the elements inserted with their time ranges, and
    [get(time)] is the element whose [[start, end)] contains [time]. *)
Definition Ledger := list Cue.

Definition ledger_get (l : Ledger) (time : number) : option Cue :=
  List.find (fun c => (c.(cue_start) <=? time) && (time <? c.(cue_end))) l.

Definition ledger_insert (cues : list Cue) (start_ end__ : number) (l : Ledger)
  : Ledger := l ++ cues.

Definition ledger_remove (from to : number) (l : Ledger) : Ledger :=
  List.filter (fun c => negb ((from <=? c.(cue_start)) && (c.(cue_end) <=? to))) l.

(** An instance of the imports: the ledger above, the time ranges as the
    list of the ranges inserted, the MetaDASH parser for every type, and an
    interval of 100 ms. *)
Definition ledgerImports : Imports :=
  {| TimedDataBufferManager := Ledger;
     new_TimedDataBufferManager := [];
     bm_insert := ledger_insert;
     bm_get := ledger_get;
     bm_remove := ledger_remove;
     TimeRanges := list (number * number);
     new_TimeRanges := [];
     tr_insert := fun a b l => l ++ [(a, b)];
     parseOverlayToElements := fun _ => parseMetaDASHOverlay;
     MAXIMUM_OVERLAY_TRACK_UPDATE_INTERVAL := 100 |}.

End Overlay.

(* ================================================================== *)
(** ** Protection driver (EME) *)

Module EME.
Import Js Errors.
Local Open Scope nat_scope.

(** Objects of the platform and of the application, known by identity. *)
Definition Storage := nat.
Definition Certificate := nat.

Record MediaKeys := {
  mk_id : nat;
  (** [typeof mediaKeys.setServerCertificate === "function"] *)
  has_setServerCertificate : bool;
}.

Record MediaKeySystemConfiguration := {
  initDataTypes : list string;
  sessionTypes : list string;
  persistentState : string;
  distinctiveIdentifier : string;
}.

Record IKeySystemOption := {
  ks_type : string;
  persistentLicense : bool;
  licenseStorage : option Storage;
  serverCertificate : option Certificate;
}.

Record MediaKeySystemAccess := {
  getConfiguration : MediaKeySystemConfiguration;
  (** the [MediaKeys] that [createMediaKeys()] resolves with *)
  createMediaKeys : MediaKeys;
}.

Record IKeySystemPackage := {
  keySystem : IKeySystemOption;
  keySystemAccess : MediaKeySystemAccess;
}.

Record MediaEncryptedEvent := {
  initData : option (list nat);
  initDataType : string;
}.

Record IInstanceInfo := {
  _mediaKeys : option MediaKeys;
  _mediaKeySystemConfiguration : option MediaKeySystemConfiguration;
  _keySystem : option IKeySystemOption;
  _videoElement : option nat;
}.

Inductive LogCall :=
| log_info (msg : string)
| log_error (msg : string).

(** The module's singleton [instanceInfos], [video.mediaKeys], and the
    storage given to [$storedSessions]. *)
Record State := {
  instanceInfos : IInstanceInfo;
  video_mediaKeys : option MediaKeys;
  storedSessions_storage : option Storage;
}.

(** The observables a handler composes, in the order they are subscribed
    when its result is: each stands for the call that builds it. *)
Inductive Step :=
| createMediaKeysObs (access : MediaKeySystemAccess)
| trySettingServerCertificate (mediaKeys : MediaKeys) (cert : Certificate)
| setMediaKeysObs (mediaKeys : MediaKeys)
                  (mksConfig : MediaKeySystemConfiguration)
                  (keySystem : IKeySystemOption)
| of_mediaKeys (mediaKeys : MediaKeys)
| manageSessionCreation (mediaKeys : MediaKeys)
                        (mksConfig : MediaKeySystemConfiguration)
                        (keySystem : IKeySystemOption)
                        (initDataType : string) (initData : list nat).

Definition Plan := list Step.

(** [handleSessionStorage(keySystem)] *)
Definition handleSessionStorage (keySystem : IKeySystemOption) (s : State)
  : State * (error + unit) :=
  if keySystem.(persistentLicense) then
    match keySystem.(licenseStorage) with
    | Some storage =>
        ({| instanceInfos := s.(instanceInfos);
            video_mediaKeys := s.(video_mediaKeys);
            storedSessions_storage := Some storage |}, inr tt)
    | None =>
        (s, inl (EncryptedMediaError "INVALID_KEY_SYSTEM"
                   (Some "no license storage found for persistent license.")
                   true))
    end
  else (s, inr tt).

(** [setCertificate$(serverCertificate, mediaKeys, errorStream)] *)
Definition setCertificate (serverCertificate : option Certificate)
  (mediaKeys : MediaKeys) : Plan :=
  match serverCertificate with
  | Some cert =>
      if mediaKeys.(has_setServerCertificate)
      then [trySettingServerCertificate mediaKeys cert]
      else []
  | None => []
  end.

(** [handleInitEncryptedEvent(encryptedEvent, keySystemInfo, video,
    errorStream)]: the state after the call, and the error thrown or the
    observable returned. *)
Definition handleInitEncryptedEvent (encryptedEvent : MediaEncryptedEvent)
  (keySystemInfo : IKeySystemPackage) (s : State) : State * (error + Plan) :=
  match encryptedEvent.(initData) with
  | None =>
      (s, inl (EncryptedMediaError "INVALID_ENCRYPTED_EVENT"
                 (Some "no init data found on media encrypted event.") true))
  | Some data =>
      let keySystem := keySystemInfo.(keySystem) in
      let keySystemAccess := keySystemInfo.(keySystemAccess) in
      match handleSessionStorage keySystem s with
      | (s1, inl e) => (s1, inl e)
      | (s1, inr _) =>
          let mediaKeys := keySystemAccess.(createMediaKeys) in
          let mksConfig := keySystemAccess.(getConfiguration) in
          (s1, inr (createMediaKeysObs keySystemAccess
                    :: setCertificate keySystem.(serverCertificate) mediaKeys
                    ++ [setMediaKeysObs mediaKeys mksConfig keySystem;
                        manageSessionCreation mediaKeys mksConfig keySystem
                          encryptedEvent.(initDataType) data]))
      end
  end.

Section Driver.

(** Imported and not under src/: the comparison of configurations
    (./session), the search of a key system the platform accepts
    (./key_system), and what the observables a handler returns do to the
    state once subscribed (./set_media_keys, ./session).
    The observable [findCompatibleKeySystem(keySystems, instanceInfos)]
    emits the key system it finds, once, or fails: it is given here by the
    singleton as it is when the observable is subscribed and by the instant
    of the subscription, and answers with the instant at which it emits or
    fails, or with nothing if it does neither. *)
Variable compareMksConfigurations :
  MediaKeySystemConfiguration -> option MediaKeySystemConfiguration -> bool.
Variable findCompatibleKeySystem :
  list IKeySystemOption -> IInstanceInfo -> nat
  -> option (nat * (error + IKeySystemPackage)).
Variable settle : Plan -> State -> State.

(** The trace of the observable of a search. *)
Definition found (answer : option (nat * (error + IKeySystemPackage)))
  : Rx.Observable LogCall IKeySystemPackage :=
  match answer with
  | Some (t, inr keySystemInfo) => Rx.of_ keySystemInfo t
  | Some (t, inl e) => Rx.throwError e t
  | None => Rx.never
  end.

(** The callback of [mergeMap] in
    [handleOngoingPlaybackEncryptedEvents]. *)
Definition handleOngoingEvent (encryptedEvent : MediaEncryptedEvent)
  (keySystemInfo : IKeySystemPackage) (s : State) : State * (error + Plan) :=
  match s.(video_mediaKeys) with
  | None =>
      (s, inl (EncryptedMediaError "INVALID_ENCRYPTED_EVENT"
                 (Some "Video Element should have attached MediaKeys.") true))
  | Some video_mediaKeys =>
      match encryptedEvent.(initData) with
      | None =>
          (s, inl (EncryptedMediaError "INVALID_ENCRYPTED_EVENT"
                     (Some "No init data found on media encrypted event.")
                     true))
      | Some data =>
          let keySystem := keySystemInfo.(keySystem) in
          let keySystemAccess := keySystemInfo.(keySystemAccess) in
          match handleSessionStorage keySystem s with
          | (s1, inl e) => (s1, inl e)
          | (s1, inr _) =>
              let mksConfig := keySystemAccess.(getConfiguration) in
              if negb (compareMksConfigurations mksConfig
                         s1.(instanceInfos).(_mediaKeySystemConfiguration))
              then
                (s1, inl (EncryptedMediaError "INVALID_ENCRYPTED_EVENT"
                            (Some "Can't have sev") true))
              else
                (s1, inr (setCertificate keySystem.(serverCertificate)
                            video_mediaKeys
                          ++ [of_mediaKeys video_mediaKeys;
                              manageSessionCreation video_mediaKeys mksConfig
                                keySystem encryptedEvent.(initDataType) data]))
          end
      end
  end.

(** [mergeMap] of a handler over the pairs of an event and a key system:
    each observable returned is subscribed (a notification of the result
    stands for it) and has settled when the next pair arrives; a throw ends
    the result. *)
Fixpoint mergeMap_events
  (handler : MediaEncryptedEvent -> IKeySystemPackage -> State
             -> State * (error + Plan))
  (events : list (nat * (MediaEncryptedEvent * IKeySystemPackage)))
  (s : State) : list (nat * Plan) * Rx.Ending :=
  match events with
  | [] => ([], Rx.Pending)
  | (t, (evt, keySystemInfo)) :: rest =>
      match handler evt keySystemInfo s with
      | (_, inl e) => ([], Rx.Errored t e)
      | (s1, inr plan) =>
          let (ps, en) := mergeMap_events handler rest (settle plan s1) in
          ((t, plan) :: ps, en)
      end
  end.

(** [handleOngoingPlaybackEncryptedEvents(encryptedEvent$, video,
    errorStream)].  The result fails when the handler throws or when
    [encryptedEvent$] fails; whether it completes is left out. *)
Definition handleOngoingPlaybackEncryptedEvents
  (encryptedEvent :
     Rx.Observable LogCall (MediaEncryptedEvent * IKeySystemPackage))
  (s : State) : Rx.Observable LogCall Plan :=
  let (ps, en) :=
    mergeMap_events handleOngoingEvent encryptedEvent.(Rx.nexts) s in
  {| Rx.nexts := ps;
     Rx.ending :=
       match en, encryptedEvent.(Rx.ending) with
       | Rx.Errored t e, _ => Rx.Errored t e
       | _, Rx.Errored t e => Rx.Errored t e
       | _, _ => Rx.Pending
       end;
     Rx.effects :=
       List.map (fun x => (fst x, log_info "eme: encrypted event"))
         (firstn (S (List.length ps)) encryptedEvent.(Rx.nexts)) |}.

(** [createEME(video, keySystems, errorStream)], subscribed at the instant
    0.  [onEncrypted] is the trace of the [encrypted] events of the element
    from then on.  The first event and the key system found are combined:
    the first handler runs at the later of the two.  [encryptedEvents$] is
    subscribed by that handler's callback, to the events that follow it and
    to a search of its own. *)
Definition createEME (onEncrypted : Rx.Observable LogCall MediaEncryptedEvent)
  (keySystems : list IKeySystemOption) (s : State)
  : Rx.Observable LogCall Plan :=
  let first :=
    Rx.combineLatest (Rx.take 1 onEncrypted)
      (found (findCompatibleKeySystem keySystems s.(instanceInfos) 0)) in
  match first.(Rx.nexts) with
  | [] => {| Rx.nexts := []; Rx.ending := first.(Rx.ending);
             Rx.effects := [] |}
  | (t, (evt, keySystemInfo)) :: _ =>
      let first_log :=
        (t, log_info "eme: first encrypted event from current content") in
      match handleInitEncryptedEvent evt keySystemInfo s with
      | (_, inl e) => Rx.tap_effect t (snd first_log) (Rx.throwError e t)
      | (s1, inr plan) =>
          let encryptedEvents :=
            Rx.combineLatest
              (Rx.skip 1 (Rx.subscribed_at t onEncrypted))
              (found (findCompatibleKeySystem keySystems
                        s1.(instanceInfos) t)) in
          let ongoing :=
            handleOngoingPlaybackEncryptedEvents encryptedEvents
              (settle plan s1) in
          {| Rx.nexts := (t, plan) :: ongoing.(Rx.nexts);
             Rx.ending := ongoing.(Rx.ending);
             Rx.effects := first_log :: ongoing.(Rx.effects) |}
      end
  end.

(** [keySystems && keySystems.length] *)
Definition has_keySystems (keySystems : option (list IKeySystemOption))
  : bool :=
  match keySystems with
  | Some (_ :: _) => true
  | _ => false
  end.

(** [EMEManager(videoElement, keySystems, errorStream)] *)
Definition EMEManager (onEncrypted : Rx.Observable LogCall MediaEncryptedEvent)
  (keySystems : option (list IKeySystemOption)) (s : State)
  : Rx.Observable LogCall Plan :=
  if has_keySystems keySystems then
    createEME onEncrypted
      (match keySystems with Some l => l | None => [] end) s
  else
    Rx.map_try
      (fun _ : MediaEncryptedEvent =>
         ([log_error "eme: ciphered media and no keySystem passed"],
          inl (EncryptedMediaError "MEDIA_IS_ENCRYPTED_ERROR" None true)))
      onEncrypted.

End Driver.

End EME.

(* ================================================================== *)
(** ** Stream orchestrator *)

Module StreamCore.
Import Js Errors.
Local Open Scope float_scope.

Definition SupportedBufferTypes := string.

Record Representation := {
  rep_id : string;
  getMimeTypeString : string;
}.

Record Adaptation := {
  adaptation_id : string;
  representations : list Representation;
}.

Record Period := {
  period_id : string;
  period_start : number;
  period_end : option number;
  adaptations : object (list Adaptation);
}.

(** The manifest, with the methods the orchestrator calls
    (manifest/index.ts is not under src/). *)
Record Manifest := {
  periods : list Period;
  isLive : bool;
  getDuration : number;
  getPeriodForTime : number -> option Period;
}.

Record WantedRange := {
  wr_start : number;
  wr_end : number;
}.

(** The messages of a period buffer: those built here and those of the
    adaptation buffer and of the garbage collector. *)
Inductive StreamEvent :=
| adaptationChange (type : SupportedBufferTypes) (adaptation : option Adaptation)
| representationChange (type : SupportedBufferTypes)
                       (representation : option Representation)
| segments_queued
| filled (wantedRange : WantedRange)
| finished (wantedRange : WantedRange)
| needs_discontinuity
| warning (e : error).

(** [message.type] *)
Definition type_of (message : StreamEvent) : string :=
  match message with
  | adaptationChange _ _ => "adaptationChange"
  | representationChange _ _ => "representationChange"
  | segments_queued => "segments-queued"
  | filled _ => "filled"
  | finished _ => "finished"
  | needs_discontinuity => "needs-discontinuity"
  | warning _ => "warning"
  end.

(** [message.value.wantedRange] *)
Definition wantedRange_of (message : StreamEvent) : option WantedRange :=
  match message with
  | filled r | finished r => Some r
  | _ => None
  end.

(** Side effects of the callbacks of the period buffers. *)
Inductive Effect :=
| log_info_disposing (bufferType : SupportedBufferTypes)
| disposeSourceBuffer (bufferType : SupportedBufferTypes)
| log_info_updating (bufferType : SupportedBufferTypes) (adaptation : Adaptation)
| createSourceBuffer (bufferType : SupportedBufferTypes) (codec : string)
| createPipeline (bufferType : SupportedBufferTypes)
| log_warn_creating_new_Buffer (bufferType : SupportedBufferTypes)
                               (period : Period).

Definition Observable := Rx.Observable Effect.

(** A timing tick; only the two fields read here. *)
Record IStreamClockTick := {
  currentTime : number;
  duration : number;
}.

(** *** The retry options of the startup *)

Inductive RetryEffect :=
| log_warn_stream_retry (e : error) (tryCount : nat)
| errorStream_next (e : error).

Record RetryOptions := {
  totalRetry : nat;
  retryDelay : nat;
  resetDelay : nat;
  shouldRetry : error -> bool;
  errorSelector : error -> error;
  onRetry : error -> nat -> list RetryEffect;
}.

(** The message of a plain error, kept as the reason of the error wrapping
    it. *)
Definition reason_of (e : error) : option string :=
  match e with
  | PlainError m => Some m
  | CustomError _ _ r _ => r
  end.

Definition retryOptions : RetryOptions :=
  {| totalRetry := 3;
     retryDelay := 250;
     resetDelay := 60 * 1000;
     shouldRetry := fun error =>
       if isKnownError error then negb (fatal_of error) else true;
     errorSelector := fun error =>
       if negb (isKnownError error)
       then OtherError "NONE" (reason_of error) true
       else set_fatal error;
     onRetry := fun error tryCount =>
       [log_warn_stream_retry error tryCount; errorStream_next error] |}.

(** Modelled from the spec: [retryableFuncWithBackoff] (utils/retry) is not
    under src/.  It runs the function again after each error for which
    [shouldRetry] holds while fewer than [totalRetry] retries were made,
    calling [onRetry] before each retry; the error it gives up on is
    surfaced through [errorSelector].  [attempts] are the outcomes of the
    successive runs; delays are left out. *)
Inductive RetryOutcome (A : Type) :=
| Succeeded (a : A)
| Surfaced (e : error)
| Waiting.

Arguments Succeeded {A} _.
Arguments Surfaced {A} _.
Arguments Waiting {A}.

Fixpoint retryableFuncWithBackoff {A} (options : RetryOptions)
  (attempts : list (error + A)) (retryCount : nat)
  : RetryOutcome A * list RetryEffect :=
  match attempts with
  | [] => (Waiting, [])
  | inr a :: _ => (Succeeded a, [])
  | inl e :: rest =>
      if negb (options.(shouldRetry) e)
         || Nat.leb options.(totalRetry) retryCount
      then (Surfaced (options.(errorSelector) e), [])
      else
        let (r, fx) := retryableFuncWithBackoff options rest (S retryCount) in
        (r, options.(onRetry) e (S retryCount) ++ fx)
  end.

Section Orchestrator.

(** [END_OF_PLAY] of the configuration. *)
Variable END_OF_PLAY : number.

(** Imported and not under src/: the adaptation buffer of a period and the
    garbage collector of a source buffer, as the traces of their
    notifications when subscribed at a given instant. *)
Variable createAdaptationBuffer :
  SupportedBufferTypes -> Period -> Adaptation -> nat
  -> Rx.Observable Empty_set StreamEvent.
Variable BufferGarbageCollector :
  SupportedBufferTypes -> nat -> Rx.Observable Empty_set StreamEvent.

(** *** End of play *)

Definition endOfPlay_tick (tick : IStreamClockTick) : bool :=
  (0 <? tick.(duration)) && (tick.(duration) - tick.(currentTime) <? END_OF_PLAY).

Definition endOfPlay (timings : Rx.Observable Effect IStreamClockTick)
  : Rx.Observable Effect IStreamClockTick :=
  Rx.filter endOfPlay_tick timings.

(** [Stream(...)]: [started] is
    [createAndPlugMediaSource(...).mergeMap(startStream)]. *)
Definition Stream (started : Observable StreamEvent)
  (timings : Rx.Observable Effect IStreamClockTick) : Observable StreamEvent :=
  Rx.takeUntil started (endOfPlay timings).

(** *** Period buffers *)

Variable manifest : Manifest.
Variable mediaSource : option MediaSource.MediaSource.
Variable bufferType : SupportedBufferTypes.

Definition is_type (type : string) (message : StreamEvent) : bool :=
  String.eqb (type_of message) type.

Definition same_type (a b : StreamEvent) : bool :=
  String.eqb (type_of a) (type_of b).

(** [representations[0] && representations[0].getMimeTypeString()) || ""] *)
Definition codec_of (adaptation : Adaptation) : string :=
  match adaptation.(representations) with
  | r :: _ => r.(getMimeTypeString)
  | [] => ""
  end.

(** The callback of [_adaptation$.switchMap] in [createPeriodBuffer]. *)
Definition onAdaptation (period : Period) (t : nat)
  (adaptation : option Adaptation) : Observable StreamEvent :=
  match mediaSource with
  | None => Rx.throwError (MediaError "UNAVAILABLE_MEDIA_SOURCE" None true) t
  | Some _ =>
      match adaptation with
      | None =>
          Rx.tap_effect t (log_info_disposing bufferType)
            (Rx.tap_effect t (disposeSourceBuffer bufferType)
               (Rx.concat (Rx.of_ (adaptationChange bufferType None) t)
                  (Rx.of_ (representationChange bufferType None))))
      | Some adaptation =>
          Rx.tap_effect t (log_info_updating bufferType adaptation)
            (Rx.tap_effect t (createSourceBuffer bufferType (codec_of adaptation))
               (Rx.tap_effect t (createPipeline bufferType)
                  (Rx.concat
                     (Rx.of_ (adaptationChange bufferType (Some adaptation)) t)
                     (fun t' =>
                        Rx.merge
                          (Rx.lift (createAdaptationBuffer bufferType period
                                      adaptation t'))
                          (Rx.lift (BufferGarbageCollector bufferType t'))))))
      end
  end.

(** [periodBuffer$], before [share()]. *)
Definition periodBuffer_source (period : Period)
  (_adaptation : Rx.Observable Empty_set (option Adaptation))
  : Observable StreamEvent :=
  Rx.switchMap (onAdaptation period) (Rx.lift _adaptation).

Definition periodBuffer (period : Period)
  (_adaptation : Rx.Observable Empty_set (option Adaptation))
  : Observable StreamEvent :=
  Rx.share (periodBuffer_source period _adaptation).

Definition bufferEnded (periodBuffer : Observable StreamEvent)
  : Observable StreamEvent :=
  Rx.filter (is_type "filled") (Rx.distinctUntilChanged same_type periodBuffer).

Definition bufferFinished (periodBuffer : Observable StreamEvent)
  : Observable StreamEvent :=
  Rx.filter (is_type "finished") periodBuffer.

Definition bufferNeeds (periodBuffer : Observable StreamEvent)
  : Observable StreamEvent :=
  Rx.filter (is_type "segments-queued") periodBuffer.

(** [Observable.merge(bufferEnded$, bufferFinished$).take(1)], subscribed
    at [t0].  [bufferEnded$] is the first subscriber of [periodBuffer$] and
    connects it; [bufferFinished$] joins it once it is connected. *)
Definition switchTrigger (t0 : nat) (periodBuffer : Observable StreamEvent)
  : Observable StreamEvent :=
  Rx.take 1
    (Rx.merge (bufferEnded periodBuffer)
       (bufferFinished (Rx.joined t0 periodBuffer))).

(** [adaptationsArr ? adaptationsArr[0] : null] *)
Definition first_adaptation (_period : Period) : option Adaptation :=
  match get _period.(adaptations) bufferType with
  | Some (a :: _) => Some a
  | _ => None
  end.

(** The callback of [switchMap] in [switchNextBuffer$]; [create] is
    [createPeriodBuffer], and the buffer it returns is subscribed at the
    instant of the message. *)
Definition onBufferEnd
  (create : Period -> Rx.Observable Empty_set (option Adaptation) -> nat
            -> Observable StreamEvent)
  (t : nat) (message : StreamEvent) : Observable StreamEvent :=
  match wantedRange_of message with
  | None =>
      Rx.throwError
        (PlainError "TypeError: Cannot read property 'end' of undefined") t
  | Some wantedRange =>
      match manifest.(getPeriodForTime) (wantedRange.(wr_end) + 2) with
      | None => Rx.empty t
      | Some _period =>
          Rx.tap_effect t (log_warn_creating_new_Buffer bufferType _period)
            (create _period (Rx.BehaviorSubject (first_adaptation _period) t)
               t)
      end
  end.

(** [createPeriodBuffer(period, _adaptation$)], subscribed at [t0];
    [_adaptation] is the trace of [_adaptation$] for a subscription made at
    [t0].  The subscriptions to [periodBuffer$] are made in the order of the
    source: [bufferEnded$] first, which connects the shared source, then
    [bufferFinished$] and the two of [periodBuffer$.takeUntil(bufferFinished$)],
    which join it.  [fuel] bounds the number of period buffers created one
    from the other; a buffer out of fuel is created and stays silent. *)
Fixpoint createPeriodBuffer (fuel : nat) (period : Period)
  (_adaptation : Rx.Observable Empty_set (option Adaptation)) (t0 : nat)
  : Observable StreamEvent :=
  match fuel with
  | 0 => Rx.never
  | S fuel' =>
      let source := periodBuffer_source period _adaptation in
      let periodBuffer := Rx.share source in
      let joined := Rx.joined t0 periodBuffer in
      let switchNextBuffer :=
        Rx.switchMap (onBufferEnd (createPeriodBuffer fuel'))
          (switchTrigger t0 periodBuffer) in
      Rx.connect source
        (Rx.merge switchNextBuffer
           (Rx.takeUntil joined (bufferFinished joined)))
  end.

End Orchestrator.

(** [_buffersArray]: one period buffer for each type of the first period
    played, with the adaptation subject of that type, subscribed at [t0]. *)
Definition buffersArray
  (createAdaptationBuffer :
     SupportedBufferTypes -> Period -> Adaptation -> nat
     -> Rx.Observable Empty_set StreamEvent)
  (BufferGarbageCollector :
     SupportedBufferTypes -> nat -> Rx.Observable Empty_set StreamEvent)
  (manifest : Manifest) (mediaSource : option MediaSource.MediaSource)
  (fuel : nat) (firstPlayedPeriod : Period)
  (adaptation_subject :
     SupportedBufferTypes -> Rx.Observable Empty_set (option Adaptation))
  (t0 : nat)
  : list (SupportedBufferTypes * Observable StreamEvent) :=
  List.map
    (fun adaptationType =>
       (adaptationType,
        createPeriodBuffer createAdaptationBuffer BufferGarbageCollector
          manifest mediaSource adaptationType fuel firstPlayedPeriod
          (adaptation_subject adaptationType) t0))
    (keys firstPlayedPeriod.(adaptations)).

(** Modelled from the spec: [END_OF_PLAY] (config) is not under src/; its
    default is 0.5 s. *)
Definition END_OF_PLAY_default : number := 0.5.

End StreamCore.


(* ================================================================== *)
(** ** Stream orchestrator: what [createStream] sets up *)

Module StreamSetup.
Import Js Errors StreamCore.

(** [o[k] = v]: the value of an own key is replaced in place, a new key
    comes last. *)
Fixpoint set {V} (o : object V) (k : string) (v : V) : object V :=
  match o with
  | [] => [(k, v)]
  | (k', v') :: o' =>
      if String.eqb k k' then (k', v) :: o' else (k', v') :: set o' k v
  end.

(** A [SegmentBookkeeper], known by its identity. *)
Definition SegmentBookkeeper := nat.

(** The closure of [initializeSegmentBookkeepersHandler]: its object
    [segmentBookkeepers], and the identity [new SegmentBookkeeper()] gives
    next. *)
Record Bookkeepers := {
  segmentBookkeepers : object SegmentBookkeeper;
  next_bookkeeper : nat;
}.

Definition initializeSegmentBookkeepersHandler (next : nat) : Bookkeepers :=
  {| segmentBookkeepers := []; next_bookkeeper := next |}.

(** [getSegmentBookkeeper(bufferType)]: the bookkeeper returned and the
    closure after the call. *)
Definition getSegmentBookkeeper (bufferType : SupportedBufferTypes)
  (h : Bookkeepers) : SegmentBookkeeper * Bookkeepers :=
  match get h.(segmentBookkeepers) bufferType with
  | None =>
      let segmentBookkeeper := h.(next_bookkeeper) in
      (segmentBookkeeper,
       {| segmentBookkeepers :=
            set h.(segmentBookkeepers) bufferType segmentBookkeeper;
          next_bookkeeper := S h.(next_bookkeeper) |})
  | Some fromMemory => (fromMemory, h)
  end.

(** Successive calls, with the bookkeepers they return. *)
Fixpoint getSegmentBookkeepers (bufferTypes : list SupportedBufferTypes)
  (h : Bookkeepers) : list SegmentBookkeeper * Bookkeepers :=
  match bufferTypes with
  | [] => ([], h)
  | bufferType :: rest =>
      let (b, h1) := getSegmentBookkeeper bufferType h in
      let (bs, h2) := getSegmentBookkeepers rest h1 in
      (b :: bs, h2)
  end.

(** The options [getPipelineOptions] sets: [cache] holds a new
    [InitializationSegmentCache] or is absent, [maxRetry] is a number or
    absent. *)
Record IPipelineOptions := {
  cache : bool;
  maxRetry : option nat;
}.

(** [arrayIncludes(arr, x)] *)
Definition arrayIncludes (arr : list string) (x : string) : bool :=
  existsb (String.eqb x) arr.

(** [getPipelineOptions(bufferType)] *)
Definition getPipelineOptions (bufferType : string) : IPipelineOptions :=
  if arrayIncludes ["audio"; "video"] bufferType
  then {| cache := true; maxRetry := None |}
  else if String.eqb bufferType "image"
       then {| cache := false; maxRetry := Some 0 |}
       else {| cache := false; maxRetry := None |}.

(** The calls [addNativeSourceBuffer(mediaSource, bufferType, codec,
    sourceBufferMemory)] made. *)
Record NativeSourceBufferAdded := {
  added_type : string;
  added_codec : string;
}.

(** [(firstPeriod && firstPeriod.adaptations[bufferType]) || []] *)
Definition first_period_adaptations (firstPeriod : option Period)
  (bufferType : string) : list Adaptation :=
  match firstPeriod with
  | Some p =>
      match get p.(adaptations) bufferType with
      | Some l => l
      | None => []
      end
  | None => []
  end.

(** The body of the callback of [Object.keys(manifest.adaptations).map] in
    [createStream], for one type: the call made, if any, or the error
    thrown.  An array is truthy even when empty, so that [adaptations[0]]
    is read whatever [adaptations] is, and is [undefined] when it is
    empty. *)
Definition addNativeSourceBufferFor
  (shouldHaveNativeSourceBuffer : string -> bool)
  (firstPeriod : option Period) (bufferType : string)
  : error + list NativeSourceBufferAdded :=
  if shouldHaveNativeSourceBuffer bufferType then
    let adaptations := first_period_adaptations firstPeriod bufferType in
    match adaptations with
    | [] =>
        inl (PlainError
               "TypeError: Cannot read property 'representations' of undefined")
    | adaptation0 :: _ =>
        match adaptation0.(representations) with
        | [] => inr []
        | representation0 :: _ =>
            inr [{| added_type := bufferType;
                    added_codec := representation0.(getMimeTypeString) |}]
        end
    end
  else inr [].

(** The initialisation of the native source buffers in [createStream]:
    [types] is [Object.keys(manifest.adaptations)], the first period is
    [manifest.periods[0]]; a throw stops the loop. *)
Fixpoint addNativeSourceBuffers
  (shouldHaveNativeSourceBuffer : string -> bool)
  (firstPeriod : option Period) (types : list string)
  : error + list NativeSourceBufferAdded :=
  match types with
  | [] => inr []
  | bufferType :: rest =>
      match addNativeSourceBufferFor shouldHaveNativeSourceBuffer firstPeriod
              bufferType with
      | inl e => inl e
      | inr added =>
          match addNativeSourceBuffers shouldHaveNativeSourceBuffer
                  firstPeriod rest with
          | inl e => inl e
          | inr more => inr (added ++ more)
          end
      end
  end.

(** [manifest.periods[0]] *)
Definition firstPeriod_of (manifest : Manifest) : option Period :=
  match manifest.(periods) with
  | p :: _ => Some p
  | [] => None
  end.

Section Setup.

(** What the setup calls and src/ does not hold: the setter of
    [mediaSource.duration] (platform), [addNativeSourceBuffer(mediaSource,
    bufferType, codec, sourceBufferMemory)] (../source_buffers), which gives
    the media source with the source buffer added, and
    [getInitialTime(manifest, startAt)] (./get_initial_time).  Each may
    throw. *)
Variable set_duration :
  MediaSource.MediaSource -> number -> error + MediaSource.MediaSource.
Variable addNativeSourceBuffer :
  MediaSource.MediaSource -> string -> string
  -> error + MediaSource.MediaSource.
Variable getInitialTime : Manifest -> error + number.
Variable shouldHaveNativeSourceBuffer : string -> bool.

(** The calls to [addNativeSourceBuffer] of one turn of the loop (one at
    most). *)
Fixpoint callAddNativeSourceBuffer (calls : list NativeSourceBufferAdded)
  (mediaSource : MediaSource.MediaSource)
  : error + MediaSource.MediaSource :=
  match calls with
  | [] => inr mediaSource
  | c :: rest =>
      match addNativeSourceBuffer mediaSource c.(added_type)
              c.(added_codec) with
      | inl e => inl e
      | inr mediaSource' => callAddNativeSourceBuffer rest mediaSource'
      end
  end.

(** The loop [Object.keys(manifest.adaptations).map(...)] of
    [createStream], the calls to [addNativeSourceBuffer] being made: the
    media source after the loop and the source buffers added, or the first
    error thrown, by the loop itself or by a call. *)
Fixpoint initNativeSourceBuffers (firstPeriod : option Period)
  (types : list string) (mediaSource : MediaSource.MediaSource)
  : error + (MediaSource.MediaSource * list NativeSourceBufferAdded) :=
  match types with
  | [] => inr (mediaSource, [])
  | bufferType :: rest =>
      match addNativeSourceBufferFor shouldHaveNativeSourceBuffer firstPeriod
              bufferType with
      | inl e => inl e
      | inr calls =>
          match callAddNativeSourceBuffer calls mediaSource with
          | inl e => inl e
          | inr mediaSource' =>
              match initNativeSourceBuffers firstPeriod rest mediaSource' with
              | inl e => inl e
              | inr (mediaSource'', more) =>
                  inr (mediaSource'', calls ++ more)
              end
          end
      end
  end.

(** [createStream] from the native source buffers to the first period
    played, given what [setDurationToMediaSource] has done. *)
Definition createStream_after_duration
  (durationSet : error + (MediaSource.MediaSource * list MediaSource.Call))
  (manifest : Manifest) (manifest_adaptations : list string)
  : error + (MediaSource.MediaSource * list NativeSourceBufferAdded * Period) :=
  match durationSet with
  | inl e => inl e
  | inr (mediaSource, _) =>
      match initNativeSourceBuffers (firstPeriod_of manifest)
              manifest_adaptations mediaSource with
      | inl e => inl e
      | inr (mediaSource', added) =>
          match getInitialTime manifest with
          | inl e => inl e
          | inr startTime =>
              match manifest.(getPeriodForTime) startTime with
              | None =>
                  inl (MediaError "MEDIA_STARTING_TIME_NOT_FOUND" None true)
              | Some firstPlayedPeriod =>
                  inr (mediaSource', added, firstPlayedPeriod)
              end
          end
      end
  end.

(** [createStream] up to the creation of the period buffers: the media
    source with its duration set and the native source buffers added, the
    source buffers added and the first period played, or the error thrown.
    [manifest_adaptations] is [Object.keys(manifest.adaptations)]. *)
Definition createStream_setup
  (mediaSource : option MediaSource.MediaSource)
  (manifest : Manifest) (manifest_adaptations : list string)
  : error + (MediaSource.MediaSource * list NativeSourceBufferAdded * Period) :=
  match mediaSource with
  | None => inl (MediaError "UNAVAILABLE_MEDIA_SOURCE" None true)
  | Some mediaSource =>
      createStream_after_duration
        (MediaSource.setDurationToMediaSource set_duration mediaSource
           manifest.(getDuration))
        manifest manifest_adaptations
  end.

End Setup.

End StreamSetup.

(* ================================================================== *)
(** ** Protection driver: release of the resources *)

Module EMERelease.
Import Js Errors EME.

Inductive Call :=
| disposeMediaKeys (video : option nat)
| loadedSessions_dispose.

(** [dispose()]: the singleton after the call and the calls made. *)
Definition dispose (i : IInstanceInfo) : IInstanceInfo * list Call :=
  ({| _mediaKeys := None;
      _mediaKeySystemConfiguration := None;
      _keySystem := None;
      _videoElement := None |},
   [disposeMediaKeys i.(_videoElement); loadedSessions_dispose]).

(** [clearEME()], once the observable it returns has been subscribed and
    has ended.  [shouldUnsetMediaKeys] is what the function of that name
    (compat) returns. *)
Definition clearEME (shouldUnsetMediaKeys : bool) (i : IInstanceInfo)
  : IInstanceInfo * list Call :=
  match i.(_videoElement) with
  | Some video =>
      if shouldUnsetMediaKeys then
        ({| _mediaKeys := i.(_mediaKeys);
            _mediaKeySystemConfiguration := i.(_mediaKeySystemConfiguration);
            _keySystem := i.(_keySystem);
            _videoElement := None |},
         [disposeMediaKeys (Some video)])
      else (i, [])
  | None => (i, [])
  end.

End EMERelease.

(* ================================================================== *)
(** ** Overlay source buffer: the clock *)

Module OverlayClockSource.
Local Open Scope nat_scope.

(** The events of the video element are given from outside. *)
Definition Events := Rx.Observable Empty_set unit.

Section Clock.

(** [MAXIMUM_OVERLAY_TRACK_UPDATE_INTERVAL], in instants, and the number of
    periods of the interval that are followed. *)
Variable interval : nat.
Variable periods : nat.

(** The instants [t], [t + interval], ... *)
Fixpoint every (n t : nat) : list (nat * unit) :=
  match n with
  | 0 => []
  | S n' => (t, tt) :: every n' (t + interval)
  end.

(** [Observable.interval(...).startWith(null)] subscribed at [t]. *)
Definition autoRefresh (t : nat) : Events :=
  {| Rx.nexts := every (S periods) t;
     Rx.ending := Rx.Pending;
     Rx.effects := [] |}.

(** [o.startWith(null)] for a hot [o] subscribed at [t]. *)
Definition startWith_at (t : nat) (o : Events) : Events :=
  {| Rx.nexts := (t, tt) :: (Rx.subscribed_at t o).(Rx.nexts);
     Rx.ending := o.(Rx.ending);
     Rx.effects := [] |}.

(** The observable given to [switchMapTo], subscribed at [t]. *)
Definition refreshing (seeking : Events) (t : nat)
  : Rx.Observable Empty_set bool :=
  Rx.concat
    (Rx.takeUntil (Rx.map (fun _ => true) (autoRefresh t))
       (Rx.subscribed_at t seeking))
    (Rx.of_ false).

(** [generateClock(videoElement)] subscribed at [t], from the [seeking],
    [seeked] and [ended] events of the element. *)
Definition generateClock (seeking seeked ended : Events) (t : nat)
  : Rx.Observable Empty_set bool :=
  let manualRefresh := Rx.merge seeked ended in
  Rx.switchMap (fun t' _ => refreshing seeking t')
    (startWith_at t manualRefresh).

End Clock.

End OverlayClockSource.
(* ================================================================== *)
(** * Vocabulary of the properties, and examples *)

(* ------------------------------------------------------------------ *)
(** ** Media source *)

Section ResetTerms.
Import Js Errors MediaSource.

Definition with_calls (cs : list Call) (s : State) : State :=
  {| mediaSource := s.(mediaSource); objectURL := s.(objectURL);
     nativeBuffers := s.(nativeBuffers); customBuffers := s.(customBuffers);
     video_src := s.(video_src); next_url := s.(next_url);
     calls := s.(calls) ++ cs |}.

(** The calls of the loop over the custom buffers. *)
Fixpoint customCalls (ks : list string) (o : object CustomSourceBuffer)
  : list Call :=
  match ks with
  | [] => []
  | k :: ks' =>
      match get o k with
      | Some sb =>
          Custom_abort k sb
          :: (if sb.(abort_throws)
              then [log_warn "error while disposing souceBuffer"] else [])
      | None => [log_warn "error while disposing souceBuffer"]
      end ++ customCalls ks' (delete o k)
  end.

Definition native_call (c : Call) : bool :=
  match c with
  | SourceBuffer_abort _ | removeSourceBuffer _ => true
  | _ => false
  end.

(** The source buffers the first loop visits: the index goes up while the
    live list goes down. *)
Fixpoint visits (n i : nat) (l : list SourceBuffer) : list SourceBuffer :=
  match n with
  | 0 => []
  | S n' =>
      match nth_error l i with
      | None => []
      | Some sb =>
          sb :: visits n' (S i) (filter (fun x => negb (Nat.eqb sb x)) l)
      end
  end.

(** The calls made for a source buffer the loop visits. *)
Definition disposal (readyState0 : ReadyState) (sb : SourceBuffer)
  : list Call :=
  (if ReadyState_eqb readyState0 open
   then [log_info "aborting previous source buffer"; SourceBuffer_abort sb]
   else [])
  ++ [removeSourceBuffer sb].

(** The calls of the first loop of [resetMediaElement]. *)
Definition nativeCalls (s : State) : list Call :=
  match s.(mediaSource) with
  | Some m =>
      if negb (ReadyState_eqb m.(readyState) closed)
      then flat_map (disposal m.(readyState))
             (visits (List.length m.(sourceBuffers)) 0 m.(sourceBuffers))
      else []
  | None => []
  end.

Definition revokeCalls (u : option Url) : list Call :=
  match u with
  | Some u => [log_debug "revoking previous URL"; revokeObjectURL u]
  | None => []
  end.

End ResetTerms.

Section DurationExamples.
Import Js MediaSource.
Local Open Scope float_scope.

Definition fresh_open_mediaSource : MediaSource.MediaSource :=
  {| MediaSource.duration := nan; readyState := open; sourceBuffers := [1%nat; 2%nat] |}.

(** An open media source of a live content: its duration is [Infinity]. *)
Definition live_mediaSource : MediaSource.MediaSource :=
  {| MediaSource.duration := Infinity; readyState := open;
     sourceBuffers := [1%nat; 2%nat] |}.

(** A setter of the duration after the Media Source Extensions standard:
    a [TypeError] for a value that is negative or [NaN], an
    [InvalidStateError] unless the media source is open; otherwise the
    value is stored. *)
Definition platform_set_duration (mediaSource : MediaSource.MediaSource)
  (value : number) : Errors.error + MediaSource.MediaSource :=
  if is_nan value || (value <? 0) then
    inl (Errors.PlainError "TypeError")
  else if negb (ReadyState_eqb mediaSource.(readyState) open) then
    inl (Errors.PlainError "InvalidStateError")
  else
    inr {| MediaSource.duration := value;
           readyState := mediaSource.(readyState);
           sourceBuffers := mediaSource.(sourceBuffers) |}.

End DurationExamples.

Module ResetExamples.
Import Js MediaSource.
Local Open Scope float_scope.

Definition subtitles : CustomSourceBuffer :=
  {| custom_id := 3; abort_throws := false |}.

(** The closure after playing to the end: the media source has ended and
    holds the video source buffer. *)
Definition played_to_the_end : State :=
  {| mediaSource := Some {| MediaSource.duration := 30; readyState := ended;
                            sourceBuffers := [1%nat] |};
     objectURL := Some (ObjectUrl 0);
     nativeBuffers := [("video", 1%nat)];
     customBuffers := [("text", subtitles)];
     video_src := Some (ObjectUrl 0);
     next_url := 1;
     calls := [] |}.

(** The closure while playing: the media source is open and holds the
    audio and video source buffers. *)
Definition playing : State :=
  {| mediaSource := Some {| MediaSource.duration := 30; readyState := open;
                            sourceBuffers := [1%nat; 2%nat] |};
     objectURL := Some (ObjectUrl 0);
     nativeBuffers := [("audio", 1%nat); ("video", 2%nat)];
     customBuffers := [("text", subtitles)];
     video_src := Some (ObjectUrl 0);
     next_url := 1;
     calls := [] |}.

(** An element still holding the URL of the content played before. *)
Definition used_element : Element :=
  {| el_src := Some (ObjectUrl 0); el_native := [];
     el_custom := [("text", subtitles)]; el_next_url := 1 |}.

End ResetExamples.

(* ------------------------------------------------------------------ *)
(** ** Retry *)

Section RetryExamples.
Import Errors.

Definition manifest_timeout : error :=
  CustomError NETWORK_ERROR "PIPELINE_LOAD_ERROR" None false.

End RetryExamples.

(* ------------------------------------------------------------------ *)
(** ** Protection driver *)

Section ProtectionTerms.
Import Errors EME.

Definition MEDIA_IS_ENCRYPTED_ERROR : error :=
  EncryptedMediaError "MEDIA_IS_ENCRYPTED_ERROR" None true.

Definition INVALID_KEY_SYSTEM : error :=
  EncryptedMediaError "INVALID_KEY_SYSTEM"
    (Some "no license storage found for persistent license.") true.

(** The key system asks for persistent licences and has no storage. *)
Definition persistent_without_storage (keySystem : IKeySystemOption) : bool :=
  keySystem.(persistentLicense)
  && match keySystem.(licenseStorage) with Some _ => false | None => true end.

(** The state in which the pair that follows [events] is handled, when
    every pair of [events] is handled without a throw. *)
Fixpoint handled (settle : Plan -> State -> State)
  (handler : MediaEncryptedEvent -> IKeySystemPackage -> State
             -> State * (error + Plan))
  (events : list (nat * (MediaEncryptedEvent * IKeySystemPackage)))
  (s : State) : option State :=
  match events with
  | [] => Some s
  | (_, (evt, keySystemInfo)) :: rest =>
      match handler evt keySystemInfo s with
      | (_, inl _) => None
      | (s1, inr plan) => handled settle handler rest (settle plan s1)
      end
  end.

(** What the handler of the first event throws for a key system that asks
    for persistent licences and has no storage, and what the handler of the
    later events throws for it. *)
Definition first_throws (encryptedEvent : MediaEncryptedEvent) : error :=
  match encryptedEvent.(initData) with
  | Some _ => INVALID_KEY_SYSTEM
  | None =>
      EncryptedMediaError "INVALID_ENCRYPTED_EVENT"
        (Some "no init data found on media encrypted event.") true
  end.

Definition later_throws (encryptedEvent : MediaEncryptedEvent) (s : State)
  : error :=
  match s.(video_mediaKeys), encryptedEvent.(initData) with
  | None, _ =>
      EncryptedMediaError "INVALID_ENCRYPTED_EVENT"
        (Some "Video Element should have attached MediaKeys.") true
  | Some _, None =>
      EncryptedMediaError "INVALID_ENCRYPTED_EVENT"
        (Some "No init data found on media encrypted event.") true
  | Some _, Some _ => INVALID_KEY_SYSTEM
  end.

Definition code_for_changed_configuration (encryptedEvent : MediaEncryptedEvent)
  (keySystem : IKeySystemOption) (s : State) : string :=
  match s.(video_mediaKeys), encryptedEvent.(initData) with
  | Some _, Some _ =>
      if persistent_without_storage keySystem
      then "INVALID_KEY_SYSTEM" else "INVALID_ENCRYPTED_EVENT"
  | _, _ => "INVALID_ENCRYPTED_EVENT"
  end.

End ProtectionTerms.

(** Concrete events and key systems. *)
Module ProtectionExamples.
Import Errors EME.

Definition widevine_persistent : IKeySystemOption :=
  {| ks_type := "widevine"; persistentLicense := true;
     licenseStorage := None; serverCertificate := None |}.

Definition widevine : IKeySystemOption :=
  {| ks_type := "widevine"; persistentLicense := false;
     licenseStorage := None; serverCertificate := None |}.

Definition temporary : MediaKeySystemConfiguration :=
  {| initDataTypes := ["cenc"]; sessionTypes := ["temporary"];
     persistentState := "optional"; distinctiveIdentifier := "optional" |}.

Definition persistent : MediaKeySystemConfiguration :=
  {| initDataTypes := ["cenc"]; sessionTypes := ["persistent-license"];
     persistentState := "required"; distinctiveIdentifier := "optional" |}.

Definition mediaKeys0 : MediaKeys :=
  {| mk_id := 0; has_setServerCertificate := true |}.

Definition package (ks : IKeySystemOption) (c : MediaKeySystemConfiguration)
  : IKeySystemPackage :=
  {| keySystem := ks;
     keySystemAccess := {| getConfiguration := c;
                           createMediaKeys := mediaKeys0 |} |}.

Definition with_initData : MediaEncryptedEvent :=
  {| initData := Some [0; 0; 0; 52]; initDataType := "cenc" |}.

Definition without_initData : MediaEncryptedEvent :=
  {| initData := None; initDataType := "cenc" |}.

Definition uninitialized : State :=
  {| instanceInfos := {| _mediaKeys := None;
                         _mediaKeySystemConfiguration := None;
                         _keySystem := None; _videoElement := None |};
     video_mediaKeys := None;
     storedSessions_storage := None |}.

(** The state once the first event was handled with the temporary
    configuration. *)
Definition configured : State :=
  {| instanceInfos := {| _mediaKeys := Some mediaKeys0;
                         _mediaKeySystemConfiguration := Some temporary;
                         _keySystem := Some widevine; _videoElement := Some 0 |};
     video_mediaKeys := Some mediaKeys0;
     storedSessions_storage := None |}.

(** A comparison of configurations: by their session types. *)
Definition same_sessionTypes (a : MediaKeySystemConfiguration)
  (b : option MediaKeySystemConfiguration) : bool :=
  match b with
  | Some b => if list_eq_dec string_dec a.(sessionTypes) b.(sessionTypes)
              then true else false
  | None => false
  end.

Definition no_settle (p : Plan) (s : State) : State := s.

Definition no_keySystem_found (l : list IKeySystemOption) (i : IInstanceInfo)
  (t : nat) : option (nat * (error + IKeySystemPackage)) :=
  Some (t, inl (EncryptedMediaError "INCOMPATIBLE_KEYSYSTEMS" None true)).

Definition one_encrypted_event : Rx.Observable LogCall MediaEncryptedEvent :=
  {| Rx.nexts := [(4, with_initData)]; Rx.ending := Rx.Pending;
     Rx.effects := [] |}.

Definition encrypted_events (instants : list nat)
  : Rx.Observable LogCall MediaEncryptedEvent :=
  {| Rx.nexts := List.map (fun t => (t, with_initData)) instants;
     Rx.ending := Rx.Pending; Rx.effects := [] |}.

(** The observables of a handler attach the media keys and record the
    temporary configuration. *)
Definition settles_configured (p : Plan) (s : State) : State := configured.

(** A search that finds at once the key system asking for persistent
    licences without a storage. *)
Definition persistent_found (l : list IKeySystemOption) (i : IInstanceInfo)
  (t : nat) : option (nat * (error + IKeySystemPackage)) :=
  Some (t, inr (package widevine_persistent persistent)).

(** A search that finds at once the temporary configuration when it is
    made at the instant 0, and the persistent one when it is made later. *)
Definition changing_found (l : list IKeySystemOption) (i : IInstanceInfo)
  (t : nat) : option (nat * (error + IKeySystemPackage)) :=
  match t with
  | 0 => Some (t, inr (package widevine temporary))
  | _ => Some (t, inr (package widevine persistent))
  end.

End ProtectionExamples.

(* ------------------------------------------------------------------ *)
(** ** Overlay source buffer *)

Section OverlayTerms.
Import Js Errors Overlay.
Context {I : Imports}.
Local Open Scope float_scope.

(** The contract of the buffer: the entry [get(time)] returns has [time]
    in its range. *)
Definition in_range (c : Cue) (time : number) : bool :=
  (c.(cue_start) <=? time) && (time <? c.(cue_end)).

(** The elements of the buffer attached to the host element are the
    current one alone. *)
Definition attached (s : OverlayTrackSourceBuffer) : list HTMLElement :=
  match s.(_currentElement) with
  | Some e => [e]
  | None => []
  end.

Definition removal (current : option HTMLElement) : list DomCall :=
  match current with
  | Some c => [removeChild c]
  | None => []
  end.

(** At most one element is attached, along any run of a buffer created on
    an empty host element. *)
Definition one_attached (s : OverlayTrackSourceBuffer) : Prop :=
  s.(childNodes) = attached s
  \/ (s.(destroyed) = true /\ s.(childNodes) = []).

End OverlayTerms.

Module OverlayExamples.
Import Js Overlay.
Local Open Scope float_scope.

Definition banner : OverlayElement :=
  {| url := "http://a/b.png"; format := "png"; xAxis := "0"; yAxis := "0";
     height := "10"; width := "10" |}.

(** A segment starting and ending at 0. *)
Definition empty_segment : IOverlayTrackSegmentData :=
  {| timescale := 1; seg_start := 0; seg_end := Some 0;
     seg_data := [{| od_start := 0; od_end := 0; od_version := 1;
                     od_element := banner |}];
     seg_type := "metadash"; timeOffset := 0 |}.

(** A segment ending before it starts. *)
Definition backwards_segment : IOverlayTrackSegmentData :=
  {| timescale := 1; seg_start := 4; seg_end := Some 2;
     seg_data := []; seg_type := "metadash"; timeOffset := 0 |}.

Definition new_buffer : @OverlayTrackSourceBuffer ledgerImports :=
  @constructor ledgerImports [] 0.

(** A buffer showing the element 7, buffered over [[0, 10)]. *)
Definition showing_7 : @OverlayTrackSourceBuffer ledgerImports :=
  {| _buffer :=
       [{| cue_start := 0; cue_end := 10; cue_data := 7%nat |}]
       : @TimedDataBufferManager ledgerImports;
     _currentElement := Some 7%nat;
     buffered := [(0, 10)] : @TimeRanges ledgerImports;
     childNodes := [7%nat];
     destroyed := false;
     fresh := 8%nat;
     dom := [] |}.

End OverlayExamples.

(* ------------------------------------------------------------------ *)
(** ** End of play *)

Section EndOfPlayTerms.

(** The subscription has ended at [t] or before. *)
Definition ended_by (t : nat) (e : Rx.Ending) : Prop :=
  match e with
  | Rx.Pending => False
  | Rx.Completed t' | Rx.Errored t' _ => (t' <= t)%nat
  end.

End EndOfPlayTerms.

Module EndOfPlayExamples.
Import Js StreamCore.
Local Open Scope float_scope.

Definition range_0_10 : WantedRange := {| wr_start := 0; wr_end := 10 |}.

(** Two notifications of a started stream, at the instants 0 and 2. *)
Definition two_events : Observable StreamEvent :=
  {| Rx.nexts := [(0%nat, segments_queued); (2%nat, filled range_0_10)];
     Rx.ending := Rx.Pending; Rx.effects := [] |}.

Definition ticks (l : list (nat * IStreamClockTick))
  : Rx.Observable Effect IStreamClockTick :=
  {| Rx.nexts := l; Rx.ending := Rx.Pending; Rx.effects := [] |}.

(** The tick of an element whose duration is 0. *)
Definition no_duration : IStreamClockTick :=
  {| currentTime := 0; duration := 0 |}.

(** A quarter of a second before the end of a content of 30 s. *)
Definition near_the_end : IStreamClockTick :=
  {| currentTime := 29.75; duration := 30 |}.

End EndOfPlayExamples.

(* ------------------------------------------------------------------ *)
(** ** Period buffers *)

Section PeriodBufferTerms.
Import Js Errors StreamCore.
Local Open Scope float_scope.

Variable createAdaptationBuffer :
  SupportedBufferTypes -> Period -> Adaptation -> nat
  -> Rx.Observable Empty_set StreamEvent.
Variable BufferGarbageCollector :
  SupportedBufferTypes -> nat -> Rx.Observable Empty_set StreamEvent.
Variable manifest : Manifest.
Variable mediaSource : option MediaSource.MediaSource.
Variable bufferType : SupportedBufferTypes.

Local Abbreviation periodBuffer :=
  (periodBuffer createAdaptationBuffer BufferGarbageCollector mediaSource
     bufferType).

(** The side effect that marks the creation of a period buffer. *)
Definition is_creation (x : Effect) : bool :=
  match x with
  | log_warn_creating_new_Buffer _ _ => true
  | _ => false
  end.

(** The message ends a buffer: it is [filled] or [finished]. *)
Definition ends_buffer (message : StreamEvent) : Prop :=
  type_of message = "filled" \/ type_of message = "finished".

(** At the instant [t] the buffer of [period] emits a message that ends it,
    and [next] is the period of the manifest at the end of its wanted range
    plus two seconds. *)
Definition switches_at (period : Period)
  (_adaptation : Rx.Observable Empty_set (option Adaptation))
  (t : nat) (next : Period) : Prop :=
  exists message wantedRange,
    In (t, message) (periodBuffer period _adaptation).(Rx.nexts)
    /\ ends_buffer message
    /\ wantedRange_of message = Some wantedRange
    /\ manifest.(getPeriodForTime) (wantedRange.(wr_end) + 2) = Some next.

(** The period buffers of a track: the first one, and the one created when
    a buffer of the track switches. *)
Inductive buffer_of (period0 : Period)
  (adaptation0 : Rx.Observable Empty_set (option Adaptation))
  : Period -> Rx.Observable Empty_set (option Adaptation) -> Prop :=
| first_buffer : buffer_of period0 adaptation0 period0 adaptation0
| next_buffer period _adaptation t next :
    buffer_of period0 adaptation0 period _adaptation ->
    switches_at period _adaptation t next ->
    buffer_of period0 adaptation0 next
      (Rx.BehaviorSubject (first_adaptation bufferType next) t).

End PeriodBufferTerms.

(** A content of two periods of 30 s, with one video track. *)
Module TwoPeriods.
Import Js StreamCore.
Local Open Scope float_scope.

Definition video_720p : Adaptation :=
  {| adaptation_id := "v1";
     representations := [{| rep_id := "720p";
                            getMimeTypeString := "video/mp4;codecs=avc1" |}] |}.

Definition period1 : Period :=
  {| period_id := "p1"; period_start := 0; period_end := Some 30;
     adaptations := [("video", [video_720p])] |}.

Definition period2 : Period :=
  {| period_id := "p2"; period_start := 30; period_end := Some 60;
     adaptations := [("video", [video_720p])] |}.

Definition manifest : Manifest :=
  {| periods := [period1; period2];
     isLive := false;
     getDuration := 60;
     getPeriodForTime := fun time =>
       if (0 <=? time) && (time <? 30) then Some period1
       else if (30 <=? time) && (time <? 60) then Some period2
       else None |}.

Definition mediaSource : option MediaSource.MediaSource :=
  Some {| MediaSource.duration := 60; MediaSource.readyState := MediaSource.open;
          MediaSource.sourceBuffers := [1%nat] |}.

(** The buffer of the first period is filled up to 29 s at the instant 3;
    that of the second period finishes at the instant 7. *)
Definition adaptationBuffer (bufferType : SupportedBufferTypes)
  (period : Period) (adaptation : Adaptation) (t : nat)
  : Rx.Observable Empty_set StreamEvent :=
  if String.eqb period.(period_id) "p1" then
    {| Rx.nexts := [(1%nat, segments_queued);
                    (3%nat, filled {| wr_start := 0; wr_end := 29 |})];
       Rx.ending := Rx.Pending; Rx.effects := [] |}
  else
    {| Rx.nexts := [(5%nat, segments_queued);
                    (7%nat, finished {| wr_start := 30; wr_end := 60 |})];
       Rx.ending := Rx.Completed 7; Rx.effects := [] |}.

Definition garbageCollector (bufferType : SupportedBufferTypes) (t : nat)
  : Rx.Observable Empty_set StreamEvent := Rx.never.

(** The adaptation chosen for the video track, from the start. *)
Definition video_subject : Rx.Observable Empty_set (option Adaptation) :=
  Rx.BehaviorSubject (Some video_720p) 0.

Definition video_buffers (fuel : nat) : Observable StreamEvent :=
  createPeriodBuffer adaptationBuffer garbageCollector manifest mediaSource
    "video" fuel period1 video_subject 0.

End TwoPeriods.

(* ------------------------------------------------------------------ *)
(** ** Further vocabulary *)

Section ResetTermsMore.
Import Js Errors MediaSource.

(** The elements at the positions 0, 2, 4, ... of a list. *)
Fixpoint evens {X} (l : list X) : list X :=
  match l with
  | [] => []
  | x :: l' =>
      x :: match l' with
           | [] => []
           | _ :: l'' => evens l''
           end
  end.

(** The source buffers removed from the media source, in the order of the
    calls. *)
Definition removed (cs : list Call) : list SourceBuffer :=
  flat_map (fun c => match c with
                     | removeSourceBuffer sb => [sb]
                     | _ => []
                     end) cs.

(** The custom source buffers aborted, in the order of the calls. *)
Definition aborted (cs : list Call) : object CustomSourceBuffer :=
  flat_map (fun c => match c with
                     | Custom_abort k sb => [(k, sb)]
                     | _ => []
                     end) cs.

(** The closure later on: the media source has changed state and source
    buffers were created. *)
Definition later_on (m : option MediaSource.MediaSource)
  (native : object SourceBuffer) (custom : object CustomSourceBuffer)
  (cs : list Call) (s : State) : State :=
  {| mediaSource := m; objectURL := s.(objectURL);
     nativeBuffers := native; customBuffers := custom;
     video_src := s.(video_src); next_url := s.(next_url);
     calls := s.(calls) ++ cs |}.

End ResetTermsMore.

Section OverlayTermsMore.
Import Js Errors Overlay.
Context {I : Imports}.

(** Once aborted: destroyed, with nothing attached. *)
Definition aborted_state (s : OverlayTrackSourceBuffer) : Prop :=
  s.(destroyed) = true /\ s.(childNodes) = [].

End OverlayTermsMore.

(** A seek between the instants 5 and 8, the clock ticking every two
    instants. *)
Module ClockExamples.
Import OverlayClockSource.

Definition events (l : list nat) : Events :=
  {| Rx.nexts := List.map (fun t => (t, tt)) l;
     Rx.ending := Rx.Pending; Rx.effects := [] |}.

Definition clock_with_a_seek : Rx.Observable Empty_set bool :=
  generateClock 2 3 (events [5]) (events [8]) (events []) 0.

End ClockExamples.

Section BookkeeperTerms.
Import Js StreamCore StreamSetup.

(** What the closure of the bookkeepers keeps true, [first] being the
    identity of the first bookkeeper it can create: the bookkeepers of
    distinct types are distinct, and were created by it, one for each key. *)
Definition well_kept (first : nat) (h : Bookkeepers) : Prop :=
  NoDup (keys h.(segmentBookkeepers))
  /\ h.(next_bookkeeper) = first + List.length h.(segmentBookkeepers)
  /\ (forall k b, get h.(segmentBookkeepers) k = Some b ->
        b < h.(next_bookkeeper))
  /\ (forall k k' b,
        get h.(segmentBookkeepers) k = Some b ->
        get h.(segmentBookkeepers) k' = Some b -> k = k').

End BookkeeperTerms.

Section SetupTerms.
Import Js Errors StreamCore StreamSetup.

(** The codec a native source buffer of a type is created with: that of
    the first representation of the first adaptation of the type in the
    first period, if there is one. *)
Definition native_codec (firstPeriod : option Period) (bufferType : string)
  : option string :=
  match first_period_adaptations firstPeriod bufferType with
  | adaptation0 :: _ =>
      match adaptation0.(representations) with
      | representation0 :: _ => Some representation0.(getMimeTypeString)
      | [] => None
      end
  | [] => None
  end.

(** A type that should have a native source buffer and has no adaptation
    in the first period. *)
Definition native_without_adaptation
  (shouldHaveNativeSourceBuffer : string -> bool)
  (firstPeriod : option Period) (bufferType : string) : bool :=
  shouldHaveNativeSourceBuffer bufferType
  && match first_period_adaptations firstPeriod bufferType with
     | [] => true
     | _ :: _ => false
     end.

End SetupTerms.

(** Further examples. *)
Module MoreExamples.
Import Js Errors.
Local Open Scope float_scope.

(** A segment without an end, holding one overlay over [[2, 6)]. *)
Definition open_segment : Overlay.IOverlayTrackSegmentData :=
  {| Overlay.timescale := 1; Overlay.seg_start := 2;
     Overlay.seg_end := None;
     Overlay.seg_data :=
       [{| Overlay.od_start := 2; Overlay.od_end := 6;
           Overlay.od_version := 1;
           Overlay.od_element := OverlayExamples.banner |}];
     Overlay.seg_type := "metadash"; Overlay.timeOffset := 0 |}.

(** Native source buffers are those of the audio and of the video. *)
Definition audio_or_video (bufferType : string) : bool :=
  StreamSetup.arrayIncludes ["audio"; "video"] bufferType.

Definition open_mediaSource : MediaSource.MediaSource :=
  {| MediaSource.duration := 60; MediaSource.readyState := MediaSource.open;
     MediaSource.sourceBuffers := [1%nat] |}.

(** A key system that the platform accepts, with the temporary
    configuration, found two instants after the search starts. *)
Definition widevine_found (l : list EME.IKeySystemOption)
  (i : EME.IInstanceInfo) (t : nat)
  : option (nat * (error + EME.IKeySystemPackage)) :=
  Some ((t + 2)%nat,
        inr (ProtectionExamples.package ProtectionExamples.widevine
               ProtectionExamples.temporary)).

(** The singleton while the element 0 plays a protected content. *)
Definition protected_playback : EME.IInstanceInfo :=
  EME.instanceInfos ProtectionExamples.configured.

End MoreExamples.

(** A live content: its duration is [Infinity]. *)
Module LiveExamples.
Import Js Errors StreamCore.
Local Open Scope float_scope.

Definition audio_or_video := MoreExamples.audio_or_video.

Definition live_manifest : Manifest :=
  {| periods := [TwoPeriods.period1];
     isLive := true;
     getDuration := Infinity;
     getPeriodForTime := fun time =>
       if 0 <=? time then Some TwoPeriods.period1 else None |}.

(** An [addNativeSourceBuffer] that adds a source buffer of its own to
    the media source and does not throw. *)
Definition never_fails (mediaSource : MediaSource.MediaSource)
  (bufferType codec : string) : error + MediaSource.MediaSource :=
  inr {| MediaSource.duration := mediaSource.(MediaSource.duration);
         MediaSource.readyState := mediaSource.(MediaSource.readyState);
         MediaSource.sourceBuffers :=
           mediaSource.(MediaSource.sourceBuffers)
           ++ [List.length mediaSource.(MediaSource.sourceBuffers)] |}.

Definition starts_at_0 (manifest : Manifest) : error + number := inr 0.

Definition starts_at_75 (manifest : Manifest) : error + number := inr 75.

End LiveExamples.

(* ================================================================== *)
(** * Properties *)

(* ------------------------------------------------------------------ *)
(** ** Duration of the media source *)

Section Duration.
Import Js Errors MediaSource StreamCore StreamSetup.
Local Open Scope float_scope.

Variable set_duration :
  MediaSource.MediaSource -> number -> error + MediaSource.MediaSource.

Lemma strict_neq_negb (a b : number) : strict_neq a b = negb (strict_eq a b).
Proof. reflexivity. Qed.

Lemma newDuration_Infinity : newDuration Infinity = Number_MAX_VALUE.
Proof. reflexivity. Qed.

Lemma newDuration_MAX_VALUE : newDuration Number_MAX_VALUE = Number_MAX_VALUE.
Proof. reflexivity. Qed.

Lemma newDuration_other (d : number) :
  strict_eq d Infinity = false -> newDuration d = d.
Proof. unfold newDuration. now intros ->. Qed.

(** What [setDurationToMediaSource] does is decided by the value it is to
    store and by the one the media source holds. *)
Lemma setDurationToMediaSource_eq (mediaSource : MediaSource.MediaSource)
  (d : number) :
  setDurationToMediaSource set_duration mediaSource d
  = if strict_eq mediaSource.(MediaSource.duration) (newDuration d)
    then inr (mediaSource, [])
    else assign_duration set_duration mediaSource (newDuration d).
Proof.
  unfold setDurationToMediaSource. rewrite strict_neq_negb.
  now destruct (strict_eq _ _).
Qed.

(** C8, as amended.  Setting the duration of the media source from a
    duration of [Infinity], as [createStream] does from a manifest whose
    duration is [Infinity], gives [Number.MAX_VALUE], which is not
    [Infinity], to the setter of the media source, unless
    [Number.MAX_VALUE] is what the media source holds, in which case
    nothing is written; the setup of [createStream] then goes on as for a
    manifest of duration [Number.MAX_VALUE].  Setting a duration other than
    [Infinity] that [===] the one the media source holds leaves the media
    source as it is and logs nothing; one that differs is given to the
    setter as it is. *)
Theorem setDurationToMediaSource_Infinity_and_same
  (mediaSource : MediaSource.MediaSource) (d : number) :
  setDurationToMediaSource set_duration mediaSource Infinity
  = (if strict_eq mediaSource.(MediaSource.duration) Number_MAX_VALUE
     then inr (mediaSource, [])
     else assign_duration set_duration mediaSource Number_MAX_VALUE)
  /\ strict_eq Number_MAX_VALUE Infinity = false
  /\ (strict_eq d Infinity = false ->
      setDurationToMediaSource set_duration mediaSource d
      = if strict_eq mediaSource.(MediaSource.duration) d
        then inr (mediaSource, [])
        else assign_duration set_duration mediaSource d)
  /\ (forall addNativeSourceBuffer getInitialTime
             shouldHaveNativeSourceBuffer manifest manifest_adaptations,
        manifest.(getDuration) = Infinity ->
        createStream_setup set_duration addNativeSourceBuffer getInitialTime
          shouldHaveNativeSourceBuffer (Some mediaSource) manifest
          manifest_adaptations
        = createStream_after_duration addNativeSourceBuffer getInitialTime
            shouldHaveNativeSourceBuffer
            (setDurationToMediaSource set_duration mediaSource
               Number_MAX_VALUE)
            manifest manifest_adaptations).
Proof.
  split; [|split; [|split]].
  - now rewrite setDurationToMediaSource_eq, newDuration_Infinity.
  - reflexivity.
  - intros Hd. now rewrite setDurationToMediaSource_eq, newDuration_other.
  - intros add init should manifest types Hd.
    unfold createStream_setup. rewrite Hd.
    now rewrite !setDurationToMediaSource_eq, newDuration_Infinity,
      newDuration_MAX_VALUE.
Qed.

End Duration.

Section DurationFacts.
Import Js Errors MediaSource StreamCore StreamSetup LiveExamples.
Local Open Scope float_scope.

(** C8 as stated fails when [Infinity] is set over a stored [Infinity]:
    the duration to set is equal to the one stored, and the media source is
    not left unchanged, [Number.MAX_VALUE] being written over it. *)
Lemma setDurationToMediaSource_Infinity_counterexample :
  strict_eq live_mediaSource.(MediaSource.duration) Infinity = true
  /\ setDurationToMediaSource platform_set_duration live_mediaSource Infinity
     = inr ({| MediaSource.duration := Number_MAX_VALUE;
               readyState := open; sourceBuffers := [1%nat; 2%nat] |},
            [log_info "set duration"])
  /\ setDurationToMediaSource platform_set_duration live_mediaSource Infinity
     <> inr (live_mediaSource, []).
Proof.
  split; [reflexivity|]. split; [reflexivity|].
  intros H. vm_compute in H. discriminate H.
Qed.

Lemma setDurationToMediaSource_Infinity_and_same_witness :
  strict_eq 30 Infinity = false
  /\ live_manifest.(getDuration) = Infinity
  /\ setDurationToMediaSource platform_set_duration fresh_open_mediaSource 30
     = assign_duration platform_set_duration fresh_open_mediaSource 30
  /\ createStream_setup platform_set_duration never_fails starts_at_0
       audio_or_video (Some fresh_open_mediaSource) live_manifest
       ["video"]%string
     = createStream_after_duration never_fails starts_at_0 audio_or_video
         (setDurationToMediaSource platform_set_duration
            fresh_open_mediaSource Number_MAX_VALUE)
         live_manifest ["video"]%string.
Proof.
  pose proof (setDurationToMediaSource_Infinity_and_same
                platform_set_duration fresh_open_mediaSource 30)
    as (_ & _ & Hsame & Hsetup).
  split; [reflexivity|]. split; [reflexivity|]. split.
  - exact (Hsame eq_refl).
  - exact (Hsetup never_fails starts_at_0 audio_or_video live_manifest
             ["video"]%string eq_refl).
Defined.

End DurationFacts.

(* ------------------------------------------------------------------ *)
(** ** Retry policy of the startup *)

Section Retry.
Import Errors StreamCore.

Lemma errorSelector_fatal (e : error) :
  fatal_of (retryOptions.(errorSelector) e) = true.
Proof. destruct e; reflexivity. Qed.

(** C3.  The startup is retried with [totalRetry = 3], [retryDelay = 250]
    and [resetDelay = 60000]; [shouldRetry] is false for a known error
    that is fatal and true for any other known error and for an unknown
    error; [errorSelector] wraps an unknown error as an [OtherError] of code
    NONE with [fatal = true], and returns a known error with its [fatal]
    flag set to true. *)
Theorem retryOptions_policy :
  retryOptions.(totalRetry) = 3
  /\ retryOptions.(retryDelay) = 250
  /\ retryOptions.(resetDelay) = 60 * 1000
  /\ (forall e, isKnownError e = true -> fatal_of e = true ->
        retryOptions.(shouldRetry) e = false)
  /\ (forall e, isKnownError e = true -> fatal_of e = false ->
        retryOptions.(shouldRetry) e = true)
  /\ (forall e, isKnownError e = false ->
        retryOptions.(shouldRetry) e = true
        /\ retryOptions.(errorSelector) e
           = OtherError "NONE" (reason_of e) true)
  /\ (forall e, isKnownError e = true ->
        let e' := retryOptions.(errorSelector) e in
        fatal_of e' = true /\ Errors.type_of e' = Errors.type_of e
        /\ code_of e' = code_of e /\ reason_of e' = reason_of e).
Proof.
  split; [reflexivity|]. split; [reflexivity|]. split; [reflexivity|].
  split; [|split; [|split]].
  - intros e Hk Hf. cbn. now rewrite Hk, Hf.
  - intros e Hk Hf. cbn. now rewrite Hk, Hf.
  - intros e Hk. cbn. now rewrite Hk.
  - intros e Hk. cbv zeta. split; [apply errorSelector_fatal|].
    destruct e; [now repeat split | discriminate].
Qed.

Lemma retryOptions_policy_witness :
  isKnownError manifest_timeout = true
  /\ fatal_of manifest_timeout = false
  /\ retryOptions.(shouldRetry) manifest_timeout = true
  /\ fatal_of (retryOptions.(errorSelector) manifest_timeout) = true
  /\ retryOptions.(shouldRetry) (set_fatal manifest_timeout) = false
  /\ retryOptions.(errorSelector) (PlainError "boom")
     = OtherError "NONE" (Some "boom") true.
Proof.
  destruct retryOptions_policy as (_ & _ & _ & Hfatal & Hother & Hunknown & Hsel).
  split; [reflexivity|]. split; [reflexivity|].
  split; [apply Hother; reflexivity|].
  split; [apply (Hsel manifest_timeout); reflexivity|].
  split; [apply Hfatal; reflexivity|].
  apply (Hunknown (PlainError "boom")); reflexivity.
Defined.

(** The retry runner: an error it surfaces went through [errorSelector]; under
    the options of the startup it is fatal. *)
Lemma retry_surfaced_selected {A} (options : RetryOptions)
  (attempts : list (error + A)) :
  forall retryCount e fx,
    retryableFuncWithBackoff options attempts retryCount = (Surfaced e, fx) ->
    exists e0, In (inl e0) attempts /\ e = options.(errorSelector) e0.
Proof.
  induction attempts as [|[err|a] rest IH]; intros n e fx H;
    cbn [retryableFuncWithBackoff] in H.
  - discriminate.
  - destruct (negb (shouldRetry options err) || Nat.leb (totalRetry options) n).
    + injection H as <- _. exists err. split; [now left | reflexivity].
    + destruct (retryableFuncWithBackoff options rest (S n)) as [r fx'] eqn:Hr.
      injection H as -> _.
      destruct (IH _ _ _ Hr) as (e0 & Hin & ->).
      exists e0. split; [now right | reflexivity].
  - discriminate.
Qed.

Lemma retry_surfaced_fatal {A} (attempts : list (error + A)) :
  forall retryCount e fx,
    retryableFuncWithBackoff retryOptions attempts retryCount = (Surfaced e, fx) ->
    fatal_of e = true.
Proof.
  intros n e fx H.
  destruct (retry_surfaced_selected _ _ _ H) as (e0 & _ & ->).
  apply errorSelector_fatal.
Qed.

(** A known error that is fatal is surfaced at once; a run that keeps
    failing with an error that is not fatal is given up after three
    retries, the error being surfaced with its flag set. *)
Lemma retry_runs :
  retryableFuncWithBackoff (A:=unit) retryOptions
    [inl (set_fatal manifest_timeout); inr tt] 0
  = (Surfaced (set_fatal manifest_timeout), [])
  /\ fst (retryableFuncWithBackoff (A:=unit) retryOptions
            (repeat (inl manifest_timeout) 5) 0)
     = Surfaced (set_fatal manifest_timeout)
  /\ List.length (snd (retryableFuncWithBackoff (A:=unit) retryOptions
                         (repeat (inl manifest_timeout) 5) 0)) = 6.
Proof. repeat split. Qed.

End Retry.

(* ------------------------------------------------------------------ *)
(** ** Protection driver *)

Section Protection.
Import Errors EME.

Variable compareMksConfigurations :
  MediaKeySystemConfiguration -> option MediaKeySystemConfiguration -> bool.
Variable findCompatibleKeySystem :
  list IKeySystemOption -> IInstanceInfo -> nat
  -> option (nat * (error + IKeySystemPackage)).
Variable settle : Plan -> State -> State.

Lemma EMEManager_without_keySystems
  (onEncrypted : Rx.Observable LogCall MediaEncryptedEvent)
  (keySystems : option (list IKeySystemOption)) (s : State) :
  has_keySystems keySystems = false ->
  let out := EMEManager compareMksConfigurations findCompatibleKeySystem
               settle onEncrypted keySystems s in
  out.(Rx.nexts) = []
  /\ match onEncrypted.(Rx.nexts) with
     | [] => out.(Rx.ending) = onEncrypted.(Rx.ending)
             /\ out.(Rx.effects) = []
     | (t, _) :: _ => out.(Rx.ending) = Rx.Errored t MEDIA_IS_ENCRYPTED_ERROR
     end.
Proof.
  intros Hk. cbv zeta. unfold EMEManager. rewrite Hk.
  unfold Rx.map_try.
  destruct (Rx.nexts onEncrypted) as [|[t evt] rest]; cbn; auto.
Qed.

(** C10.  When the list of key systems is absent or empty, the protection
    manager emits nothing; it ends with an [EncryptedMediaError] of code
    MEDIA_IS_ENCRYPTED_ERROR and [fatal = true] at the first encrypted event
    of the element, whatever that event is, and stays silent and pending
    as long as the element fires none. *)
Theorem EMEManager_no_keySystem
  (onEncrypted : Rx.Observable LogCall MediaEncryptedEvent) (s : State)
  (keySystems : option (list IKeySystemOption)) :
  keySystems = None \/ keySystems = Some [] ->
  let out := EMEManager compareMksConfigurations findCompatibleKeySystem
               settle onEncrypted keySystems s in
  out.(Rx.nexts) = []
  /\ (forall t evt rest, onEncrypted.(Rx.nexts) = (t, evt) :: rest ->
        out.(Rx.ending)
        = Rx.Errored t (EncryptedMediaError "MEDIA_IS_ENCRYPTED_ERROR" None true))
  /\ (onEncrypted.(Rx.nexts) = [] ->
        out.(Rx.ending) = onEncrypted.(Rx.ending) /\ out.(Rx.effects) = []).
Proof.
  intros Hk.
  assert (Hno : has_keySystems keySystems = false)
    by (destruct Hk as [-> | ->]; reflexivity).
  pose proof (EMEManager_without_keySystems onEncrypted keySystems s Hno) as H.
  cbv zeta in *. destruct H as [Hn He]. split; [exact Hn|]. split.
  - intros t evt rest Heq. now rewrite Heq in He.
  - intros Heq. now rewrite Heq in He.
Qed.

End Protection.

Section Handlers.
Import Errors EME.

Variable compareMksConfigurations :
  MediaKeySystemConfiguration -> option MediaKeySystemConfiguration -> bool.
Variable findCompatibleKeySystem :
  list IKeySystemOption -> IInstanceInfo -> nat
  -> option (nat * (error + IKeySystemPackage)).
Variable settle : Plan -> State -> State.

Lemma handleSessionStorage_without_storage (keySystem : IKeySystemOption)
  (s : State) :
  persistent_without_storage keySystem = true ->
  handleSessionStorage keySystem s = (s, inl INVALID_KEY_SYSTEM).
Proof.
  unfold persistent_without_storage, handleSessionStorage.
  destruct (persistentLicense keySystem); [|discriminate].
  destruct (licenseStorage keySystem); [discriminate | reflexivity].
Qed.

Lemma handleSessionStorage_with_storage (keySystem : IKeySystemOption)
  (s : State) :
  persistent_without_storage keySystem = false ->
  exists s', handleSessionStorage keySystem s = (s', inr tt)
             /\ s'.(instanceInfos) = s.(instanceInfos)
             /\ s'.(video_mediaKeys) = s.(video_mediaKeys).
Proof.
  unfold persistent_without_storage, handleSessionStorage.
  destruct (persistentLicense keySystem); [|intros _; now exists s].
  destruct (licenseStorage keySystem); [|discriminate].
  intros _. eexists. split; [reflexivity|]. now split.
Qed.

Lemma mergeMap_events_throws
  (handler : MediaEncryptedEvent -> IKeySystemPackage -> State
             -> State * (error + Plan))
  (earlier : list (nat * (MediaEncryptedEvent * IKeySystemPackage))) :
  forall s0 s t evt keySystemInfo rest s' e,
    handled settle handler earlier s0 = Some s ->
    handler evt keySystemInfo s = (s', inl e) ->
    let out :=
      mergeMap_events settle handler
        (earlier ++ (t, (evt, keySystemInfo)) :: rest) s0 in
    snd out = Rx.Errored t e
    /\ List.map fst (fst out) = List.map fst earlier.
Proof.
  induction earlier as [|[t1 [evt1 ks1]] earlier IH];
    intros s0 s t evt ks rest s' e Hh He; cbv zeta.
  - injection Hh as ->. cbn [app mergeMap_events]. rewrite He. now split.
  - cbn [app mergeMap_events handled] in *.
    destruct (handler evt1 ks1 s0) as [s1 [e1|plan]]; [discriminate|].
    specialize (IH _ _ t evt ks rest _ _ Hh He). cbv zeta in IH.
    destruct (mergeMap_events settle handler
                (earlier ++ (t, (evt, ks)) :: rest) (settle plan s1))
      as [ps en].
    cbn [fst snd] in *. destruct IH as [-> IH]. split; [reflexivity|].
    cbn. now rewrite IH.
Qed.

(** The result of [handleOngoingPlaybackEncryptedEvents] when the handler
    throws on a pair, the pairs before it being handled without a throw. *)
Lemma handleOngoingPlaybackEncryptedEvents_throws
  (encryptedEvents :
     Rx.Observable LogCall (MediaEncryptedEvent * IKeySystemPackage))
  (earlier rest : list (nat * (MediaEncryptedEvent * IKeySystemPackage)))
  (s0 s s' : State) (t : nat) (evt : MediaEncryptedEvent)
  (keySystemInfo : IKeySystemPackage) (e : error) :
  encryptedEvents.(Rx.nexts) = earlier ++ (t, (evt, keySystemInfo)) :: rest ->
  handled settle (handleOngoingEvent compareMksConfigurations) earlier s0
  = Some s ->
  handleOngoingEvent compareMksConfigurations evt keySystemInfo s
  = (s', inl e) ->
  let out :=
    handleOngoingPlaybackEncryptedEvents compareMksConfigurations settle
      encryptedEvents s0 in
  out.(Rx.ending) = Rx.Errored t e
  /\ List.map fst out.(Rx.nexts) = List.map fst earlier.
Proof.
  intros Hn Hh He. cbv zeta.
  unfold handleOngoingPlaybackEncryptedEvents. rewrite Hn.
  pose proof (mergeMap_events_throws _ earlier s0 t evt keySystemInfo rest
                Hh He) as H.
  cbv zeta in H.
  destruct (mergeMap_events settle
              (handleOngoingEvent compareMksConfigurations)
              (earlier ++ (t, (evt, keySystemInfo)) :: rest) s0) as [ps en].
  cbn [fst snd] in H. destruct H as [-> H]. cbn [Rx.ending Rx.nexts].
  now split.
Qed.

(** The result of [createEME] when the handler of the first event has
    returned. *)
Lemma createEME_eq
  (onEncrypted : Rx.Observable LogCall MediaEncryptedEvent)
  (keySystems : list IKeySystemOption) (s0 : State) (t1 : nat)
  (evt1 : MediaEncryptedEvent) (ks1 : IKeySystemPackage)
  (r : list (nat * (MediaEncryptedEvent * IKeySystemPackage))) :
  (Rx.combineLatest (Rx.take 1 onEncrypted)
     (found (findCompatibleKeySystem keySystems s0.(instanceInfos) 0))
  ).(Rx.nexts) = (t1, (evt1, ks1)) :: r ->
  createEME compareMksConfigurations findCompatibleKeySystem settle
    onEncrypted keySystems s0
  = match handleInitEncryptedEvent evt1 ks1 s0 with
    | (_, inl e) =>
        Rx.tap_effect t1
          (log_info "eme: first encrypted event from current content")
          (Rx.throwError e t1)
    | (s1, inr plan) =>
        let ongoing :=
          handleOngoingPlaybackEncryptedEvents compareMksConfigurations
            settle
            (Rx.combineLatest
               (Rx.skip 1 (Rx.subscribed_at t1 onEncrypted))
               (found (findCompatibleKeySystem keySystems
                         s1.(instanceInfos) t1)))
            (settle plan s1) in
        {| Rx.nexts := (t1, plan) :: ongoing.(Rx.nexts);
           Rx.ending := ongoing.(Rx.ending);
           Rx.effects :=
             (t1, log_info "eme: first encrypted event from current content")
             :: ongoing.(Rx.effects) |}
    end.
Proof.
  intros H. unfold createEME. cbv zeta. rewrite H.
  now destruct (handleInitEncryptedEvent evt1 ks1 s0) as [s1 [e|plan]].
Qed.

(** C5, as amended.  For a key system with [persistentLicense] set and no
    [licenseStorage]: the handler of the first encrypted event throws an
    [EncryptedMediaError] of code INVALID_KEY_SYSTEM with [fatal = true] when
    the event carries init data, and one of code INVALID_ENCRYPTED_EVENT
    with [fatal = true] when it does not; the handler of the later events
    throws the former when the element has media keys attached and the
    event carries init data, and the latter otherwise.  The state is left as
    it was.  No session is created: the driver subscribes to no observable
    of a handler for the event, and ends with the error at the instant the
    event is handled. *)
Theorem persistentLicense_without_storage_fails
  (encryptedEvent : MediaEncryptedEvent) (keySystemInfo : IKeySystemPackage)
  (s : State) :
  persistent_without_storage keySystemInfo.(keySystem) = true ->
  handleInitEncryptedEvent encryptedEvent keySystemInfo s
  = (s, inl (first_throws encryptedEvent))
  /\ handleOngoingEvent compareMksConfigurations encryptedEvent keySystemInfo s
     = (s, inl (later_throws encryptedEvent s))
  /\ (forall onEncrypted keySystems t r,
        (Rx.combineLatest (Rx.take 1 onEncrypted)
           (found (findCompatibleKeySystem keySystems s.(instanceInfos) 0))
        ).(Rx.nexts) = (t, (encryptedEvent, keySystemInfo)) :: r ->
        let out :=
          createEME compareMksConfigurations findCompatibleKeySystem settle
            onEncrypted keySystems s in
        out.(Rx.nexts) = []
        /\ out.(Rx.ending) = Rx.Errored t (first_throws encryptedEvent))
  /\ (forall encryptedEvents earlier t rest s0,
        encryptedEvents.(Rx.nexts)
        = earlier ++ (t, (encryptedEvent, keySystemInfo)) :: rest ->
        handled settle (handleOngoingEvent compareMksConfigurations) earlier
          s0 = Some s ->
        let out :=
          handleOngoingPlaybackEncryptedEvents compareMksConfigurations
            settle encryptedEvents s0 in
        List.map fst out.(Rx.nexts) = List.map fst earlier
        /\ out.(Rx.ending) = Rx.Errored t (later_throws encryptedEvent s)).
Proof.
  intros Hks.
  pose proof (handleSessionStorage_without_storage _ s Hks) as Hst.
  assert (Hfirst : handleInitEncryptedEvent encryptedEvent keySystemInfo s
                   = (s, inl (first_throws encryptedEvent))).
  { unfold handleInitEncryptedEvent, first_throws.
    destruct (initData encryptedEvent); [now rewrite Hst | reflexivity]. }
  assert (Hlater : handleOngoingEvent compareMksConfigurations encryptedEvent
                     keySystemInfo s
                   = (s, inl (later_throws encryptedEvent s))).
  { unfold handleOngoingEvent, later_throws.
    destruct (video_mediaKeys s); [|reflexivity].
    destruct (initData encryptedEvent); [now rewrite Hst | reflexivity]. }
  split; [exact Hfirst|]. split; [exact Hlater|]. split.
  - intros onEncrypted keySystems t r Hn. cbv zeta.
    rewrite (@createEME_eq onEncrypted keySystems s t encryptedEvent
               keySystemInfo r Hn), Hfirst. now split.
  - intros encryptedEvents earlier t rest s0 Hn Hh. cbv zeta.
    destruct (@handleOngoingPlaybackEncryptedEvents_throws encryptedEvents
                earlier rest s0 s s t encryptedEvent keySystemInfo _
                Hn Hh Hlater) as [He Hp].
    now split.
Qed.

(** C6, as amended.  For an encrypted event given to the handler of the
    events after the first, when the configuration of the key system found
    for it differs, by [compareMksConfigurations], from the one recorded in
    [instanceInfos], the handler throws an [EncryptedMediaError] with
    [fatal = true]; its code is INVALID_ENCRYPTED_EVENT, unless the key
    system asks for persistent licences without a storage (and the event has
    init data and the element media keys), in which case it is
    INVALID_KEY_SYSTEM.  The observable of
    [handleOngoingPlaybackEncryptedEvents] and the driver, [createEME], end
    with that error at the instant the event is handled, no observable of a
    handler being subscribed for it. *)
Theorem changed_configuration_fails
  (encryptedEvent : MediaEncryptedEvent) (keySystemInfo : IKeySystemPackage)
  (s : State) :
  compareMksConfigurations keySystemInfo.(keySystemAccess).(getConfiguration)
    s.(instanceInfos).(_mediaKeySystemConfiguration) = false ->
  exists reason,
    let e := EncryptedMediaError
               (code_for_changed_configuration encryptedEvent
                  keySystemInfo.(keySystem) s) reason true in
    snd (handleOngoingEvent compareMksConfigurations encryptedEvent
           keySystemInfo s) = inl e
    /\ (forall encryptedEvents earlier t rest s0,
          encryptedEvents.(Rx.nexts)
          = earlier ++ (t, (encryptedEvent, keySystemInfo)) :: rest ->
          handled settle (handleOngoingEvent compareMksConfigurations)
            earlier s0 = Some s ->
          let out :=
            handleOngoingPlaybackEncryptedEvents compareMksConfigurations
              settle encryptedEvents s0 in
          out.(Rx.ending) = Rx.Errored t e
          /\ List.map fst out.(Rx.nexts) = List.map fst earlier)
    /\ (forall onEncrypted keySystems s0 t1 evt1 ks1 r s1 plan earlier t
               rest,
          (Rx.combineLatest (Rx.take 1 onEncrypted)
             (found (findCompatibleKeySystem keySystems
                       s0.(instanceInfos) 0))).(Rx.nexts)
          = (t1, (evt1, ks1)) :: r ->
          handleInitEncryptedEvent evt1 ks1 s0 = (s1, inr plan) ->
          (Rx.combineLatest (Rx.skip 1 (Rx.subscribed_at t1 onEncrypted))
             (found (findCompatibleKeySystem keySystems
                       s1.(instanceInfos) t1))).(Rx.nexts)
          = earlier ++ (t, (encryptedEvent, keySystemInfo)) :: rest ->
          handled settle (handleOngoingEvent compareMksConfigurations)
            earlier (settle plan s1) = Some s ->
          let out :=
            createEME compareMksConfigurations findCompatibleKeySystem
              settle onEncrypted keySystems s0 in
          out.(Rx.ending) = Rx.Errored t e
          /\ List.map fst out.(Rx.nexts) = t1 :: List.map fst earlier).
Proof.
  intros Hdiff.
  assert (H : exists reason s',
             handleOngoingEvent compareMksConfigurations encryptedEvent
               keySystemInfo s
             = (s', inl (EncryptedMediaError
                           (code_for_changed_configuration encryptedEvent
                              keySystemInfo.(keySystem) s) reason true))).
  { unfold handleOngoingEvent, code_for_changed_configuration.
    destruct (video_mediaKeys s) as [mk|]; [|do 2 eexists; reflexivity].
    destruct (initData encryptedEvent) as [data|];
      [|do 2 eexists; reflexivity].
    destruct (persistent_without_storage (keySystem keySystemInfo)) eqn:Hp.
    - rewrite (handleSessionStorage_without_storage _ s Hp).
      do 2 eexists. reflexivity.
    - destruct (handleSessionStorage_with_storage _ s Hp) as (s' & -> & Hi & _).
      rewrite Hi, Hdiff. cbn. do 2 eexists. reflexivity. }
  destruct H as (reason & s' & H). exists reason. cbv zeta.
  split; [now rewrite H|]. split.
  - intros encryptedEvents earlier t rest s0 Hn Hh.
    exact (@handleOngoingPlaybackEncryptedEvents_throws encryptedEvents
             earlier rest s0 s s' t encryptedEvent keySystemInfo _ Hn Hh H).
  - intros onEncrypted keySystems s0 t1 evt1 ks1 r s1 plan earlier t rest
      Hfirst Hinit Hn Hh.
    rewrite (@createEME_eq onEncrypted keySystems s0 t1 evt1 ks1 r Hfirst),
      Hinit. cbv zeta.
    cbn [Rx.ending Rx.nexts].
    destruct (@handleOngoingPlaybackEncryptedEvents_throws _
                earlier rest (settle plan s1) s s' t encryptedEvent
                keySystemInfo _ Hn Hh H) as [He Hp].
    split; [exact He|]. cbn. now rewrite Hp.
Qed.

End Handlers.

Section ProtectionWitnesses.
Import Errors EME ProtectionExamples.

Lemma EMEManager_no_keySystem_witness :
  (@None (list IKeySystemOption) = None \/ @None (list IKeySystemOption) = Some [])
  /\ (EMEManager same_sessionTypes no_keySystem_found no_settle
        one_encrypted_event None uninitialized).(Rx.ending)
     = Rx.Errored 4 (EncryptedMediaError "MEDIA_IS_ENCRYPTED_ERROR" None true).
Proof.
  split; [now left|].
  apply (proj1 (proj2 (EMEManager_no_keySystem same_sessionTypes
                         no_keySystem_found no_settle one_encrypted_event
                         uninitialized (or_introl eq_refl)))
           4 with_initData []).
  reflexivity.
Defined.

(** C5 as stated fails on an event without init data: the error thrown
    has the code INVALID_ENCRYPTED_EVENT. *)
Lemma persistentLicense_without_storage_counterexample :
  widevine_persistent.(persistentLicense) = true
  /\ widevine_persistent.(licenseStorage) = None
  /\ handleInitEncryptedEvent without_initData
       (package widevine_persistent persistent) uninitialized
     = (uninitialized,
        inl (EncryptedMediaError "INVALID_ENCRYPTED_EVENT"
               (Some "no init data found on media encrypted event.") true))
  /\ ~ (exists reason fatal,
          snd (handleInitEncryptedEvent without_initData
                 (package widevine_persistent persistent) uninitialized)
          = inl (EncryptedMediaError "INVALID_KEY_SYSTEM" reason fatal)).
Proof.
  repeat split. intros (reason & fatal & H). discriminate H.
Qed.

Lemma persistentLicense_without_storage_fails_witness :
  persistent_without_storage
    (package widevine_persistent persistent).(keySystem) = true
  /\ handleInitEncryptedEvent with_initData
       (package widevine_persistent persistent) uninitialized
     = (uninitialized,
        inl (EncryptedMediaError "INVALID_KEY_SYSTEM"
               (Some "no license storage found for persistent license.")
               true))
  /\ (let out :=
        createEME same_sessionTypes persistent_found no_settle
          one_encrypted_event [widevine_persistent] uninitialized in
      out.(Rx.nexts) = []
      /\ out.(Rx.ending)
         = Rx.Errored 4
             (EncryptedMediaError "INVALID_KEY_SYSTEM"
                (Some "no license storage found for persistent license.")
                true)).
Proof.
  destruct (persistentLicense_without_storage_fails same_sessionTypes
              persistent_found no_settle with_initData
              (package widevine_persistent persistent) uninitialized eq_refl)
    as (Hfirst & _ & Hdriver & _).
  split; [reflexivity|]. split; [exact Hfirst|].
  exact (Hdriver one_encrypted_event [widevine_persistent] 4 [] eq_refl).
Defined.

(** C6 as stated fails.  On a changed configuration the error thrown has
    the code INVALID_ENCRYPTED_EVENT, not INVALID_KEY_SYSTEM; and an event
    after the first for which the configuration found has changed does not
    make the driver fail when it is not given to the handler: with the
    events of the instants 4 and 6, the driver emits for the first and goes
    on. *)
Lemma changed_configuration_counterexample :
  same_sessionTypes
    (package widevine persistent).(keySystemAccess).(getConfiguration)
    configured.(instanceInfos).(_mediaKeySystemConfiguration) = false
  /\ handleOngoingEvent same_sessionTypes with_initData
       (package widevine persistent) configured
     = (configured,
        inl (EncryptedMediaError "INVALID_ENCRYPTED_EVENT"
               (Some "Can't have sev") true))
  /\ ~ (exists reason fatal,
          snd (handleOngoingEvent same_sessionTypes with_initData
                 (package widevine persistent) configured)
          = inl (EncryptedMediaError "INVALID_KEY_SYSTEM" reason fatal))
  /\ (let out :=
        createEME same_sessionTypes changing_found settles_configured
          (encrypted_events [4; 6]) [widevine] uninitialized in
      changing_found [widevine] uninitialized.(instanceInfos) 4
      = Some (4, inr (package widevine persistent))
      /\ List.map fst out.(Rx.nexts) = [4]
      /\ out.(Rx.ending) = Rx.Pending).
Proof.
  split; [reflexivity|]. split; [reflexivity|]. split.
  - intros (reason & fatal & H). discriminate H.
  - cbv zeta. repeat split.
Qed.

Lemma changed_configuration_fails_witness :
  same_sessionTypes
    (package widevine persistent).(keySystemAccess).(getConfiguration)
    configured.(instanceInfos).(_mediaKeySystemConfiguration) = false
  /\ exists reason,
       snd (handleOngoingEvent same_sessionTypes with_initData
              (package widevine persistent) configured)
       = inl (EncryptedMediaError "INVALID_ENCRYPTED_EVENT" reason true)
       /\ (createEME same_sessionTypes changing_found settles_configured
             (encrypted_events [4; 6; 8]) [widevine] uninitialized
          ).(Rx.ending)
          = Rx.Errored 8
              (EncryptedMediaError "INVALID_ENCRYPTED_EVENT" reason true).
Proof.
  split; [reflexivity|].
  destruct (changed_configuration_fails same_sessionTypes changing_found
              settles_configured with_initData (package widevine persistent)
              configured eq_refl)
    as (reason & Hhandler & _ & Hdriver).
  exists reason. split; [exact Hhandler|].
  exact (proj1 (Hdriver (encrypted_events [4; 6; 8]) [widevine]
                  uninitialized 4 with_initData (package widevine temporary)
                  [] uninitialized _ [] 8 [] eq_refl eq_refl eq_refl
                  eq_refl)).
Defined.

End ProtectionWitnesses.

(* ------------------------------------------------------------------ *)
(** ** Overlay source buffer *)

Section OverlayAppend.
Import Js Errors Overlay.
Context {I : Imports}.
Local Open Scope float_scope.

(** A segment the guard of [_append] rejects is not inserted: the call
    only logs, the warning last. *)
Lemma _append_rejected (data : IOverlayTrackSegmentData)
  (s : OverlayTrackSourceBuffer) :
  rejected data = true ->
  exists s', _append data s = inr s'
    /\ s'.(_buffer) = s.(_buffer) /\ s'.(buffered) = s.(buffered)
    /\ s'.(_currentElement) = s.(_currentElement)
    /\ s'.(childNodes) = s.(childNodes)
    /\ s'.(dom)
       = s.(dom)
         ++ [log_debug "appending new html text tracks";
             log_warn invalid_text_track].
Proof.
  intros H. unfold _append. rewrite H. eexists. split; [reflexivity|].
  cbn. rewrite <- app_assoc. now repeat split.
Qed.

(** An end of [0] is falsy: the guard lets the segment through, whatever
    its start. *)
Lemma zero_end_not_rejected (data : IOverlayTrackSegmentData) (e : number) :
  data.(seg_end) = Some e -> is_zero e = true -> rejected data = false.
Proof.
  intros He Hz. unfold rejected, truthy. rewrite He, Hz.
  now rewrite orb_true_r.
Qed.

End OverlayAppend.

Section OverlayAppendFacts.
Import Js Errors Overlay OverlayExamples.
Local Open Scope float_scope.

(** C7 at the failing input: a segment starting and ending at 0 has its
    end bound less than or equal to its start bound, yet [_append] inserts
    it in the buffer and in the buffered ranges, and logs no warning; a
    segment ending before it starts with a non-zero end is rejected. *)
Theorem append_zero_end_inserted :
  (0 <=? empty_segment.(seg_start)) = true
  /\ empty_segment.(seg_end) = Some 0
  /\ (exists s',
        _append empty_segment new_buffer = inr s'
        /\ s'.(_buffer)
           = [{| cue_start := 0; cue_end := 0; cue_data := 0%nat |}]
        /\ s'.(buffered) = [(0, 0)]
        /\ s'.(dom) = [log_debug "creating html text track source buffer";
                       log_debug "appending new html text tracks"])
  /\ (exists s',
        _append backwards_segment new_buffer = inr s'
        /\ s'.(_buffer) = [] /\ s'.(buffered) = []).
Proof.
  split; [reflexivity|]. split; [reflexivity|]. split.
  - eexists. split; [reflexivity|]. repeat split.
  - eexists. split; [reflexivity|]. repeat split.
Qed.

End OverlayAppendFacts.

Section OverlayClock.
Import Js Errors Overlay.
Context {I : Imports}.
Local Open Scope float_scope.

Hypothesis get_in_range :
  forall b time c, bm_get b time = Some c -> in_range c time = true.

Lemma safelyRemoveChild_current (s : OverlayTrackSourceBuffer) :
  s.(childNodes) = attached s ->
  let s' := safelyRemoveChild s.(_currentElement) s in
  s'.(childNodes) = [] /\ s'.(dom) = s.(dom) ++ removal s.(_currentElement)
  /\ s'.(_currentElement) = s.(_currentElement)
  /\ s'.(destroyed) = s.(destroyed).
Proof.
  unfold attached, safelyRemoveChild. intros H. cbv zeta.
  destruct (_currentElement s) as [c|] eqn:Hc.
  - rewrite H. cbn. rewrite Nat.eqb_refl. cbn. now rewrite Hc.
  - cbn. rewrite Hc. now rewrite app_nil_r.
Qed.

Lemma same_element_true (current : option HTMLElement) (e : HTMLElement) :
  same_element current e = true <-> current = Some e.
Proof.
  unfold same_element. destruct current as [c|].
  - rewrite Nat.eqb_eq. split; [now intros -> | now intros [= ->]].
  - split; discriminate.
Qed.

Lemma onClock_hides (currentTime : number) (s : OverlayTrackSourceBuffer) :
  s.(childNodes) = attached s ->
  let s' := onClock false currentTime s in
  s'.(_currentElement) = None /\ s'.(childNodes) = []
  /\ s'.(dom) = s.(dom) ++ removal s.(_currentElement).
Proof.
  intros H. cbv zeta. unfold onClock. cbn [negb].
  destruct (safelyRemoveChild_current s H) as (Hc & Hd & _).
  cbn. now rewrite Hc, Hd.
Qed.

Lemma onClock_shows (currentTime : number) (s : OverlayTrackSourceBuffer) :
  s.(childNodes) = attached s ->
  let s' := onClock true currentTime s in
  match bm_get s.(_buffer) (lookup_time currentTime) with
  | Some overlay =>
      in_range overlay (lookup_time currentTime) = true
      /\ s'.(_currentElement) = Some overlay.(cue_data)
      /\ s'.(childNodes) = [overlay.(cue_data)]
      /\ (s.(_currentElement) = Some overlay.(cue_data) -> s' = s)
      /\ (s.(_currentElement) <> Some overlay.(cue_data) ->
          s'.(dom) = s.(dom) ++ removal s.(_currentElement)
                     ++ [appendChild overlay.(cue_data)])
  | None =>
      s'.(_currentElement) = None /\ s'.(childNodes) = []
      /\ s'.(dom) = s.(dom) ++ removal s.(_currentElement)
  end.
Proof.
  intros H. cbv zeta. unfold onClock. cbn [negb].
  destruct (safelyRemoveChild_current s H) as (Hc & Hd & Hcur & _).
  destruct (bm_get (_buffer s) (lookup_time currentTime)) as [overlay|] eqn:Hg.
  - split; [now apply get_in_range with (b := _buffer s)|].
    destruct (same_element (_currentElement s) (cue_data overlay)) eqn:Hs.
    + apply same_element_true in Hs.
      split; [exact Hs|]. split; [now rewrite H; unfold attached; rewrite Hs|].
      split; [reflexivity|]. intros Hn. contradiction.
    + split; [reflexivity|]. cbn. rewrite Hc, Hd. cbn.
      split; [reflexivity|]. split.
      * intros Hn. apply same_element_true in Hn. congruence.
      * intros _. now rewrite app_assoc.
  - cbn. now rewrite Hc, Hd.
Qed.

Lemma onClock_attached (d : bool) (currentTime : number)
  (s : OverlayTrackSourceBuffer) :
  s.(childNodes) = attached s ->
  let s' := onClock d currentTime s in
  s'.(childNodes) = attached s' /\ s'.(destroyed) = s.(destroyed).
Proof.
  intros H. cbv zeta.
  destruct (safelyRemoveChild_current s H) as (Hc & _ & _ & Hdes).
  destruct d.
  - pose proof (onClock_shows currentTime s H) as Hs. cbv zeta in Hs.
    unfold onClock in *. cbn [negb] in *.
    destruct (bm_get (_buffer s) (lookup_time currentTime)) as [overlay|].
    + destruct Hs as (_ & Hcur & Hch & _). unfold attached. rewrite Hcur.
      split; [exact Hch|].
      destruct (same_element (_currentElement s) (cue_data overlay));
        [reflexivity | exact Hdes].
    + destruct Hs as (Hcur & Hch & _). unfold attached. rewrite Hcur.
      split; [exact Hch | exact Hdes].
  - destruct (onClock_hides currentTime s H) as (Hcur & Hch & _).
    unfold attached. rewrite Hcur. split; [exact Hch|].
    unfold onClock. cbn [negb]. exact Hdes.
Qed.

Lemma _abort_detaches (s : OverlayTrackSourceBuffer) :
  one_attached s ->
  (_abort s).(childNodes) = [] /\ (_abort s).(destroyed) = true.
Proof.
  unfold _abort. cbv zeta.
  set (s1 := {| _buffer := _; _currentElement := _; buffered := _;
                childNodes := _; destroyed := true; fresh := _; dom := _ |}).
  intros [H | [_ H]].
  - assert (H1 : childNodes s1 = attached s1) by exact H.
    destruct (safelyRemoveChild_current s1 H1) as (Hc & _ & _ & Hd).
    split; [exact Hc | exact Hd].
  - unfold safelyRemoveChild. change (childNodes s1) with (childNodes s).
    rewrite H. destruct (_currentElement s1); cbn; now split.
Qed.

Lemma step_one_attached (s : OverlayTrackSourceBuffer) (i : Input) :
  one_attached s -> one_attached (step s i).
Proof.
  intros H. destruct i as [d t | data | a b | ]; cbn [step].
  - unfold clock. destruct (destroyed s) eqn:Hd; [exact H|].
    destruct H as [H | [H _]]; [|congruence].
    left. now apply onClock_attached.
  - unfold _append.
    destruct (rejected data); [exact H|].
    destruct (match match seg_end data with
                    | Some _ => _
                    | None => _
                    end with
              | Some _ => _
              | None => _
              end); exact H.
  - exact H.
  - right. destruct (_abort_detaches H) as [Hc Hd]. now split.
Qed.

Lemma run_one_attached (inputs : list Input) :
  forall s, one_attached s -> one_attached (run inputs s).
Proof.
  induction inputs as [|i inputs IH]; intros s H; [exact H|].
  apply IH. now apply step_one_attached.
Qed.

(** C9, as amended.  On a host element that holds the current element of
    the buffer and nothing else: at a clock emission that asks for display,
    the element attached afterwards is the one the buffer returns for
    [max(currentTime - MAXIMUM_OVERLAY_TRACK_UPDATE_INTERVAL / 3000, 0)],
    whose range contains that time; when it is the current element nothing
    changes; otherwise the current element is removed and then the new one
    appended; when the buffer returns nothing, at a clock emission that asks
    not to display (a seek is in progress), and on abort, the current element
    is removed.  At most one element is attached at any time. *)
Theorem overlay_clock_displays (s : OverlayTrackSourceBuffer)
  (currentTime : number) :
  s.(childNodes) = attached s ->
  (let s' := onClock true currentTime s in
   match bm_get s.(_buffer) (lookup_time currentTime) with
   | Some overlay =>
       in_range overlay (lookup_time currentTime) = true
       /\ s'.(_currentElement) = Some overlay.(cue_data)
       /\ s'.(childNodes) = [overlay.(cue_data)]
       /\ (s.(_currentElement) = Some overlay.(cue_data) -> s' = s)
       /\ (s.(_currentElement) <> Some overlay.(cue_data) ->
           s'.(dom) = s.(dom) ++ removal s.(_currentElement)
                      ++ [appendChild overlay.(cue_data)])
   | None =>
       s'.(_currentElement) = None /\ s'.(childNodes) = []
       /\ s'.(dom) = s.(dom) ++ removal s.(_currentElement)
   end)
  /\ (let s' := onClock false currentTime s in
      s'.(_currentElement) = None /\ s'.(childNodes) = []
      /\ s'.(dom) = s.(dom) ++ removal s.(_currentElement))
  /\ (_abort s).(childNodes) = []
  /\ (forall inputs fresh0,
        (List.length (run inputs (constructor [] fresh0)).(childNodes) <= 1)%nat).
Proof.
  intros H. split; [now apply onClock_shows|].
  split; [now apply onClock_hides|]. split.
  - apply _abort_detaches. now left.
  - intros inputs n.
    assert (Hi : one_attached (constructor [] n)) by (now left).
    destruct (run_one_attached inputs Hi) as [Hr | [_ Hr]]; rewrite Hr.
    + unfold attached. destruct (_currentElement _); cbn; lia.
    + cbn. lia.
Qed.

End OverlayClock.

Section OverlayClockFacts.
Import Js Errors Overlay OverlayExamples.
Local Open Scope float_scope.

Lemma ledger_get_in_range (b : Ledger) (time : number) (c : Cue) :
  ledger_get b time = Some c -> in_range c time = true.
Proof.
  unfold ledger_get, in_range. intros H.
  now apply find_some in H.
Qed.

(** C9 as stated fails at a clock emission made while a seek is in
    progress: the buffer holds an element for the time looked up, and none
    is attached afterwards. *)
Lemma overlay_clock_seeking_counterexample :
  let s' := clock false 5 showing_7 in
  ledger_get showing_7.(_buffer) (@lookup_time ledgerImports 5)
  = Some {| cue_start := 0; cue_end := 10; cue_data := 7%nat |}
  /\ showing_7.(childNodes) = [7%nat]
  /\ s'.(childNodes) = []
  /\ s'.(_currentElement) = None.
Proof. repeat split. Qed.

Lemma overlay_clock_displays_witness :
  showing_7.(childNodes) = @attached ledgerImports showing_7
  /\ (onClock true 5 showing_7) = showing_7
  /\ (onClock true 12 showing_7).(childNodes) = [].
Proof.
  split; [reflexivity|].
  pose proof (@overlay_clock_displays ledgerImports ledger_get_in_range
                showing_7 5 eq_refl) as H5.
  pose proof (@overlay_clock_displays ledgerImports ledger_get_in_range
                showing_7 12 eq_refl) as H12.
  split.
  - exact (proj1 (proj2 (proj2 (proj2 (proj1 H5)))) eq_refl).
  - exact (proj1 (proj2 (proj1 H12))).
Defined.

End OverlayClockFacts.

(* ------------------------------------------------------------------ *)
(** ** End of play *)

Section TraceFacts.
Local Open Scope nat_scope.
Variable X : Type.

Lemma ordered_from_le (l : list (nat * X)) :
  forall a, Rx.ordered_from a l = true ->
  forall x, In x l -> a <= fst x.
Proof.
  induction l as [|y l IH]; intros a H x Hin; [contradiction|].
  cbn in H. apply andb_true_iff in H as [Ha Hl]. apply Nat.leb_le in Ha.
  destruct Hin as [-> | Hin]; [exact Ha|].
  specialize (IH _ Hl _ Hin). lia.
Qed.

Lemma ordered_from_weaken (l : list (nat * X)) :
  forall a b, b <= a -> Rx.ordered_from a l = true ->
  Rx.ordered_from b l = true.
Proof.
  destruct l as [|y l]; intros a b Hab H; [reflexivity|].
  cbn in *. apply andb_true_iff in H as [Ha Hl]. apply Nat.leb_le in Ha.
  apply andb_true_iff. split; [apply Nat.leb_le; lia | exact Hl].
Qed.

Lemma ordered_from_filter (p : nat * X -> bool) (l : list (nat * X)) :
  forall a, Rx.ordered_from a l = true ->
  Rx.ordered_from a (List.filter p l) = true.
Proof.
  induction l as [|y l IH]; intros a H; [reflexivity|].
  cbn in H. apply andb_true_iff in H as [Ha Hl]. cbn.
  destruct (p y); cbn.
  - rewrite Ha. now apply IH.
  - apply IH. apply Nat.leb_le in Ha.
    now apply ordered_from_weaken with (a := fst y).
Qed.

(** The first notification of an ordered trace is not later than any
    other. *)
Lemma ordered_head_le (l r : list (nat * X)) (h x : nat * X) :
  Rx.ordered l = true -> l = h :: r -> In x l -> fst h <= fst x.
Proof.
  unfold Rx.ordered. intros H -> Hin.
  cbn [Rx.ordered_from] in H. apply andb_true_iff in H as [_ H].
  destruct Hin as [-> | Hin]; [lia|].
  now apply ordered_from_le with (l := r).
Qed.

Lemma In_before (t : nat) (l : list (nat * X)) (x : nat * X) :
  In x (Rx.before t l) <-> In x l /\ fst x < t.
Proof.
  unfold Rx.before. rewrite filter_In. now rewrite Nat.ltb_lt.
Qed.

Lemma In_upto (t : nat) (l : list (nat * X)) (x : nat * X) :
  In x (Rx.upto t l) <-> In x l /\ fst x <= t.
Proof.
  unfold Rx.upto. rewrite filter_In. now rewrite Nat.leb_le.
Qed.

Lemma In_stop_at_error (e : Rx.Ending) (l : list (nat * X)) (x : nat * X) :
  In x (Rx.stop_at_error e l) -> In x l.
Proof.
  destruct e; cbn; auto. intros H. now apply In_upto in H.
Qed.

Lemma In_interleave (a : list (nat * X)) :
  forall b x, In x (Rx.interleave a b) <-> In x a \/ In x b.
Proof.
  induction a as [|y a IHa]; intros b x.
  - destruct b; cbn; tauto.
  - induction b as [|z b IHb].
    + cbn. tauto.
    + cbn [Rx.interleave]. destruct (fst y <=? fst z).
      * cbn [In]. rewrite IHa. cbn [In]. tauto.
      * cbn [In]. cbn [Rx.interleave] in IHb. rewrite IHb. cbn [In]. tauto.
Qed.

End TraceFacts.

Section EndOfPlay.
Import Js Errors StreamCore.
Local Open Scope float_scope.

Variable END_OF_PLAY : number.

Lemma takeUntil_ended {A B} (o : Observable A) (notifier : Observable B)
  (t : nat) (x : B) (r : list (nat * B)) :
  notifier.(Rx.nexts) = (t, x) :: r ->
  let out := Rx.takeUntil o notifier in
  out.(Rx.nexts) = Rx.before t o.(Rx.nexts)
  /\ ended_by t out.(Rx.ending)
  /\ (out.(Rx.ending) = Rx.Completed t
      \/ out.(Rx.ending) = o.(Rx.ending)).
Proof.
  intros H. cbv zeta. unfold Rx.takeUntil. rewrite H.
  destruct (Rx.ending o) as [|t'|t' e]; cbn [Rx.ending_before].
  - cbn. repeat split; auto.
  - destruct (t' <? t)%nat eqn:Hlt; cbn [Rx.nexts Rx.ending ended_by];
      [apply Nat.ltb_lt in Hlt|]; repeat split; auto; lia.
  - destruct (t' <? t)%nat eqn:Hlt; cbn [Rx.nexts Rx.ending ended_by];
      [apply Nat.ltb_lt in Hlt|]; repeat split; auto; lia.
Qed.

(** C2, as amended.  The output of the orchestrator ends, and holds no
    notification arriving at that instant or later, as soon as a timing tick
    has [duration > 0] and [duration - currentTime < END_OF_PLAY]. *)
Theorem Stream_ends_at_end_of_play (started : Observable StreamEvent)
  (timings : Rx.Observable Effect IStreamClockTick)
  (t : nat) (tick : IStreamClockTick) :
  Rx.ordered timings.(Rx.nexts) = true ->
  In (t, tick) timings.(Rx.nexts) ->
  (0 <? tick.(duration)) = true ->
  (tick.(duration) - tick.(currentTime) <? END_OF_PLAY) = true ->
  let out := Stream END_OF_PLAY started timings in
  (forall t' e, In (t', e) out.(Rx.nexts) ->
     In (t', e) started.(Rx.nexts) /\ (t' < t)%nat)
  /\ ended_by t out.(Rx.ending).
Proof.
  intros Hord Hin Hd He. cbv zeta. unfold Stream.
  assert (Hf : In (t, tick) (endOfPlay END_OF_PLAY timings).(Rx.nexts)).
  { cbn. apply filter_In. split; [exact Hin|]. cbn.
    unfold endOfPlay_tick. now rewrite Hd, He. }
  destruct (Rx.nexts (endOfPlay END_OF_PLAY timings)) as [|[t1 k1] r] eqn:Hn;
    [contradiction|].
  assert (Hle : (t1 <= t)%nat).
  { change t1 with (fst (t1, k1)). change t with (fst (t, tick)).
    eapply ordered_head_le; [| exact Hn | rewrite Hn; exact Hf].
    cbn. now apply ordered_from_filter. }
  destruct (takeUntil_ended started (endOfPlay END_OF_PLAY timings) Hn)
    as (Hnx & Hend & _).
  split.
  - intros t' e H'. rewrite Hnx in H'. apply In_before in H' as [H1 H2].
    cbn in H2. split; [exact H1 | lia].
  - destruct (Rx.ending _); cbn in *; [exact Hend | lia | lia].
Qed.

(** While no tick has both, the output is that of the started stream. *)
Lemma Stream_goes_on (started : Observable StreamEvent)
  (timings : Rx.Observable Effect IStreamClockTick) :
  (forall t tick, In (t, tick) timings.(Rx.nexts) ->
     endOfPlay_tick END_OF_PLAY tick = false) ->
  Stream END_OF_PLAY started timings = started.
Proof.
  intros H. unfold Stream, Rx.takeUntil.
  destruct (Rx.nexts (endOfPlay END_OF_PLAY timings)) as [|[t k] r] eqn:Hn;
    [reflexivity|].
  assert (Hin : In (t, k) (Rx.nexts (endOfPlay END_OF_PLAY timings)))
    by (rewrite Hn; now left).
  cbn in Hin. apply filter_In in Hin as [Hin Hp]. cbn in Hp.
  now rewrite (H _ _ Hin) in Hp.
Qed.

End EndOfPlay.

Section EndOfPlayFacts.
Import Js StreamCore EndOfPlayExamples.
Local Open Scope float_scope.

(** C2 as stated fails on a tick whose duration is 0: [duration -
    currentTime] is under [END_OF_PLAY], the output does not end, and the
    later notification is passed. *)
Lemma Stream_zero_duration_counterexample :
  let out := Stream END_OF_PLAY_default two_events
               (ticks [(1%nat, no_duration)]) in
  (no_duration.(duration) - no_duration.(currentTime) <? END_OF_PLAY_default)
  = true
  /\ out.(Rx.ending) = Rx.Pending
  /\ In (2%nat, filled range_0_10) out.(Rx.nexts).
Proof.
  cbv zeta. split; [reflexivity|]. split; [reflexivity|].
  cbn. right. now left.
Qed.

Lemma Stream_ends_at_end_of_play_witness :
  let timings := ticks [(1%nat, near_the_end)] in
  let out := Stream END_OF_PLAY_default two_events timings in
  Rx.ordered timings.(Rx.nexts) = true
  /\ In (1%nat, near_the_end) timings.(Rx.nexts)
  /\ (0 <? near_the_end.(duration)) = true
  /\ (near_the_end.(duration) - near_the_end.(currentTime)
      <? END_OF_PLAY_default) = true
  /\ ~ In (2%nat, filled range_0_10) out.(Rx.nexts)
  /\ ended_by 1 out.(Rx.ending).
Proof.
  cbv zeta.
  assert (Hin : In (1%nat, near_the_end)
                  (ticks [(1%nat, near_the_end)]).(Rx.nexts)) by (now left).
  destruct (@Stream_ends_at_end_of_play END_OF_PLAY_default two_events
              (ticks [(1%nat, near_the_end)]) 1 near_the_end
              eq_refl Hin eq_refl eq_refl) as [Hno Hend].
  split; [reflexivity|]. split; [exact Hin|].
  split; [reflexivity|]. split; [reflexivity|]. split; [|exact Hend].
  intros H. apply Hno in H. destruct H as [_ H]. lia.
Defined.

End EndOfPlayFacts.

(* ------------------------------------------------------------------ *)
(** ** Reset of the media element *)

Section ObjectFacts.
Import Js.
Variable V : Type.

Lemma get_delete_other (o : object V) (k k' : string) :
  k <> k' -> get (delete o k') k = get o k.
Proof.
  intros Hne. unfold delete.
  induction o as [|[k0 v] o IH]; [reflexivity|].
  cbn. destruct (String.eqb k' k0) eqn:H0; cbn.
  - apply String.eqb_eq in H0. subst k0.
    destruct (String.eqb k k') eqn:H1; [|exact IH].
    apply String.eqb_eq in H1. contradiction.
  - now rewrite IH.
Qed.

Lemma get_Some_keys (o : object V) (k : string) (v : V) :
  get o k = Some v -> In k (keys o).
Proof.
  induction o as [|[k0 v0] o IH]; [discriminate|].
  cbn. destruct (String.eqb k k0) eqn:H0.
  - apply String.eqb_eq in H0. now left.
  - intros H. right. now apply IH.
Qed.

Lemma keys_delete (o : object V) (k k' : string) :
  In k (keys (delete o k')) -> In k (keys o) /\ k <> k'.
Proof.
  unfold keys, delete. rewrite in_map_iff.
  intros ([k0 v] & <- & Hin). apply filter_In in Hin as [Hin Hne].
  cbn in *. split.
  - apply in_map_iff. now exists (k0, v).
  - intros ->. now rewrite String.eqb_refl in Hne.
Qed.

(** Deleting every key of an object leaves it empty. *)
Lemma delete_all (ks : list string) :
  forall o : object V,
    (forall k, In k (keys o) -> In k ks) ->
    fold_left (@delete V) ks o = [].
Proof.
  induction ks as [|k0 ks IH]; intros o H.
  - destruct o as [|[k v] o]; [reflexivity|].
    exfalso. apply (H k). now left.
  - cbn. apply IH. intros k Hk. apply keys_delete in Hk as [Hk Hne].
    destruct (H k Hk) as [-> | Hin]; [contradiction | exact Hin].
Qed.

End ObjectFacts.

Section Reset.
Import Js Errors MediaSource.

Lemma add_calls_eq (cs : list Call) :
  forall s, add_calls cs s = with_calls cs s.
Proof.
  unfold add_calls, with_calls.
  induction cs as [|c cs IH]; intros s; cbn.
  - rewrite app_nil_r. now destruct s.
  - rewrite IH. cbn. now rewrite <- app_assoc.
Qed.

Lemma deleteNative_eq (ks : list string) :
  forall s,
    fold_left (fun st bufferType =>
                 set_nativeBuffers (delete st.(nativeBuffers) bufferType) st)
      ks s
    = set_nativeBuffers (fold_left (@delete _) ks s.(nativeBuffers)) s.
Proof.
  induction ks as [|k ks IH]; intros s; cbn.
  - now destruct s.
  - now rewrite IH.
Qed.

Lemma deleteCustom_eq (ks : list string) :
  forall s,
    fold_left disposeCustom ks s
    = with_calls (customCalls ks s.(customBuffers))
        (set_customBuffers (fold_left (@delete _) ks s.(customBuffers)) s).
Proof.
  induction ks as [|k ks IH]; intros s; cbn [fold_left customCalls].
  - unfold with_calls. cbn. rewrite app_nil_r. now destruct s.
  - rewrite IH. unfold disposeCustom, with_calls.
    destruct (get (customBuffers s) k) as [sb|]; [destruct (abort_throws sb)|];
      cbn; rewrite <- ?app_assoc; reflexivity.
Qed.

Lemma customCalls_abort (ks : list string) :
  forall o k sb,
    In k ks -> get o k = Some sb -> In (Custom_abort k sb) (customCalls ks o).
Proof.
  induction ks as [|k0 ks IH]; intros o k sb Hin Hget; [contradiction|].
  cbn [customCalls]. apply in_or_app.
  destruct (string_dec k k0) as [-> | Hne].
  - left. rewrite Hget. now left.
  - right. apply IH.
    + destruct Hin as [-> | Hin]; [contradiction | exact Hin].
    + now rewrite get_delete_other.
Qed.

Lemma customCalls_not_native (ks : list string) :
  forall o c, In c (customCalls ks o) -> native_call c = false.
Proof.
  induction ks as [|k0 ks IH]; intros o c Hin; [contradiction|].
  cbn [customCalls] in Hin. apply in_app_or in Hin as [Hin | Hin].
  - destruct (get o k0) as [sb|]; [destruct (abort_throws sb)|];
      cbn in Hin; intuition (subst; reflexivity).
  - eapply IH; eauto.
Qed.

Lemma mem_In (sb : SourceBuffer) (l : list SourceBuffer) :
  In sb l -> mem sb l = true.
Proof.
  intros H. unfold mem. apply existsb_exists. exists sb.
  split; [exact H | apply Nat.eqb_refl].
Qed.

Lemma disposeNative_attached (m : MediaSource.MediaSource) (sb : SourceBuffer) :
  In sb m.(sourceBuffers) ->
  disposeNative m.(readyState) sb m
  = (set_sourceBuffers
       (filter (fun x => negb (Nat.eqb sb x)) m.(sourceBuffers)) m,
     disposal m.(readyState) sb).
Proof.
  intros Hin. unfold disposeNative, platform_abort,
    platform_removeSourceBuffer, disposal.
  rewrite (mem_In _ _ Hin).
  destruct (ReadyState_eqb (readyState m) open); reflexivity.
Qed.

Lemma nativeLoop_calls (n : nat) :
  forall i m,
    snd (nativeLoop n i m.(readyState) m)
    = flat_map (disposal m.(readyState)) (visits n i m.(sourceBuffers)).
Proof.
  induction n as [|n IH]; intros i m; [reflexivity|].
  cbn [nativeLoop visits].
  destruct (nth_error (sourceBuffers m) i) as [sb|] eqn:Hnth; [|reflexivity].
  rewrite (disposeNative_attached m sb (nth_error_In _ _ Hnth)).
  specialize (IH (S i)
                (set_sourceBuffers
                   (filter (fun x => negb (Nat.eqb sb x)) (sourceBuffers m)) m)).
  cbn [readyState set_sourceBuffers sourceBuffers] in IH.
  destruct (nativeLoop n (S i) (readyState m) _) as [m2 cs2].
  cbn [snd] in *. cbn [flat_map]. now rewrite IH.
Qed.

Lemma visits_In (n : nat) :
  forall i l sb, In sb (visits n i l) -> In sb l.
Proof.
  induction n as [|n IH]; intros i l sb H; [contradiction|].
  cbn [visits] in H.
  destruct (nth_error l i) as [sb0|] eqn:Hnth; [|contradiction].
  destruct H as [<- | H]; [now apply nth_error_In in Hnth|].
  apply IH in H. now apply filter_In in H.
Qed.

(** [resetMediaElement] in one step. *)
Lemma resetMediaElement_eq (s : State) :
  resetMediaElement s
  = {| mediaSource := None; objectURL := None;
       nativeBuffers := []; customBuffers := [];
       video_src := None; next_url := s.(next_url);
       calls := s.(calls) ++ nativeCalls s
                ++ customCalls (keys s.(customBuffers)) s.(customBuffers)
                ++ [clearVideoSrc_call] ++ revokeCalls s.(objectURL) |}.
Proof.
  unfold resetMediaElement, deleteNative, deleteCustom, clearVideoSrc.
  set (s1 := match mediaSource s with Some _ => _ | None => _ end).
  assert (H1 : s1.(calls) = s.(calls) ++ nativeCalls s
               /\ s1.(objectURL) = s.(objectURL)
               /\ s1.(nativeBuffers) = s.(nativeBuffers)
               /\ s1.(customBuffers) = s.(customBuffers)
               /\ s1.(next_url) = s.(next_url)).
  { unfold s1, nativeCalls. destruct (mediaSource s) as [m|];
      [|now rewrite app_nil_r].
    destruct (negb (ReadyState_eqb (readyState m) closed));
      [|now rewrite app_nil_r].
    pose proof (nativeLoop_calls (List.length (sourceBuffers m)) 0 m) as Hn.
    destruct (nativeLoop _ 0 (readyState m) m) as [m' cs]. cbn [snd] in Hn.
    rewrite add_calls_eq. cbn. now rewrite Hn. }
  destruct H1 as (Hc & Hu & Hn & Hcu & Hnx).
  rewrite deleteNative_eq, deleteCustom_eq.
  cbn [set_nativeBuffers customBuffers nativeBuffers].
  rewrite !delete_all by auto.
  unfold with_calls, set_customBuffers, set_video_src, call, set_objectURL,
    set_mediaSource.
  cbn. rewrite Hu, Hc, Hcu, Hnx.
  destruct (objectURL s); cbn; rewrite <- ?app_assoc; reflexivity.
Qed.

(** [resetMediaElement], which runs at every subscription (re-open) and
    at unsubscription (teardown), leaves both memories of
    source buffers empty, the [src] of the element cleared and the
    variables of the closure null; it calls [abort] on every custom source
    buffer of the memory, and revokes the URL that was attached, if any.  A
    source buffer it removes from the media source belongs to it, the media
    source being open or ended, and is aborted first when the media source
    is open; no source buffer is aborted otherwise.  The first source buffer
    of a media source that is not closed is removed. *)
Theorem resetMediaElement_leaves (s : State) :
  let s' := resetMediaElement s in
  s'.(nativeBuffers) = [] /\ s'.(customBuffers) = []
  /\ s'.(video_src) = None
  /\ s'.(mediaSource) = None /\ s'.(objectURL) = None
  /\ exists new,
       s'.(calls) = s.(calls) ++ new
       /\ In clearVideoSrc_call new
       /\ (forall k sb, get s.(customBuffers) k = Some sb ->
             In (Custom_abort k sb) new)
       /\ (forall u, s.(objectURL) = Some u -> In (revokeObjectURL u) new)
       /\ (forall sb, In (removeSourceBuffer sb) new ->
             exists m, s.(mediaSource) = Some m
                       /\ In sb m.(sourceBuffers)
                       /\ m.(readyState) <> closed
                       /\ (m.(readyState) = open ->
                           In (SourceBuffer_abort sb) new))
       /\ (forall sb, In (SourceBuffer_abort sb) new ->
             exists m, s.(mediaSource) = Some m /\ m.(readyState) = open
                       /\ In (removeSourceBuffer sb) new)
       /\ (forall m sb rest,
             s.(mediaSource) = Some m -> m.(readyState) <> closed ->
             m.(sourceBuffers) = sb :: rest ->
             In (removeSourceBuffer sb) new).
Proof.
  cbv zeta. rewrite resetMediaElement_eq. cbn.
  repeat (split; [reflexivity|]).
  eexists. split; [reflexivity|].
  assert (Hnat : forall c, native_call c = true ->
            In c (nativeCalls s
                  ++ customCalls (keys (customBuffers s)) (customBuffers s)
                  ++ clearVideoSrc_call :: revokeCalls (objectURL s)) ->
            In c (nativeCalls s)).
  { intros c Hc H. apply in_app_or in H as [H | H]; [exact H|].
    apply in_app_or in H as [H | H].
    - apply customCalls_not_native in H. congruence.
    - destruct H as [<- | H]; [discriminate|].
      destruct (objectURL s); cbn in H; [|contradiction].
      destruct H as [<- | [<- | []]]; discriminate. }
  assert (Hblock : forall c, In c (nativeCalls s) ->
            exists m sb, s.(mediaSource) = Some m
              /\ m.(readyState) <> closed /\ In sb m.(sourceBuffers)
              /\ In c (disposal m.(readyState) sb)
              /\ incl (disposal m.(readyState) sb) (nativeCalls s)).
  { unfold nativeCalls. intros c H.
    destruct (mediaSource s) as [m|]; [|contradiction].
    destruct (ReadyState_eqb (readyState m) closed) eqn:Hcl;
      [contradiction|]. cbn [negb] in H.
    apply in_flat_map in H as (sb & Hv & Hc).
    exists m, sb. split; [reflexivity|]. split.
    - intros Heq. rewrite Heq in Hcl. discriminate.
    - split; [now apply visits_In in Hv|]. split; [exact Hc|].
      intros c' Hc'. apply in_flat_map. now exists sb. }
  split; [apply in_or_app; right; apply in_or_app; right; now left|].
  split; [|split; [|split; [|split]]].
  - intros k sb Hget. apply in_or_app. right. apply in_or_app. left.
    apply customCalls_abort; [|exact Hget]. now apply get_Some_keys in Hget.
  - intros u ->. apply in_or_app. right. apply in_or_app. right.
    cbn. right. right. now left.
  - intros sb H. apply Hnat in H; [|reflexivity].
    destruct (Hblock _ H) as (m & sb' & Hm & Hcl & Hin & Hc & Hincl).
    assert (sb' = sb) as ->.
    { unfold disposal in Hc. apply in_app_or in Hc as [Hc | Hc].
      - destruct (ReadyState_eqb (readyState m) open); cbn in Hc;
          intuition discriminate.
      - destruct Hc as [[= ->] | []]. reflexivity. }
    exists m. repeat split; auto.
    intros Hopen. apply in_or_app. left. apply Hincl.
    unfold disposal. rewrite Hopen. cbn. right. now left.
  - intros sb H. apply Hnat in H; [|reflexivity].
    destruct (Hblock _ H) as (m & sb' & Hm & Hcl & Hin & Hc & Hincl).
    unfold disposal in Hc, Hincl.
    destruct (readyState m) eqn:Hrs; cbn in Hc; try intuition discriminate.
    destruct Hc as [Hc | [[= ->] | [Hc | []]]]; try discriminate.
    exists m. repeat split; auto.
    apply in_or_app. left. apply Hincl. cbn. right. right. now left.
  - intros m sb rest Hm Hcl Hsb. apply in_or_app. left.
    unfold nativeCalls. rewrite Hm.
    destruct (ReadyState_eqb (readyState m) closed) eqn:Hc.
    + destruct (readyState m); try discriminate. contradiction.
    + cbn [negb]. rewrite Hsb. cbn [List.length visits nth_error flat_map].
      apply in_or_app. left. unfold disposal. apply in_or_app. right.
      now left.
Qed.

End Reset.

Section ResetFacts.
Import Js Errors MediaSource ResetExamples.

(** At the teardown of a media source that has ended, its source buffer is
    removed and not aborted: [abort] is called under
    [readyState === "open"] alone. *)
Lemma resetMediaElement_ended_removes_without_abort :
  let s' := unsubscribe played_to_the_end in
  get played_to_the_end.(nativeBuffers) "video" = Some 1
  /\ In (removeSourceBuffer 1) s'.(calls)
  /\ ~ In (SourceBuffer_abort 1) s'.(calls).
Proof.
  cbv zeta. split; [reflexivity|]. split.
  - cbn. now left.
  - cbn. intuition discriminate.
Qed.

Lemma resetMediaElement_leaves_playing :
  let s' := unsubscribe playing in
  s'.(video_src) = None
  /\ In (Custom_abort "text" subtitles) s'.(calls)
  /\ In (revokeObjectURL (ObjectUrl 0)) s'.(calls)
  /\ In (SourceBuffer_abort 1) s'.(calls)
  /\ In (removeSourceBuffer 1) s'.(calls).
Proof.
  cbv zeta. unfold unsubscribe.
  destruct (resetMediaElement_leaves playing)
    as (_ & _ & Hsrc & _ & _ & new & Hcalls & _ & Hcustom & Hurl & Hrem & _
        & Hfirst).
  rewrite Hcalls. cbn [calls playing app].
  split; [exact Hsrc|].
  split; [apply Hcustom; reflexivity|].
  split; [apply Hurl; reflexivity|].
  assert (H1 : In (removeSourceBuffer 1) new).
  { eapply Hfirst; [reflexivity | discriminate | reflexivity]. }
  split; [|exact H1].
  destruct (Hrem 1 H1) as (m & Hm & _ & _ & Hopen).
  apply Hopen. injection Hm as Hm. now rewrite <- Hm.
Defined.

(** C4.  At the teardown of an open media source that holds two source
    buffers, the audio one and the video one, [resetMediaElement] aborts and
    removes the first and leaves the second, which is neither aborted nor
    removed: its first loop goes up the live list of the media source while
    [removeSourceBuffer] takes the buffers out of it, so that the index 1 is
    past the end of the list once the first buffer is removed.  The custom
    source buffer is aborted, the [src] cleared and the URL revoked. *)
Theorem resetMediaElement_second_sourceBuffer_left :
  playing.(mediaSource)
  = Some {| MediaSource.duration := 30%float; readyState := open;
            sourceBuffers := [1; 2] |}
  /\ (unsubscribe playing).(calls)
     = [log_info "aborting previous source buffer";
        SourceBuffer_abort 1; removeSourceBuffer 1;
        Custom_abort "text" subtitles;
        clearVideoSrc_call;
        log_debug "revoking previous URL"; revokeObjectURL (ObjectUrl 0)]
  /\ ~ In (SourceBuffer_abort 2) (unsubscribe playing).(calls)
  /\ ~ In (removeSourceBuffer 2) (unsubscribe playing).(calls).
Proof.
  split; [reflexivity|]. split; [reflexivity|].
  split; cbn; intuition discriminate.
Qed.

(** Re-open: whatever the element held, after the subscription the
    memories hold nothing of the previous content, the URL that was
    attached is revoked, and, when no media source can be created, the
    [src] is left cleared. *)
Lemma createMediaSource_reopens (url : string) (video : Element)
  (withMediaSource MediaSource_ : bool) :
  let s := fst (createMediaSource url video withMediaSource MediaSource_) in
  s.(nativeBuffers) = [] /\ s.(customBuffers) = []
  /\ (forall u, video.(el_src) = Some u -> In (revokeObjectURL u) s.(calls))
  /\ (forall k sb, get video.(el_custom) k = Some sb ->
        In (Custom_abort k sb) s.(calls))
  /\ (withMediaSource = true -> MediaSource_ = false ->
      s.(video_src) = None
      /\ snd (createMediaSource url video withMediaSource MediaSource_)
         = inl (MediaError "MEDIA_SOURCE_NOT_SUPPORTED" None true)).
Proof.
  cbv zeta. unfold createMediaSource. rewrite resetMediaElement_eq.
  cbn [calls objectURL customBuffers nativeBuffers next_url app].
  assert (Hc : forall k sb, get video.(el_custom) k = Some sb ->
            In (Custom_abort k sb)
              (customCalls (keys (el_custom video)) (el_custom video))).
  { intros k sb Hget.
    apply customCalls_abort; [|exact Hget]. now apply get_Some_keys in Hget. }
  destruct withMediaSource; [destruct MediaSource_|]; cbn;
    (split; [reflexivity|]); (split; [reflexivity|]); (split; [|split]);
    try (intros; discriminate);
    try (intros u Hsrc; rewrite Hsrc; repeat (rewrite in_app_iff); cbn;
         now intuition auto);
    try (intros k sb Hget; apply Hc in Hget; repeat (rewrite in_app_iff);
         now intuition auto).
  intros _ _. now split.
Qed.

End ResetFacts.

(* ------------------------------------------------------------------ *)
(** ** Where the notifications and side effects of an operator come from *)

Section OperatorFacts.
Local Open Scope nat_scope.
Variables E A B : Type.

Lemma In_firstn {X} (n : nat) (l : list X) (x : X) :
  In x (firstn n l) -> In x l.
Proof.
  intros H. rewrite <- (firstn_skipn n l). apply in_or_app. now left.
Qed.

Lemma In_nexts_take (n : nat) (o : Rx.Observable E A) (x : nat * A) :
  In x (Rx.take n o).(Rx.nexts) -> In x o.(Rx.nexts).
Proof.
  unfold Rx.take. destruct n as [|k]; [contradiction|].
  destruct (nth_error (Rx.nexts o) k) as [[t a]|]; [|auto].
  cbn [Rx.nexts]. apply In_firstn.
Qed.

Lemma In_effects_take (n : nat) (o : Rx.Observable E A) (x : nat * E) :
  In x (Rx.take n o).(Rx.effects) -> In x o.(Rx.effects).
Proof.
  unfold Rx.take. destruct n as [|k]; [contradiction|].
  destruct (nth_error (Rx.nexts o) k) as [[t a]|]; [|auto].
  cbn [Rx.effects]. intros H. now apply In_upto in H.
Qed.

Lemma In_nexts_merge (a b : Rx.Observable E A) (x : nat * A) :
  In x (Rx.merge a b).(Rx.nexts) ->
  In x a.(Rx.nexts) \/ In x b.(Rx.nexts).
Proof.
  cbn. intros H. apply In_stop_at_error in H. now apply In_interleave in H.
Qed.

Lemma In_effects_merge (a b : Rx.Observable E A) (x : nat * E) :
  In x (Rx.merge a b).(Rx.effects) ->
  In x a.(Rx.effects) \/ In x b.(Rx.effects).
Proof.
  cbn. intros H. apply In_stop_at_error in H. now apply In_interleave in H.
Qed.

Lemma In_nexts_joined (t0 : nat) (o : Rx.Observable E A) (x : nat * A) :
  In x (Rx.joined t0 o).(Rx.nexts) <-> In x o.(Rx.nexts) /\ (t0 < fst x)%nat.
Proof.
  cbn. unfold Rx.after. now rewrite filter_In, Nat.ltb_lt.
Qed.

Lemma In_nexts_filter (p : A -> bool) (o : Rx.Observable E A) (t : nat)
  (a : A) :
  In (t, a) (Rx.filter p o).(Rx.nexts) <->
  In (t, a) o.(Rx.nexts) /\ p a = true.
Proof. cbn. now rewrite filter_In. Qed.

Lemma In_distinct_from (compare : A -> A -> bool) (l : list (nat * A)) :
  forall last x, In x (Rx.distinct_from compare last l) -> In x l.
Proof.
  induction l as [|[t a] l IH]; intros last x H; [contradiction|].
  cbn [Rx.distinct_from] in H.
  destruct last as [b|]; [destruct (compare b a)|].
  - right. eapply IH; eauto.
  - destruct H as [<- | H]; [now left | right; eapply IH; eauto].
  - destruct H as [<- | H]; [now left | right; eapply IH; eauto].
Qed.

Lemma In_effects_takeUntil (o : Rx.Observable E A) (n : Rx.Observable E B)
  (x : nat * E) :
  In x (Rx.takeUntil o n).(Rx.effects) -> In x o.(Rx.effects).
Proof.
  unfold Rx.takeUntil. destruct (Rx.nexts n) as [|[t b] r]; [auto|].
  destruct (Rx.ending_before t (Rx.ending o)); cbn [Rx.effects];
    intros H; now apply In_before in H.
Qed.

Lemma switch_inner_In (project : nat -> A -> Rx.Observable E B)
  (l : list (nat * A)) :
  forall o, In o (Rx.switch_inner project l) ->
  exists t a, In (t, a) l
    /\ forall x, In x o.(Rx.effects) -> In x (project t a).(Rx.effects).
Proof.
  induction l as [|[t a] l IH]; intros o H; [contradiction|].
  cbn [Rx.switch_inner] in H. destruct l as [|[t' a'] l'].
  - destruct H as [<- | []]. exists t, a. split; [now left | auto].
  - destruct H as [<- | H].
    + exists t, a. split; [now left|]. cbn. intros x Hx.
      now apply In_before in Hx.
    + destruct (IH _ H) as (t1 & a1 & Hin & Hsub).
      exists t1, a1. split; [now right | exact Hsub].
Qed.

(** A side effect of [o.switchMap(project)] is one of [o] or one of the
    inner observable of a notification of [o]. *)
Lemma In_effects_switchMap (project : nat -> A -> Rx.Observable E B)
  (o : Rx.Observable E A) (x : nat * E) :
  In x (Rx.switchMap project o).(Rx.effects) ->
  In x o.(Rx.effects)
  \/ exists t a, In (t, a) o.(Rx.nexts)
                 /\ In x (project t a).(Rx.effects).
Proof.
  cbn. intros H. apply In_stop_at_error in H.
  apply In_interleave in H as [H | H]; [now left | right].
  apply in_concat in H as (l & Hl & Hx).
  apply in_map_iff in Hl as (inner & <- & Hinner).
  destruct (switch_inner_In _ _ _ Hinner) as (t & a & Hin & Hsub).
  exists t, a. split; [exact Hin | now apply Hsub].
Qed.

End OperatorFacts.

(* ------------------------------------------------------------------ *)
(** ** Period buffers *)

Section PeriodBuffers.
Import Js Errors StreamCore.
Local Open Scope float_scope.

Variable createAdaptationBuffer :
  SupportedBufferTypes -> Period -> Adaptation -> nat
  -> Rx.Observable Empty_set StreamEvent.
Variable BufferGarbageCollector :
  SupportedBufferTypes -> nat -> Rx.Observable Empty_set StreamEvent.
Variable manifest : Manifest.
Variable mediaSource : option MediaSource.MediaSource.
Variable bufferType : SupportedBufferTypes.

Local Abbreviation periodBuffer :=
  (periodBuffer createAdaptationBuffer BufferGarbageCollector mediaSource
     bufferType).
Local Abbreviation periodBuffer_source :=
  (periodBuffer_source createAdaptationBuffer BufferGarbageCollector
     mediaSource bufferType).
Local Abbreviation createPeriodBuffer :=
  (createPeriodBuffer createAdaptationBuffer BufferGarbageCollector manifest
     mediaSource bufferType).
Local Abbreviation onAdaptation :=
  (onAdaptation createAdaptationBuffer BufferGarbageCollector mediaSource
     bufferType).
Local Abbreviation switches_at :=
  (switches_at createAdaptationBuffer BufferGarbageCollector manifest
     mediaSource bufferType).
Local Abbreviation buffer_of :=
  (buffer_of createAdaptationBuffer BufferGarbageCollector manifest
     mediaSource bufferType).

Lemma onAdaptation_effects (period : Period) (t : nat)
  (adaptation : option Adaptation) (x : nat * Effect) :
  In x (onAdaptation period t adaptation).(Rx.effects) ->
  is_creation (snd x) = false.
Proof.
  unfold StreamCore.onAdaptation.
  destruct mediaSource as [ms|]; [|contradiction].
  destruct adaptation as [adaptation|].
  - cbn. intros [<- | [<- | [<- | H]]]; try reflexivity.
    apply In_stop_at_error in H. contradiction.
  - cbn. intros [<- | [<- | []]]; reflexivity.
Qed.

Lemma periodBuffer_source_effects (period : Period)
  (_adaptation : Rx.Observable Empty_set (option Adaptation))
  (x : nat * Effect) :
  In x (periodBuffer_source period _adaptation).(Rx.effects) ->
  is_creation (snd x) = false.
Proof.
  unfold StreamCore.periodBuffer_source. intros H.
  apply In_effects_switchMap in H as [H | (t & a & _ & H)];
    [contradiction|].
  now apply onAdaptation_effects in H.
Qed.

(** The message that makes a buffer switch is one it emitted, and ends
    it. *)
Lemma switchTrigger_message (t0 : nat) (pb : Observable StreamEvent)
  (t : nat) (message : StreamEvent) :
  In (t, message) (switchTrigger t0 pb).(Rx.nexts) ->
  In (t, message) pb.(Rx.nexts) /\ ends_buffer message.
Proof.
  unfold switchTrigger. intros H. apply In_nexts_take in H.
  apply In_nexts_merge in H as [H | H].
  - unfold bufferEnded in H. apply In_nexts_filter in H as [H Hp].
    cbn in H. apply In_distinct_from in H.
    split; [exact H|]. left. now apply String.eqb_eq.
  - unfold bufferFinished in H. apply In_nexts_filter in H as [H Hp].
    apply In_nexts_joined in H as [H _].
    split; [exact H|]. right. now apply String.eqb_eq.
Qed.

Lemma switchTrigger_effects (t0 : nat) (pb : Observable StreamEvent)
  (x : nat * Effect) :
  pb.(Rx.effects) = [] -> ~ In x (switchTrigger t0 pb).(Rx.effects).
Proof.
  unfold switchTrigger. intros He H. apply In_effects_take in H.
  apply In_effects_merge in H. cbn in H. rewrite He in H. tauto.
Qed.

(** A buffer switches at most once. *)
Lemma switchTrigger_once (t0 : nat) (pb : Observable StreamEvent) :
  (List.length (switchTrigger t0 pb).(Rx.nexts) <= 1)%nat.
Proof.
  unfold switchTrigger, Rx.take.
  destruct (nth_error _ 0) as [[t m]|] eqn:Hn; cbn [Rx.nexts].
  - rewrite length_firstn. lia.
  - apply nth_error_None in Hn. lia.
Qed.

(** What the creations made from a buffer of the track are. *)
Lemma creations_from (period0 : Period)
  (adaptation0 : Rx.Observable Empty_set (option Adaptation)) (fuel : nat) :
  forall period _adaptation t0,
    buffer_of period0 adaptation0 period _adaptation ->
    forall t type next,
      In (t, log_warn_creating_new_Buffer type next)
        (createPeriodBuffer fuel period _adaptation t0).(Rx.effects) ->
      type = bufferType
      /\ exists parent parent_adaptation,
           buffer_of period0 adaptation0 parent parent_adaptation
           /\ switches_at parent parent_adaptation t next.
Proof.
  induction fuel as [|fuel IH];
    intros period _adaptation t0 Hb t type next H; [contradiction|].
  cbn [StreamCore.createPeriodBuffer] in H.
  cbn [Rx.connect Rx.effects] in H.
  apply In_interleave in H as [H | H].
  { apply periodBuffer_source_effects in H. discriminate. }
  apply In_effects_merge in H as [H | H].
  2:{ apply In_effects_takeUntil in H. contradiction. }
  apply In_effects_switchMap in H as [H | (t1 & message & Hm & H)].
  { now apply switchTrigger_effects in H. }
  apply switchTrigger_message in Hm as [Hm Hends].
  unfold onBufferEnd in H.
  destruct (wantedRange_of message) as [wantedRange|] eqn:Hw; [|contradiction].
  destruct (getPeriodForTime manifest (wr_end wantedRange + 2))
    as [_period|] eqn:Hp; [|contradiction].
  assert (Hs : switches_at period _adaptation t1 _period)
    by (exists message, wantedRange; auto).
  cbn [Rx.tap_effect Rx.effects] in H. destruct H as [H | H].
  - injection H as <- <- <-. split; [reflexivity|]. eauto.
  - eapply IH; [|exact H]. eapply next_buffer; eauto.
Qed.

(** No creation is made from a buffer when no period is found for the
    message that makes it switch. *)
Lemma no_period_no_creation (fuel : nat) (period : Period)
  (_adaptation : Rx.Observable Empty_set (option Adaptation)) :
  forall t0,
  (forall t message wantedRange,
     In (t, message)
       (switchTrigger t0 (periodBuffer period _adaptation)).(Rx.nexts) ->
     wantedRange_of message = Some wantedRange ->
     manifest.(getPeriodForTime) (wantedRange.(wr_end) + 2) = None) ->
  forall x, In x (createPeriodBuffer fuel period _adaptation t0).(Rx.effects) ->
            is_creation (snd x) = false.
Proof.
  intros t0 Hnone x H. destruct fuel as [|fuel]; [contradiction|].
  cbn [StreamCore.createPeriodBuffer] in H.
  cbn [Rx.connect Rx.effects] in H.
  apply In_interleave in H as [H | H].
  { now apply periodBuffer_source_effects in H. }
  apply In_effects_merge in H as [H | H].
  2:{ apply In_effects_takeUntil in H. contradiction. }
  apply In_effects_switchMap in H as [H | (t1 & message & Hm & H)].
  { now apply switchTrigger_effects in H. }
  unfold onBufferEnd in H.
  destruct (wantedRange_of message) as [wantedRange|] eqn:Hw; [|contradiction].
  rewrite (Hnone _ _ _ Hm Hw) in H. contradiction.
Qed.


End PeriodBuffers.

Section TwoPeriodsFacts.
Import Js StreamCore TwoPeriods.
Local Open Scope float_scope.

(** The buffer of the second period is created at the instant 3, and no
    other. *)
Lemma video_buffers_creations :
  List.filter (fun x => is_creation (snd x)) (video_buffers 5).(Rx.effects)
  = [(3%nat, log_warn_creating_new_Buffer "video" period2)].
Proof. vm_compute. reflexivity. Qed.


End TwoPeriodsFacts.

(* ================================================================== *)
(** * Further properties *)

(* ------------------------------------------------------------------ *)
(** ** MetaDASH overlays *)

Section ParseOverlay.
Import Js Overlay.
Local Open Scope float_scope.

Lemma parseMetaDASHOverlay_length (data : list IMetaDashOverlayData) :
  forall timeOffset fresh,
    List.length (parseMetaDASHOverlay data timeOffset fresh)
    = List.length data.
Proof.
  induction data as [|d data IH]; intros off n; cbn; [reflexivity|].
  now rewrite IH.
Qed.

Lemma parseMetaDASHOverlay_elements (data : list IMetaDashOverlayData) :
  forall timeOffset fresh,
    List.map element (parseMetaDASHOverlay data timeOffset fresh)
    = seq fresh (List.length data).
Proof.
  induction data as [|d data IH]; intros off n; cbn; [reflexivity|].
  now rewrite IH.
Qed.

Lemma parseMetaDASHOverlay_nth (data : list IMetaDashOverlayData) :
  forall timeOffset fresh i overlayData,
    nth_error data i = Some overlayData ->
    nth_error (parseMetaDASHOverlay data timeOffset fresh) i
    = Some {| start := overlayData.(od_start) + timeOffset;
              end_ := overlayData.(od_end) + timeOffset;
              element := (fresh + i)%nat |}.
Proof.
  induction data as [|d data IH]; intros off n i x H.
  - destruct i; discriminate.
  - destruct i as [|i]; cbn in *.
    + injection H as ->. now rewrite Nat.add_0_r.
    + rewrite (IH off (S n) i x H). now rewrite Nat.add_succ_r.
Qed.

(** X1.  [parseMetaDASHOverlay] returns one overlay for each entry of the
    data, in the same order, with the time offset added to its start and to
    its end, and with an element of its own: the elements created by one
    call are pairwise distinct, and those of two calls made one after the
    other on the same document are distinct too. *)
Theorem parseMetaDASHOverlay_one_fresh_element_each
  (data more : list IMetaDashOverlayData) (timeOffset timeOffset' : number)
  (fresh : nat) :
  let overlays := parseMetaDASHOverlay data timeOffset fresh in
  let overlays' :=
    parseMetaDASHOverlay more timeOffset' (fresh + List.length data) in
  List.length overlays = List.length data
  /\ (forall i overlayData,
        nth_error data i = Some overlayData ->
        exists o, nth_error overlays i = Some o
          /\ o.(start) = overlayData.(od_start) + timeOffset
          /\ o.(end_) = overlayData.(od_end) + timeOffset)
  /\ NoDup (List.map element overlays ++ List.map element overlays').
Proof.
  cbv zeta. split; [apply parseMetaDASHOverlay_length|]. split.
  - intros i x H. eexists. split.
    + apply parseMetaDASHOverlay_nth. exact H.
    + split; reflexivity.
  - rewrite !parseMetaDASHOverlay_elements, <- seq_app. apply seq_NoDup.
Qed.

End ParseOverlay.

Section ParseOverlayFacts.
Import Js Overlay OverlayExamples.
Local Open Scope float_scope.

Lemma parseMetaDASHOverlay_one_fresh_element_each_witness :
  nth_error empty_segment.(seg_data) 0
  = Some {| od_start := 0; od_end := 0; od_version := 1;
            od_element := banner |}
  /\ exists o,
       nth_error (parseMetaDASHOverlay empty_segment.(seg_data) 2 5) 0 = Some o
       /\ o.(start) = 0 + 2 /\ o.(end_) = 0 + 2.
Proof.
  split; [reflexivity|].
  exact (proj1 (proj2 (parseMetaDASHOverlay_one_fresh_element_each
                         empty_segment.(seg_data) [] 2 0 5)) 0%nat _ eq_refl).
Defined.

End ParseOverlayFacts.

(* ------------------------------------------------------------------ *)
(** ** Overlay source buffer: appends, and what follows an abort *)

Section OverlayMore.
Import Js Errors Overlay.
Context {I : Imports}.
Local Open Scope float_scope.

Lemma last_overlay_app (l : list IHTMLOverlay) (o : IHTMLOverlay) :
  last_overlay (l ++ [o]) = Some o.
Proof.
  unfold last_overlay. rewrite map_app. cbn. apply last_last.
Qed.

Lemma last_overlay_nil_inv (l : list IHTMLOverlay) :
  last_overlay l = None -> l = [].
Proof.
  destruct l as [|x l] using rev_ind; [reflexivity|].
  now rewrite last_overlay_app.
Qed.

(** X2.  A segment without an end, when the guard lets it through: with no
    overlay parsed, [_append] throws and nothing is inserted; otherwise the
    range inserted, in the buffer and in the buffered ranges, ends at the end
    of the last overlay parsed, and starts at [start / timescale].  Nothing is
    attached or detached. *)
Theorem append_without_end (data : IOverlayTrackSegmentData)
  (s : OverlayTrackSourceBuffer) :
  data.(seg_end) = None ->
  let overlays :=
    parseOverlayToElements data.(seg_type) data.(seg_data) data.(timeOffset)
      s.(fresh) in
  (overlays = [] -> exists e, _append data s = inl e)
  /\ (forall earlier lastOverlay,
        overlays = earlier ++ [lastOverlay] ->
        exists s',
          _append data s = inr s'
          /\ s'.(_buffer)
             = bm_insert
                 (List.map (fun cue => {| cue_start := cue.(start);
                                          cue_end := cue.(end_);
                                          cue_data := cue.(element) |})
                    overlays)
                 (data.(seg_start) / data.(timescale)) lastOverlay.(end_)
                 s.(_buffer)
          /\ s'.(buffered)
             = tr_insert (data.(seg_start) / data.(timescale))
                 lastOverlay.(end_) s.(buffered)
          /\ s'.(childNodes) = s.(childNodes)
          /\ s'.(_currentElement) = s.(_currentElement)
          /\ s'.(fresh) = (s.(fresh) + List.length overlays)%nat).
Proof.
  intros Hend. cbv zeta. unfold _append, rejected. rewrite Hend.
  cbn [add_call set_childNodes fresh _buffer buffered childNodes
       _currentElement destroyed dom].
  split.
  - intros ->. cbn. eauto.
  - intros earlier lastOverlay ->. rewrite last_overlay_app.
    eexists. split; [reflexivity|]. cbn. now repeat split.
Qed.

Lemma step_aborted_state (s : OverlayTrackSourceBuffer) (i : Input) :
  aborted_state s -> aborted_state (step s i).
Proof.
  intros [Hd Hc]. destruct i as [d t | data | a b | ]; cbn [step].
  - unfold clock. rewrite Hd. now split.
  - unfold _append.
    destruct (rejected data); [now split|].
    destruct (match match seg_end data with
                    | Some _ => _
                    | None => _
                    end with
              | Some _ => _
              | None => _
              end); now split.
  - now split.
  - unfold _abort, safelyRemoveChild. cbn.
    rewrite Hc. destruct (_currentElement s); cbn; now split.
Qed.

Lemma run_aborted_state (inputs : list Input) :
  forall s, aborted_state s -> aborted_state (run inputs s).
Proof.
  induction inputs as [|i inputs IH]; intros s H; [exact H|].
  apply IH. now apply step_aborted_state.
Qed.

(** X3.  After [_abort], whatever reaches the source buffer (clock
    emissions, appends, removals, another abort), no element is attached to
    the host element again. *)
Theorem nothing_attached_after_abort (s : OverlayTrackSourceBuffer)
  (inputs : list Input) :
  s.(childNodes) = attached s ->
  (run inputs (_abort s)).(childNodes) = []
  /\ (run inputs (_abort s)).(destroyed) = true.
Proof.
  intros H.
  assert (Ha : aborted_state (_abort s)).
  { destruct (@_abort_detaches I s (or_introl H)) as [Hc Hd]. now split. }
  destruct (run_aborted_state inputs Ha) as [Hd Hc]. now split.
Qed.

Lemma onClock_buffer (d : bool) (t : number) (s : OverlayTrackSourceBuffer) :
  (onClock d t s).(_buffer) = s.(_buffer)
  /\ (onClock d t s).(destroyed) = s.(destroyed).
Proof.
  unfold onClock, safelyRemoveChild.
  destruct d; cbn [negb].
  - destruct (bm_get (_buffer s) (lookup_time t)) as [o|].
    + destruct (same_element (_currentElement s) (cue_data o)); [now split|].
      destruct (_currentElement s) as [c|]; [|now split].
      destruct (is_child c (childNodes s)); now split.
    + destruct (_currentElement s) as [c|]; [|now split].
      destruct (is_child c (childNodes s)); now split.
  - destruct (_currentElement s) as [c|]; [|now split].
    destruct (is_child c (childNodes s)); now split.
Qed.

Lemma onClock_removed_again (s : OverlayTrackSourceBuffer) :
  s.(_currentElement) = None ->
  set_currentElement None (safelyRemoveChild s.(_currentElement) s) = s.
Proof.
  intros H. rewrite H. cbn. destruct s. cbn in *. now subst.
Qed.

Lemma onClock_current (t : number) (s : OverlayTrackSourceBuffer) :
  (onClock true t s).(_currentElement)
  = match bm_get s.(_buffer) (lookup_time t) with
    | Some overlay => Some overlay.(cue_data)
    | None => None
    end
  /\ forall d, (onClock false d s).(_currentElement) = None.
Proof.
  unfold onClock. cbn [negb]. split; [|reflexivity].
  destruct (bm_get (_buffer s) (lookup_time t)) as [o|]; [|reflexivity].
  destruct (same_element (_currentElement s) (cue_data o)) eqn:Hs;
    [|reflexivity].
  unfold same_element in Hs. destruct (_currentElement s) as [c|];
    [|discriminate].
  apply Nat.eqb_eq in Hs. now subst.
Qed.

(** X4.  A second clock emission for the same time, the buffer being the
    same, changes nothing and makes no call on the host element. *)
Theorem clock_twice (shouldDisplay : bool) (currentTime : number)
  (s : OverlayTrackSourceBuffer) :
  clock shouldDisplay currentTime (clock shouldDisplay currentTime s)
  = clock shouldDisplay currentTime s.
Proof.
  unfold clock at 2 3.
  destruct (destroyed s) eqn:Hd; [unfold clock; now rewrite Hd|].
  destruct (onClock_buffer shouldDisplay currentTime s) as [Hb Hdes].
  destruct (onClock_current currentTime s) as [Hshow Hhide].
  unfold clock. rewrite Hdes, Hd.
  destruct shouldDisplay.
  - unfold onClock at 1. cbn [negb]. rewrite Hb.
    destruct (bm_get (_buffer s) (lookup_time currentTime)) as [o|] eqn:Hg.
    + rewrite Hshow. unfold same_element. now rewrite Nat.eqb_refl.
    + now apply onClock_removed_again.
  - unfold onClock at 1. cbn [negb]. apply onClock_removed_again.
    apply Hhide.
Qed.

End OverlayMore.

(* ------------------------------------------------------------------ *)
(** ** Overlay source buffer: the clock *)

Section SwitchMapNexts.
Local Open Scope nat_scope.
Variables E A B : Type.

Lemma switch_inner_nexts (project : nat -> A -> Rx.Observable E B)
  (l : list (nat * A)) :
  forall o, In o (Rx.switch_inner project l) ->
  exists t a, In (t, a) l
    /\ forall x, In x o.(Rx.nexts) -> In x (project t a).(Rx.nexts).
Proof.
  induction l as [|[t a] l IH]; intros o H; [contradiction|].
  cbn [Rx.switch_inner] in H. destruct l as [|[t' a'] l'].
  - destruct H as [<- | []]. exists t, a. split; [now left | auto].
  - destruct H as [<- | H].
    + exists t, a. split; [now left|]. cbn. intros x Hx.
      now apply In_before in Hx.
    + destruct (IH _ H) as (t1 & a1 & Hin & Hsub).
      exists t1, a1. split; [now right | exact Hsub].
Qed.

(** A notification of [o.switchMap(project)] is one of the inner
    observable of a notification of [o]. *)
Lemma In_nexts_switchMap (project : nat -> A -> Rx.Observable E B)
  (o : Rx.Observable E A) (x : nat * B) :
  In x (Rx.switchMap project o).(Rx.nexts) ->
  exists t a, In (t, a) o.(Rx.nexts) /\ In x (project t a).(Rx.nexts).
Proof.
  cbn. intros H. apply In_stop_at_error in H.
  apply in_concat in H as (l & Hl & Hx).
  apply in_map_iff in Hl as (inner & <- & Hinner).
  destruct (switch_inner_nexts _ _ _ Hinner) as (t & a & Hin & Hsub).
  exists t, a. split; [exact Hin | now apply Hsub].
Qed.

End SwitchMapNexts.

Section GenerateClock.
Import OverlayClockSource.
Local Open Scope nat_scope.

Variable interval : nat.
Variable periods : nat.

Lemma every_ge (n : nat) :
  forall r t u, In (t, u) (every interval n r) -> r <= t.
Proof.
  induction n as [|n IH]; intros r t u H; [contradiction|].
  cbn in H. destruct H as [[= <- _] | H]; [lia|].
  apply IH in H. lia.
Qed.

Lemma In_after {X} (t : nat) (l : list (nat * X)) (x : nat * X) :
  In x (Rx.after t l) <-> In x l /\ t < fst x.
Proof.
  unfold Rx.after. rewrite filter_In. now rewrite Nat.ltb_lt.
Qed.

(** What the observable given to [switchMapTo] emits when subscribed at
    [r]: [true] no earlier than [r] and before any [seeking] event that
    follows [r], or [false] at a [seeking] event that follows [r]. *)
Lemma refreshing_nexts (seeking : Events) (r t : nat) (b : bool) :
  Rx.ordered seeking.(Rx.nexts) = true ->
  In (t, b) (refreshing interval periods seeking r).(Rx.nexts) ->
  (b = true /\ r <= t
   /\ forall s x, In (s, x) seeking.(Rx.nexts) -> r < s -> t < s)
  \/ (b = false /\ r < t /\ exists x, In (t, x) seeking.(Rx.nexts)).
Proof.
  intros Hord H. unfold refreshing, Rx.concat, Rx.takeUntil in H.
  cbn [Rx.subscribed_at Rx.nexts] in H.
  assert (Htrue : forall t b,
            In (t, b) (Rx.map (E:=Empty_set) (fun _ : unit => true)
                         (autoRefresh interval periods r)).(Rx.nexts) ->
            b = true /\ r <= t).
  { intros t1 b1 H1. cbn [Rx.map Rx.nexts autoRefresh] in H1.
    apply in_map_iff in H1 as ([t2 u] & [= <- <-] & H1).
    split; [reflexivity|]. now apply every_ge in H1. }
  destruct (Rx.after r (Rx.nexts seeking)) as [|[tc xc] rest] eqn:Ha.
  - cbn [Rx.ending Rx.map autoRefresh] in H. left.
    destruct (Htrue _ _ H) as [-> Hr]. split; [reflexivity|].
    split; [exact Hr|]. intros s x Hs Hlt.
    assert (Hin : In (s, x) (Rx.after r (Rx.nexts seeking)))
      by (apply In_after; now split).
    rewrite Ha in Hin. contradiction.
  - assert (Hc : In (tc, xc) (Rx.after r (Rx.nexts seeking)))
      by (rewrite Ha; now left).
    apply In_after in Hc as [Hc1 Hc2]. cbn in Hc2.
    cbn [Rx.ending Rx.map autoRefresh Rx.ending_before Rx.nexts Rx.of_] in H.
    apply in_app_or in H as [H | H].
    + left. apply In_before in H as [H Hlt]. cbn in Hlt.
      destruct (Htrue _ _ H) as [-> Hr]. split; [reflexivity|].
      split; [exact Hr|]. intros s x Hs Hrs.
      assert (Hin : In (s, x) (Rx.after r (Rx.nexts seeking)))
        by (apply In_after; now split).
      assert (Hle : fst (tc, xc) <= fst (s, x)).
      { eapply ordered_head_le; [| exact Ha | exact Hin].
        unfold Rx.ordered, Rx.after. now apply ordered_from_filter. }
      cbn in Hle. lia.
    + right. destruct H as [[= <- <-] | []].
      split; [reflexivity|]. split; [exact Hc2|]. now exists xc.
Qed.

(** The instants at which the clock is refreshed: its subscription, and
    the [seeked] and [ended] events that follow. *)
Lemma startWith_at_nexts (seeked ended : Events) (t0 r : nat) (u : unit) :
  In (r, u) (startWith_at t0 (Rx.merge seeked ended)).(Rx.nexts) ->
  r = t0
  \/ (t0 < r /\ (In (r, u) seeked.(Rx.nexts) \/ In (r, u) ended.(Rx.nexts))).
Proof.
  cbn [startWith_at Rx.nexts Rx.subscribed_at]. intros [[= <- _] | H];
    [now left | right].
  apply In_after in H as [H Hlt]. split; [exact Hlt|].
  now apply In_nexts_merge in H.
Qed.

(** X5.  The clock of the overlay source buffer emits [false] only at the
    instant of a [seeking] event of the element, and [true] only at or after
    a refresh (its subscription, or a [seeked] or [ended] event) that no
    [seeking] event has followed yet. *)
Theorem generateClock_emissions (seeking seeked ended : Events)
  (t0 t : nat) (shouldDisplay : bool) :
  Rx.ordered seeking.(Rx.nexts) = true ->
  In (t, shouldDisplay)
    (generateClock interval periods seeking seeked ended t0).(Rx.nexts) ->
  if shouldDisplay then
    exists r,
      (r = t0
       \/ (t0 < r /\ (In (r, tt) seeked.(Rx.nexts)
                      \/ In (r, tt) ended.(Rx.nexts))))
      /\ r <= t
      /\ forall s x, In (s, x) seeking.(Rx.nexts) -> r < s -> t < s
  else
    t0 < t /\ exists x, In (t, x) seeking.(Rx.nexts).
Proof.
  intros Hord H. unfold generateClock in H.
  apply In_nexts_switchMap in H as (r & u & Hr & H).
  destruct u. apply startWith_at_nexts in Hr.
  apply refreshing_nexts in H as [(-> & Hle & Hs) | (-> & Hlt & Hx)];
    [| | exact Hord].
  - exists r. split; [exact Hr|]. split; [exact Hle | exact Hs].
  - split; [|exact Hx]. destruct Hr as [-> | [Hr _]]; lia.
Qed.

End GenerateClock.

Section GenerateClockFacts.
Import OverlayClockSource ClockExamples.

Lemma clock_with_a_seek_nexts :
  clock_with_a_seek.(Rx.nexts)
  = [(0, true); (2, true); (4, true); (5, false);
     (8, true); (10, true); (12, true); (14, true)].
Proof. reflexivity. Qed.

Lemma generateClock_emissions_witness :
  Rx.ordered (events [5]).(Rx.nexts) = true
  /\ In (5, false) clock_with_a_seek.(Rx.nexts)
  /\ (0 < 5 /\ exists x, In (5, x) (events [5]).(Rx.nexts)).
Proof.
  assert (H : In (5, false) clock_with_a_seek.(Rx.nexts)).
  { rewrite clock_with_a_seek_nexts. cbn. tauto. }
  split; [reflexivity|]. split; [exact H|].
  exact (generateClock_emissions 2 3 (events [5]) (events [8]) (events [])
           0 5 false eq_refl H).
Defined.

End GenerateClockFacts.

(* ------------------------------------------------------------------ *)
(** ** Reset of the media element, further *)

Section ResetMore.
Import Js Errors MediaSource.

(** X6.  Resetting the media element a second time changes nothing but for
    clearing the [src] again: no source buffer is aborted or removed and no
    URL is revoked. *)
Theorem resetMediaElement_twice (s : State) :
  resetMediaElement (resetMediaElement s)
  = call clearVideoSrc_call (resetMediaElement s).
Proof.
  rewrite (resetMediaElement_eq (resetMediaElement s)).
  rewrite (resetMediaElement_eq s). cbn.
  unfold call. cbn. reflexivity.
Qed.

Lemma filter_absent (sb : SourceBuffer) (l : list SourceBuffer) :
  ~ In sb l -> filter (fun x => negb (Nat.eqb sb x)) l = l.
Proof.
  induction l as [|y l IH]; intros H; [reflexivity|].
  cbn. destruct (Nat.eqb_spec sb y) as [-> | Hne].
  - exfalso. apply H. now left.
  - cbn. rewrite IH; [reflexivity|]. intros Hin. apply H. now right.
Qed.

Lemma filter_middle (sb : SourceBuffer) (pre rest : list SourceBuffer) :
  NoDup (pre ++ sb :: rest) ->
  filter (fun x => negb (Nat.eqb sb x)) (pre ++ sb :: rest) = pre ++ rest.
Proof.
  intros H. apply NoDup_remove in H as [_ Hnot].
  rewrite filter_app. cbn. rewrite Nat.eqb_refl. cbn.
  rewrite !filter_absent; [reflexivity | |];
    intros Hin; apply Hnot; apply in_or_app; auto.
Qed.

(** The loop over the live list visits one source buffer out of two. *)
Lemma visits_evens (rest : list SourceBuffer) :
  forall pre n,
    NoDup (pre ++ rest) -> List.length rest <= n ->
    visits n (List.length pre) (pre ++ rest) = evens rest.
Proof.
  induction rest as [rest IH] using (induction_ltof1 _ (@List.length _)).
  unfold ltof in IH. intros pre n Hnd Hn.
  destruct rest as [|x [|y rest]].
  - destruct n; [reflexivity|]. cbn [visits].
    rewrite app_nil_r.
    now rewrite (proj2 (nth_error_None pre (List.length pre)) (le_n _)).
  - destruct n as [|n]; [cbn in Hn; lia|]. cbn [visits evens].
    rewrite nth_error_app2, Nat.sub_diag by lia. cbn [nth_error].
    rewrite filter_middle by exact Hnd. rewrite app_nil_r.
    destruct n; [reflexivity|]. cbn [visits].
    now rewrite (proj2 (nth_error_None pre (S (List.length pre)))
                   (Nat.le_succ_diag_r _)).
  - destruct n as [|n]; [cbn in Hn; lia|]. cbn [visits evens].
    rewrite nth_error_app2, Nat.sub_diag by lia. cbn [nth_error].
    rewrite filter_middle by exact Hnd. f_equal.
    replace (pre ++ y :: rest) with ((pre ++ [y]) ++ rest)
      by (now rewrite <- app_assoc).
    replace (S (List.length pre)) with (List.length (pre ++ [y]))
      by (rewrite length_app; cbn; lia).
    apply IH.
    + cbn. lia.
    + rewrite <- app_assoc. cbn.
      apply NoDup_remove_1 with (a := x). exact Hnd.
    + cbn in Hn. lia.
Qed.

Lemma removed_app (a b : list Call) : removed (a ++ b) = removed a ++ removed b.
Proof. unfold removed. apply flat_map_app. Qed.

Lemma aborted_app (a b : list Call) : aborted (a ++ b) = aborted a ++ aborted b.
Proof. unfold aborted. apply flat_map_app. Qed.

Lemma removed_disposals (rs : ReadyState) (l : list SourceBuffer) :
  removed (flat_map (disposal rs) l) = l.
Proof.
  induction l as [|sb l IH]; [reflexivity|].
  cbn [flat_map]. rewrite removed_app, IH.
  unfold disposal. destruct (ReadyState_eqb rs open); reflexivity.
Qed.

Lemma aborted_disposals (rs : ReadyState) (l : list SourceBuffer) :
  aborted (flat_map (disposal rs) l) = [].
Proof.
  induction l as [|sb l IH]; [reflexivity|].
  cbn [flat_map]. rewrite aborted_app, IH.
  unfold disposal. destruct (ReadyState_eqb rs open); reflexivity.
Qed.

Lemma removed_customCalls (ks : list string) :
  forall o, removed (customCalls ks o) = [].
Proof.
  induction ks as [|k ks IH]; intros o; [reflexivity|].
  cbn [customCalls]. rewrite removed_app, IH.
  destruct (get o k) as [sb|]; [destruct (abort_throws sb)|]; reflexivity.
Qed.

Lemma delete_head (k : string) (v : CustomSourceBuffer)
  (o : object CustomSourceBuffer) :
  ~ In k (keys o) -> delete ((k, v) :: o) k = o.
Proof.
  intros H. unfold delete. cbn. rewrite String.eqb_refl. cbn.
  induction o as [|[k' v'] o IH]; [reflexivity|].
  cbn. destruct (String.eqb_spec k k') as [-> | Hne].
  - exfalso. apply H. now left.
  - cbn. f_equal. apply IH. intros Hin. apply H. now right.
Qed.

Lemma aborted_customCalls (o : object CustomSourceBuffer) :
  NoDup (keys o) -> aborted (customCalls (keys o) o) = o.
Proof.
  induction o as [|[k v] o IH]; intros Hnd; [reflexivity|].
  cbn [keys List.map fst customCalls get]. rewrite String.eqb_refl.
  inversion Hnd as [|? ? Hnot Hnd']; subst.
  rewrite aborted_app, delete_head by exact Hnot.
  fold (keys o). rewrite IH by exact Hnd'.
  destruct (abort_throws v); reflexivity.
Qed.


(** X8.  [resetMediaElement] calls [abort] on each custom source buffer of
    the memory once, in the order of the keys, whether or not an [abort]
    throws. *)
Theorem resetMediaElement_aborts_each_custom_once (s : State) :
  NoDup (keys s.(customBuffers)) ->
  aborted (resetMediaElement s).(calls)
  = aborted s.(calls) ++ s.(customBuffers).
Proof.
  intros Hnd. rewrite resetMediaElement_eq. cbn [calls].
  rewrite !aborted_app, aborted_customCalls by exact Hnd.
  replace (aborted (nativeCalls s)) with (@nil (string * CustomSourceBuffer)).
  - replace (aborted (revokeCalls (objectURL s)))
      with (@nil (string * CustomSourceBuffer))
      by (destruct (objectURL s); reflexivity).
    cbn. now rewrite app_nil_r.
  - unfold nativeCalls. destruct (mediaSource s) as [m|]; [|reflexivity].
    destruct (negb (ReadyState_eqb (readyState m) closed)); [|reflexivity].
    now rewrite aborted_disposals.
Qed.

(** X9.  Opening and then tearing down: the subscription attaches to the
    element the URL it keeps (a new object URL with a media source, the
    content URL without); whatever the media source and the memories have
    become since, the teardown ends by clearing the [src] and revoking that
    URL, and leaves the memories empty. *)
Theorem createMediaSource_then_teardown (url : string) (video : Element)
  (withMediaSource : bool) (m : option MediaSource.MediaSource)
  (native : object SourceBuffer) (custom : object CustomSourceBuffer)
  (cs : list Call) :
  let opened := createMediaSource url video withMediaSource true in
  let s := fst opened in
  let s' := unsubscribe (later_on m native custom cs s) in
  s.(video_src) = s.(objectURL)
  /\ s.(video_src)
     = (if withMediaSource then Some (ObjectUrl video.(el_next_url))
        else url_of_string url)
  /\ (exists o, snd opened = inr o /\ o.(opened_url) = url
        /\ (o.(opened_mediaSource) = None <-> withMediaSource = false))
  /\ s'.(video_src) = None
  /\ s'.(nativeBuffers) = [] /\ s'.(customBuffers) = []
  /\ forall u, s.(video_src) = Some u ->
       exists before,
         s'.(calls)
         = before ++ [clearVideoSrc_call; log_debug "revoking previous URL";
                      revokeObjectURL u].
Proof.
  cbv zeta. unfold unsubscribe. rewrite resetMediaElement_eq.
  unfold createMediaSource. rewrite resetMediaElement_eq.
  destruct withMediaSource; cbn.
  - split; [reflexivity|]. split; [reflexivity|].
    split; [eexists; split; [reflexivity|]; split; [reflexivity|];
            split; discriminate|].
    repeat (split; [reflexivity|]).
    intros u [= <-]. eexists. rewrite !app_assoc. reflexivity.
  - split; [reflexivity|]. split; [reflexivity|].
    split; [eexists; split; [reflexivity|]; split; [reflexivity|];
            split; reflexivity|].
    repeat (split; [reflexivity|]).
    intros u ->. eexists. rewrite !app_assoc. reflexivity.
Qed.

End ResetMore.

(* ------------------------------------------------------------------ *)
(** ** Segment bookkeepers *)

Section Bookkeepers.
Import Js StreamCore StreamSetup.

Lemma get_None_keys {V} (o : object V) (k : string) :
  get o k = None <-> ~ In k (keys o).
Proof.
  induction o as [|[k0 v0] o IH]; cbn; [tauto|].
  destruct (String.eqb_spec k k0) as [-> | Hne].
  - split; [discriminate | intros H; exfalso; apply H; now left].
  - rewrite IH. split; [intros H [Heq | Hin]; [congruence | auto] | tauto].
Qed.

Lemma set_absent {V} (o : object V) (k : string) (v : V) :
  get o k = None -> set o k v = o ++ [(k, v)].
Proof.
  induction o as [|[k0 v0] o IH]; cbn; [reflexivity|].
  destruct (String.eqb k k0); [discriminate|].
  intros H. now rewrite IH.
Qed.

Lemma get_app_last {V} (o : object V) (k k' : string) (v : V) :
  get (o ++ [(k, v)]) k'
  = match get o k' with
    | Some b => Some b
    | None => if String.eqb k' k then Some v else None
    end.
Proof.
  induction o as [|[k0 v0] o IH]; cbn; [reflexivity|].
  destruct (String.eqb k' k0); [reflexivity | exact IH].
Qed.

Lemma getSegmentBookkeeper_kept (first : nat) (bufferType : string)
  (h : Bookkeepers) :
  well_kept first h ->
  let (b, h') := getSegmentBookkeeper bufferType h in
  well_kept first h'
  /\ get h'.(segmentBookkeepers) bufferType = Some b
  /\ (forall k x, get h.(segmentBookkeepers) k = Some x ->
        get h'.(segmentBookkeepers) k = Some x)
  /\ (forall k, In k (keys h'.(segmentBookkeepers)) <->
        In k (keys h.(segmentBookkeepers)) \/ k = bufferType).
Proof.
  intros (Hnd & Hnext & Hlt & Hinj). unfold getSegmentBookkeeper.
  destruct (get (segmentBookkeepers h) bufferType) as [b|] eqn:Hget.
  - split; [now repeat split|]. split; [exact Hget|]. split; [auto|].
    intros k. split; [auto|]. intros [H | ->]; [exact H|].
    now apply get_Some_keys in Hget.
  - rewrite set_absent by exact Hget.
    cbn [segmentBookkeepers next_bookkeeper].
    assert (Hnot : ~ In bufferType (keys (segmentBookkeepers h)))
      by (now apply get_None_keys).
    split; [repeat split|split; [|split]];
      cbn [segmentBookkeepers next_bookkeeper].
    + unfold keys. rewrite map_app. cbn.
      apply NoDup_app; [exact Hnd | repeat constructor; auto |].
      intros k Hk [<- | []]. contradiction.
    + rewrite length_app. cbn. lia.
    + intros k b. rewrite get_app_last.
      destruct (get (segmentBookkeepers h) k) as [x|] eqn:Hk.
      * intros [= <-]. apply Hlt in Hk. lia.
      * destruct (String.eqb k bufferType); [|discriminate].
        intros [= <-]. lia.
    + intros k k' b. rewrite !get_app_last.
      destruct (get (segmentBookkeepers h) k) as [x|] eqn:Hk;
        destruct (get (segmentBookkeepers h) k') as [x'|] eqn:Hk'.
      * intros [= <-] [= <-]. eapply Hinj; eauto.
      * intros [= <-]. destruct (String.eqb k' bufferType); [|discriminate].
        intros [= Heq]. apply Hlt in Hk. lia.
      * destruct (String.eqb k bufferType); [|discriminate].
        intros [= <-] [= Heq]. apply Hlt in Hk'. lia.
      * destruct (String.eqb_spec k bufferType) as [-> |]; [|discriminate].
        destruct (String.eqb_spec k' bufferType) as [-> |]; [|discriminate].
        reflexivity.
    + rewrite get_app_last, Hget. now rewrite String.eqb_refl.
    + intros k x Hk. rewrite get_app_last. now rewrite Hk.
    + intros k. unfold keys. rewrite map_app, in_app_iff. cbn.
      intuition congruence.
Qed.

Lemma getSegmentBookkeepers_kept (first : nat) (bufferTypes : list string) :
  forall h,
    well_kept first h ->
    let (bs, h') := getSegmentBookkeepers bufferTypes h in
    well_kept first h'
    /\ Forall2 (fun t b => get h'.(segmentBookkeepers) t = Some b)
         bufferTypes bs
    /\ (forall k x, get h.(segmentBookkeepers) k = Some x ->
          get h'.(segmentBookkeepers) k = Some x)
    /\ (forall k, In k (keys h'.(segmentBookkeepers)) <->
          In k (keys h.(segmentBookkeepers)) \/ In k bufferTypes).
Proof.
  induction bufferTypes as [|t rest IH]; intros h Hk; cbn.
  - split; [exact Hk|]. split; [constructor|]. split; [auto|].
    intros k. tauto.
  - pose proof (getSegmentBookkeeper_kept t Hk) as H1.
    destruct (getSegmentBookkeeper t h) as [b h1].
    destruct H1 as (Hk1 & Hb & Hmono1 & Hkeys1).
    specialize (IH h1 Hk1).
    destruct (getSegmentBookkeepers rest h1) as [bs h2].
    destruct IH as (Hk2 & Hall & Hmono2 & Hkeys2).
    split; [exact Hk2|]. split; [constructor; auto|]. split; [auto|].
    intros k. rewrite Hkeys2, Hkeys1. cbn. intuition congruence.
Qed.

Lemma Forall2_nth {X Y} (R : X -> Y -> Prop) (l : list X) (l' : list Y) :
  Forall2 R l l' ->
  forall i x y, nth_error l i = Some x -> nth_error l' i = Some y -> R x y.
Proof.
  induction 1 as [|a b l l' Hab _ IH]; intros i x y Hx Hy.
  - destruct i; discriminate.
  - destruct i as [|i]; cbn in *; [congruence | eauto].
Qed.

(** X10.  Whatever the calls made to [getSegmentBookkeeper], two calls
    return the same bookkeeper exactly when they are made for the same type
    of buffer, and one bookkeeper has been created for each distinct type
    asked for. *)
Theorem getSegmentBookkeeper_one_per_type (first : nat)
  (bufferTypes : list SupportedBufferTypes) :
  let (bs, h) :=
    getSegmentBookkeepers bufferTypes
      (initializeSegmentBookkeepersHandler first) in
  List.length bs = List.length bufferTypes
  /\ (forall i j ti tj bi bj,
        nth_error bufferTypes i = Some ti -> nth_error bs i = Some bi ->
        nth_error bufferTypes j = Some tj -> nth_error bs j = Some bj ->
        (bi = bj <-> ti = tj))
  /\ h.(next_bookkeeper)
     = first + List.length (nodup string_dec bufferTypes).
Proof.
  assert (H0 : well_kept first (initializeSegmentBookkeepersHandler first)).
  { repeat split; cbn; try constructor; try lia; discriminate. }
  pose proof (getSegmentBookkeepers_kept bufferTypes H0) as H.
  destruct (getSegmentBookkeepers bufferTypes _) as [bs h].
  destruct H as ((Hnd & Hnext & _ & Hinj) & Hall & _ & Hkeys).
  split; [symmetry; eapply Forall2_length; eauto|]. split.
  - intros i j ti tj bi bj Hti Hbi Htj Hbj.
    pose proof (Forall2_nth Hall _ Hti Hbi) as Hi.
    pose proof (Forall2_nth Hall _ Htj Hbj) as Hj. cbn in Hi, Hj.
    split; [intros <-; eapply Hinj; eauto | intros <-; congruence].
  - rewrite Hnext. f_equal.
    replace (List.length (segmentBookkeepers h))
      with (List.length (keys (segmentBookkeepers h)))
      by (unfold keys; apply length_map).
    apply Permutation_length. apply NoDup_Permutation;
      [exact Hnd | apply NoDup_nodup |].
    intros k. rewrite nodup_In, Hkeys. cbn. tauto.
Qed.

End Bookkeepers.

(* ------------------------------------------------------------------ *)
(** ** Native source buffers and errors of the setup *)

Section Setup.
Import Js Errors StreamCore StreamSetup.

Variable shouldHaveNativeSourceBuffer : string -> bool.
Variable firstPeriod : option Period.

Lemma addNativeSourceBufferFor_cases (bufferType : string) :
  (native_without_adaptation shouldHaveNativeSourceBuffer firstPeriod
     bufferType = true
   /\ exists msg,
        addNativeSourceBufferFor shouldHaveNativeSourceBuffer firstPeriod
          bufferType = inl (PlainError msg))
  \/ (native_without_adaptation shouldHaveNativeSourceBuffer firstPeriod
        bufferType = false
      /\ addNativeSourceBufferFor shouldHaveNativeSourceBuffer firstPeriod
           bufferType
         = inr (if shouldHaveNativeSourceBuffer bufferType
                then match native_codec firstPeriod bufferType with
                     | Some codec => [{| added_type := bufferType;
                                         added_codec := codec |}]
                     | None => []
                     end
                else [])).
Proof.
  unfold native_without_adaptation, addNativeSourceBufferFor, native_codec.
  destruct (shouldHaveNativeSourceBuffer bufferType); [|now right].
  destruct (first_period_adaptations firstPeriod bufferType) as [|a l];
    cbn [andb].
  - left. split; [reflexivity|]. eauto.
  - right. split; [reflexivity|]. now destruct (representations a).
Qed.

Lemma addNativeSourceBuffers_throws (types : list string) (e : error) :
  addNativeSourceBuffers shouldHaveNativeSourceBuffer firstPeriod types
  = inl e ->
  (exists msg, e = PlainError msg)
  /\ exists bufferType,
       In bufferType types
       /\ shouldHaveNativeSourceBuffer bufferType = true
       /\ first_period_adaptations firstPeriod bufferType = [].
Proof.
  induction types as [|t rest IH]; cbn [addNativeSourceBuffers];
    [discriminate|].
  destruct (addNativeSourceBufferFor_cases t)
    as [(Hw & msg & ->) | (_ & ->)].
  - intros [= <-]. split; [eauto|]. exists t. split; [now left|].
    unfold native_without_adaptation in Hw.
    apply andb_true_iff in Hw as [Hs Ha]. split; [exact Hs|].
    now destruct (first_period_adaptations firstPeriod t).
  - destruct (addNativeSourceBuffers shouldHaveNativeSourceBuffer
                firstPeriod rest) as [e'|more]; [|discriminate].
    intros [= <-]. destruct (IH eq_refl) as (He & t' & Hin & Hs & Ha).
    split; [exact He|]. exists t'. split; [now right | now split].
Qed.

(** X11.  The initialisation of the native source buffers of
    [createStream] throws, a [TypeError], exactly when a type of the
    manifest that should have a native source buffer has no adaptation in
    the first period (or there is no period); otherwise it adds, in the
    order of the types, one native source buffer for each such type whose
    first adaptation has a representation, with the codec of the first
    representation of that adaptation, and none for any other type. *)
Theorem addNativeSourceBuffers_result (types : list string) :
  match addNativeSourceBuffers shouldHaveNativeSourceBuffer firstPeriod
          types with
  | inl e =>
      (exists msg, e = PlainError msg)
      /\ exists bufferType,
           In bufferType types
           /\ shouldHaveNativeSourceBuffer bufferType = true
           /\ first_period_adaptations firstPeriod bufferType = []
  | inr added =>
      (forall bufferType,
         In bufferType types ->
         shouldHaveNativeSourceBuffer bufferType = true ->
         first_period_adaptations firstPeriod bufferType <> [])
      /\ added
         = flat_map
             (fun bufferType =>
                if shouldHaveNativeSourceBuffer bufferType
                then match native_codec firstPeriod bufferType with
                     | Some codec => [{| added_type := bufferType;
                                         added_codec := codec |}]
                     | None => []
                     end
                else [])
             types
  end.
Proof.
  induction types as [|t rest IH]; cbn [addNativeSourceBuffers].
  - split; [intros ? []|reflexivity].
  - destruct (addNativeSourceBufferFor_cases t)
      as [(Hw & msg & ->) | (Hw & ->)].
    + split; [eauto|]. exists t. split; [now left|].
      unfold native_without_adaptation in Hw.
      apply andb_true_iff in Hw as [Hs Ha]. split; [exact Hs|].
      now destruct (first_period_adaptations firstPeriod t).
    + destruct (addNativeSourceBuffers shouldHaveNativeSourceBuffer
                  firstPeriod rest) as [e|more].
      * destruct IH as (He & t' & Hin & Hs & Ha). split; [exact He|].
        exists t'. split; [now right | now split].
      * destruct IH as (Hall & ->). split; [|reflexivity].
        intros t' [Heq | Hin] Hs; [subst t'|now apply Hall].
        unfold native_without_adaptation in Hw. rewrite Hs in Hw.
        destruct (first_period_adaptations firstPeriod t);
          discriminate.
Qed.

End Setup.

Section SetupErrors.
Import Js Errors StreamCore StreamSetup.

Variable set_duration :
  MediaSource.MediaSource -> number -> error + MediaSource.MediaSource.
Variable addNativeSourceBuffer :
  MediaSource.MediaSource -> string -> string
  -> error + MediaSource.MediaSource.
Variable getInitialTime : Manifest -> error + number.
Variable shouldHaveNativeSourceBuffer : string -> bool.

Lemma callAddNativeSourceBuffer_throws (calls : list NativeSourceBufferAdded) :
  forall mediaSource e,
    callAddNativeSourceBuffer addNativeSourceBuffer calls mediaSource = inl e ->
    exists mediaSource' bufferType codec,
      addNativeSourceBuffer mediaSource' bufferType codec = inl e.
Proof.
  induction calls as [|c rest IH]; intros ms e H; [discriminate|].
  cbn [callAddNativeSourceBuffer] in H.
  destruct (addNativeSourceBuffer ms (added_type c) (added_codec c))
    as [e'|ms'] eqn:Hc.
  - injection H as <-. eauto.
  - eapply IH; eauto.
Qed.

Lemma initNativeSourceBuffers_throws (firstPeriod : option Period)
  (types : list string) :
  forall mediaSource e,
    initNativeSourceBuffers addNativeSourceBuffer
      shouldHaveNativeSourceBuffer firstPeriod types mediaSource = inl e ->
    ((exists msg, e = PlainError msg)
     /\ exists bufferType,
          In bufferType types
          /\ shouldHaveNativeSourceBuffer bufferType = true
          /\ first_period_adaptations firstPeriod bufferType = [])
    \/ (exists mediaSource' bufferType codec,
          addNativeSourceBuffer mediaSource' bufferType codec = inl e).
Proof.
  induction types as [|t rest IH]; intros ms e H; [discriminate|].
  cbn [initNativeSourceBuffers] in H.
  destruct (addNativeSourceBufferFor_cases shouldHaveNativeSourceBuffer
              firstPeriod t) as [(Hw & msg & Hfor) | (_ & Hfor)];
    rewrite Hfor in H.
  - injection H as <-. left. split; [eauto|]. exists t. split; [now left|].
    unfold native_without_adaptation in Hw.
    apply andb_true_iff in Hw as [Hs Ha]. split; [exact Hs|].
    now destruct (first_period_adaptations firstPeriod t).
  - destruct (callAddNativeSourceBuffer addNativeSourceBuffer _ ms)
      as [e'|ms'] eqn:Hcall.
    + injection H as <-. right.
      eapply callAddNativeSourceBuffer_throws; eauto.
    + destruct (initNativeSourceBuffers addNativeSourceBuffer
                  shouldHaveNativeSourceBuffer firstPeriod rest ms')
        as [e'|[ms'' more]] eqn:Hrest; [|discriminate].
      injection H as <-.
      destruct (IH _ _ Hrest) as [(He & t' & Hin & Hs & Ha) | Hadd].
      * left. split; [exact He|]. exists t'.
        split; [now right | now split].
      * now right.
Qed.

(** X12.  The errors of the setup of [createStream] and the retry
    options.  An error of the setup is thrown by one of the three calls it
    makes (the setter of the duration, [addNativeSourceBuffer],
    [getInitialTime]) or is one of the three the setup throws itself: the
    media source missing and the starting time found in no period are
    [MediaError]s that are fatal, which [shouldRetry] refuses and
    [errorSelector] returns as they are; the third is the [TypeError] of
    the loop over the types, for a type that should have a native source
    buffer and has no adaptation in the first period, which [shouldRetry]
    accepts and [errorSelector] wraps in a fatal [OtherError]. *)
Theorem createStream_setup_errors
  (mediaSource : option MediaSource.MediaSource) (manifest : Manifest)
  (manifest_adaptations : list string) (e : error) :
  createStream_setup set_duration addNativeSourceBuffer getInitialTime
    shouldHaveNativeSourceBuffer mediaSource manifest manifest_adaptations
  = inl e ->
  (mediaSource = None
   /\ e = MediaError "UNAVAILABLE_MEDIA_SOURCE" None true
   /\ retryOptions.(shouldRetry) e = false
   /\ retryOptions.(errorSelector) e = e)
  \/ (exists startTime,
        getInitialTime manifest = inr startTime
        /\ manifest.(getPeriodForTime) startTime = None
        /\ e = MediaError "MEDIA_STARTING_TIME_NOT_FOUND" None true
        /\ retryOptions.(shouldRetry) e = false
        /\ retryOptions.(errorSelector) e = e)
  \/ ((exists bufferType,
         In bufferType manifest_adaptations
         /\ shouldHaveNativeSourceBuffer bufferType = true
         /\ first_period_adaptations (firstPeriod_of manifest) bufferType = [])
      /\ retryOptions.(shouldRetry) e = true
      /\ exists msg,
           e = PlainError msg
           /\ retryOptions.(errorSelector) e
              = OtherError "NONE" (Some msg) true)
  \/ (exists mediaSource' value, set_duration mediaSource' value = inl e)
  \/ (exists mediaSource' bufferType codec,
        addNativeSourceBuffer mediaSource' bufferType codec = inl e)
  \/ getInitialTime manifest = inl e.
Proof.
  unfold createStream_setup, createStream_after_duration. intros H.
  destruct mediaSource as [ms|]; [|injection H as <-; left; now repeat split].
  destruct (MediaSource.setDurationToMediaSource set_duration ms
              (getDuration manifest)) as [e'|[ms1 calls]] eqn:Hset.
  { injection H as <-. do 3 right. left.
    unfold MediaSource.setDurationToMediaSource in Hset.
    destruct (strict_neq _ _); [|discriminate].
    unfold MediaSource.assign_duration in Hset.
    destruct (set_duration ms _) eqn:Hs; [|discriminate].
    injection Hset as <-. eauto. }
  destruct (initNativeSourceBuffers addNativeSourceBuffer
              shouldHaveNativeSourceBuffer (firstPeriod_of manifest)
              manifest_adaptations ms1) as [e'|[ms2 added]] eqn:Hadd.
  { injection H as <-.
    destruct (initNativeSourceBuffers_throws _ _ _ Hadd)
      as [((msg & ->) & Ht) | Hcall].
    - do 2 right. left. split; [exact Ht|]. split; [reflexivity|].
      now exists msg.
    - do 4 right. now left. }
  destruct (getInitialTime manifest) as [e'|startTime] eqn:Hinit.
  { injection H as <-. now do 5 right. }
  destruct (getPeriodForTime manifest startTime) eqn:Hp; [discriminate|].
  injection H as <-. right. left. exists startTime. now repeat split.
Qed.

End SetupErrors.

(* ------------------------------------------------------------------ *)
(** ** Period buffers, further *)

Section PeriodBuffersMore.
Import Js Errors StreamCore.
Local Open Scope float_scope.

Variable createAdaptationBuffer :
  SupportedBufferTypes -> Period -> Adaptation -> nat
  -> Rx.Observable Empty_set StreamEvent.
Variable BufferGarbageCollector :
  SupportedBufferTypes -> nat -> Rx.Observable Empty_set StreamEvent.
Variable manifest : Manifest.
Variable bufferType : SupportedBufferTypes.

(** X13.  The period buffer of a following period that has no adaptation
    of the type of the track: its subject holds null when it is subscribed,
    so that the null [adaptationChange] and [representationChange] are
    emitted while the shared source is connected and reach [bufferEnded$]
    alone.  The buffer disposes the source buffer of the type and emits
    nothing, it does not end and creates no period buffer after it.  The
    two messages are emitted when the subject of a buffer subscribed at
    [t0] receives null afterwards, at [t]. *)
Theorem period_buffer_without_adaptation
  (mediaSource : MediaSource.MediaSource) (fuel : nat) (period next : Period)
  (t : nat) (message : StreamEvent) (wantedRange : WantedRange) :
  let create :=
    createPeriodBuffer createAdaptationBuffer BufferGarbageCollector manifest
      (Some mediaSource) bufferType (S fuel) in
  let null_messages :=
    [(t, adaptationChange bufferType None);
     (t, representationChange bufferType None)] in
  let silent := create period (Rx.BehaviorSubject None t) t in
  (periodBuffer createAdaptationBuffer BufferGarbageCollector
     (Some mediaSource) bufferType period
     (Rx.BehaviorSubject None t)).(Rx.nexts) = null_messages
  /\ silent.(Rx.nexts) = []
  /\ silent.(Rx.effects)
     = [(t, log_info_disposing bufferType);
        (t, disposeSourceBuffer bufferType)]
  /\ silent.(Rx.ending) = Rx.Pending
  /\ (forall t0, (t0 < t)%nat ->
      (create period
         {| Rx.nexts := [(t, None)]; Rx.ending := Rx.Pending;
            Rx.effects := [] |} t0).(Rx.nexts)
      = null_messages)
  /\ (wantedRange_of message = Some wantedRange ->
      manifest.(getPeriodForTime) (wantedRange.(wr_end) + 2) = Some next ->
      get next.(adaptations) bufferType = None
      \/ get next.(adaptations) bufferType = Some [] ->
      onBufferEnd manifest bufferType create t message
      = Rx.tap_effect t (log_warn_creating_new_Buffer bufferType next)
          (create next (Rx.BehaviorSubject None t) t)).
Proof.
  cbv zeta. split; [reflexivity|].
  assert (Hself : Rx.after t
            [(t, adaptationChange bufferType None);
             (t, representationChange bufferType None)] = []).
  { unfold Rx.after. cbn [List.filter fst]. now rewrite Nat.ltb_irrefl. }
  split; [|split; [|split; [|split]]].
  - cbn [createPeriodBuffer]. unfold switchTrigger, Rx.joined.
    cbn -[Rx.after]. rewrite Hself. reflexivity.
  - cbn [createPeriodBuffer]. unfold switchTrigger, Rx.joined.
    cbn -[Rx.after]. rewrite Hself. reflexivity.
  - cbn [createPeriodBuffer]. unfold switchTrigger, Rx.joined.
    cbn -[Rx.after]. rewrite Hself. reflexivity.
  - intros t0 Hlt. apply Nat.ltb_lt in Hlt.
    assert (Hlater : Rx.after t0
              [(t, adaptationChange bufferType None);
               (t, representationChange bufferType None)]
            = [(t, adaptationChange bufferType None);
               (t, representationChange bufferType None)]).
    { unfold Rx.after. cbn [List.filter fst]. now rewrite Hlt. }
    cbn [createPeriodBuffer]. unfold switchTrigger, Rx.joined.
    cbn -[Rx.after]. rewrite Hlater. reflexivity.
  - intros Hw Hp Hnone. unfold onBufferEnd. rewrite Hw, Hp.
    assert (Hf : first_adaptation bufferType next = None).
    { unfold first_adaptation. now destruct Hnone as [-> | ->]. }
    now rewrite Hf.
Qed.

Lemma not_filled_same_type (a b : StreamEvent) :
  same_type b a = true ->
  is_type "filled" b = false -> is_type "filled" a = false.
Proof.
  unfold same_type, is_type. intros H. apply String.eqb_eq in H.
  now rewrite H.
Qed.

(** The first [filled] message of a trace passes [distinctUntilChanged],
    when the last message that passed before is not [filled]. *)
Lemma first_filled_passes (l : list (nat * StreamEvent)) :
  forall a last t message,
    Rx.ordered_from a l = true ->
    (forall b, last = Some b -> is_type "filled" b = false) ->
    In (t, message) l -> is_type "filled" message = true ->
    exists t1 m1 rest,
      List.filter (fun x => is_type "filled" (snd x))
        (Rx.distinct_from same_type last l) = (t1, m1) :: rest
      /\ (t1 <= t)%nat.
Proof.
  induction l as [|[ta xa] l IH]; intros a last t m Hord Hlast Hin Hm;
    [contradiction|].
  cbn [Rx.ordered_from] in Hord. apply andb_true_iff in Hord as [_ Hord].
  cbn [fst] in Hord.
  assert (Hle : forall t' m', In (t', m') l -> (ta <= t')%nat).
  { intros t' m' H'. change t' with (fst (t', m')).
    eapply ordered_from_le; eauto. }
  cbn [Rx.distinct_from].
  destruct (is_type "filled" xa) eqn:Hxa.
  - assert (Hpass : forall b, last = Some b -> same_type b xa = false).
    { intros b Hb. destruct (same_type b xa) eqn:Hs; [|reflexivity].
      apply not_filled_same_type in Hs; [congruence | now apply Hlast]. }
    assert (Ht : (ta <= t)%nat).
    { destruct Hin as [[= <- _] | Hin]; [lia | eapply Hle; eauto]. }
    destruct last as [b|]; [rewrite (Hpass b eq_refl)|];
      cbn [List.filter snd]; rewrite Hxa; eauto.
  - assert (Hin' : In (t, m) l).
    { destruct Hin as [[= _ <-] | Hin]; [congruence | exact Hin]. }
    destruct last as [b|]; [destruct (same_type b xa)|].
    + eapply IH; eauto.
    + cbn [List.filter snd]. rewrite Hxa.
      eapply IH; eauto. intros b' [= <-]. exact Hxa.
    + cbn [List.filter snd]. rewrite Hxa.
      eapply IH; eauto. intros b' [= <-]. exact Hxa.
Qed.

Lemma first_passes_filter (p : StreamEvent -> bool)
  (l : list (nat * StreamEvent)) (t : nat) (message : StreamEvent) :
  Rx.ordered l = true -> In (t, message) l -> p message = true ->
  exists t1 m1 rest,
    List.filter (fun x => p (snd x)) l = (t1, m1) :: rest /\ (t1 <= t)%nat.
Proof.
  intros Hord Hin Hp.
  assert (Hf : In (t, message) (List.filter (fun x => p (snd x)) l))
    by (apply filter_In; now split).
  destruct (List.filter (fun x => p (snd x)) l) as [|[t1 m1] rest] eqn:Hl;
    [contradiction|].
  exists t1, m1, rest. split; [reflexivity|].
  change t1 with (fst (t1, m1)). change t with (fst (t, message)).
  eapply ordered_head_le; [| exact Hl | rewrite Hl; exact Hf].
  unfold Rx.ordered. now apply ordered_from_filter.
Qed.

Lemma filter_none {X} (p : X -> bool) (l : list X) :
  (forall x, In x l -> p x = false) -> List.filter p l = [].
Proof.
  induction l as [|y l IH]; intros H; [reflexivity|].
  cbn. rewrite (H y (or_introl eq_refl)). apply IH.
  intros x Hx. apply H. now right.
Qed.

(** X14.  A period buffer, subscribed at [t0], whose messages arrive in
    order and which has not failed, switches once, as soon as it emits a
    [filled] message or, after its connection, a [finished] one: the message
    that makes it switch is such a message and is no later than any other.
    A [finished] message emitted during the connection reaches
    [bufferEnded$] alone: a buffer that emits no other never switches. *)
Theorem switchTrigger_earliest (t0 : nat) (pb : Observable StreamEvent) :
  Rx.ordered pb.(Rx.nexts) = true ->
  (forall t' e, pb.(Rx.ending) <> Rx.Errored t' e) ->
  (forall t message,
     In (t, message) pb.(Rx.nexts) ->
     type_of message = "filled"
     \/ (type_of message = "finished" /\ (t0 < t)%nat) ->
     exists t1 m1,
       (switchTrigger t0 pb).(Rx.nexts) = [(t1, m1)]
       /\ (t1 <= t)%nat
       /\ In (t1, m1) pb.(Rx.nexts)
       /\ (type_of m1 = "filled"
           \/ (type_of m1 = "finished" /\ (t0 < t1)%nat)))
  /\ ((forall t message,
         In (t, message) pb.(Rx.nexts) ->
         type_of message <> "filled"
         /\ (type_of message = "finished" -> (t <= t0)%nat)) ->
      (switchTrigger t0 pb).(Rx.nexts) = []).
Proof.
  intros Hord Hok.
  assert (Hm : (Rx.merge (bufferEnded pb)
                  (bufferFinished (Rx.joined t0 pb))).(Rx.nexts)
               = Rx.interleave (bufferEnded pb).(Rx.nexts)
                   (bufferFinished (Rx.joined t0 pb)).(Rx.nexts)).
  { cbn. destruct (Rx.ending pb) as [| |t' e]; try reflexivity.
    exfalso. now apply (Hok t' e). }
  split.
  - intros t message Hin Hends.
    assert (Hhead : exists t1 m1 rest,
              (Rx.merge (bufferEnded pb)
                 (bufferFinished (Rx.joined t0 pb))).(Rx.nexts)
              = (t1, m1) :: rest /\ (t1 <= t)%nat).
    { rewrite Hm. cbn [bufferEnded bufferFinished Rx.filter Rx.nexts
                       Rx.distinctUntilChanged Rx.joined].
      destruct Hends as [Hf | [Hf Hlt]].
      - assert (Hp : is_type "filled" message = true)
          by (unfold is_type; rewrite Hf; reflexivity).
        assert (Hnone : forall b : StreamEvent,
                   @None StreamEvent = Some b -> is_type "filled" b = false)
          by discriminate.
        destruct (@first_filled_passes (Rx.nexts pb) 0%nat None t message
                    Hord Hnone Hin Hp) as (t1 & m1 & r1 & -> & Hle).
        destruct (List.filter (fun x => is_type "finished" (snd x))
                    (Rx.after t0 (Rx.nexts pb))) as [|[t2 m2] r2].
        + cbn. eauto.
        + cbn [Rx.interleave fst].
          destruct (Nat.leb_spec t1 t2); do 3 eexists;
            (split; [reflexivity | lia]).
      - assert (Hp : is_type "finished" message = true)
          by (unfold is_type; rewrite Hf; reflexivity).
        assert (Hord' : Rx.ordered (Rx.after t0 (Rx.nexts pb)) = true)
          by (unfold Rx.ordered, Rx.after; now apply ordered_from_filter).
        assert (Hin' : In (t, message) (Rx.after t0 (Rx.nexts pb)))
          by (apply In_after; now split).
        destruct (@first_passes_filter (is_type "finished")
                    (Rx.after t0 (Rx.nexts pb)) t message Hord' Hin' Hp)
          as (t2 & m2 & r2 & -> & Hle).
        destruct (List.filter (fun x => is_type "filled" (snd x))
                    (Rx.distinct_from same_type None (Rx.nexts pb)))
          as [|[t1 m1] r1].
        + cbn. eauto.
        + cbn [Rx.interleave fst].
          destruct (Nat.leb_spec t1 t2); do 3 eexists;
            (split; [reflexivity | lia]). }
    destruct Hhead as (t1 & m1 & rest & Hn & Hle).
    assert (Ht : (switchTrigger t0 pb).(Rx.nexts) = [(t1, m1)]).
    { unfold switchTrigger, Rx.take. rewrite Hn. reflexivity. }
    exists t1, m1. split; [exact Ht|]. split; [exact Hle|].
    assert (H1 : In (t1, m1)
                   (Rx.merge (bufferEnded pb)
                      (bufferFinished (Rx.joined t0 pb))).(Rx.nexts))
      by (rewrite Hn; now left).
    apply In_nexts_merge in H1 as [H1 | H1].
    + unfold bufferEnded in H1. apply In_nexts_filter in H1 as [H1 Hp].
      cbn in H1. apply In_distinct_from in H1.
      split; [exact H1|]. left. now apply String.eqb_eq.
    + unfold bufferFinished in H1. apply In_nexts_filter in H1 as [H1 Hp].
      apply In_nexts_joined in H1 as [H1 Hlt].
      split; [exact H1|]. right. split; [now apply String.eqb_eq | exact Hlt].
  - intros Hnone. unfold switchTrigger, Rx.take. rewrite Hm.
    cbn [bufferEnded bufferFinished Rx.filter Rx.nexts
         Rx.distinctUntilChanged Rx.joined].
    rewrite (@filter_none _ (fun x => is_type "filled" (snd x))).
    2:{ intros [t m] Hx. apply In_distinct_from in Hx.
        destruct (Hnone t m Hx) as [Hf _]. cbn [snd]. unfold is_type.
        now apply String.eqb_neq. }
    rewrite (@filter_none _ (fun x => is_type "finished" (snd x))).
    2:{ intros [t m] Hx. apply In_after in Hx as [Hx Hlt]. cbn [fst] in Hlt.
        destruct (Hnone t m Hx) as [_ Hf]. cbn [snd]. unfold is_type.
        apply String.eqb_neq. intros Heq. specialize (Hf Heq). lia. }
    cbn [Rx.interleave nth_error]. rewrite Hm.
    cbn [bufferEnded bufferFinished Rx.filter Rx.nexts
         Rx.distinctUntilChanged Rx.joined].
    rewrite (@filter_none _ (fun x => is_type "filled" (snd x))).
    2:{ intros [t m] Hx. apply In_distinct_from in Hx.
        destruct (Hnone t m Hx) as [Hf _]. cbn [snd]. unfold is_type.
        now apply String.eqb_neq. }
    rewrite (@filter_none _ (fun x => is_type "finished" (snd x))).
    2:{ intros [t m] Hx. apply In_after in Hx as [Hx Hlt]. cbn [fst] in Hlt.
        destruct (Hnone t m Hx) as [_ Hf]. cbn [snd]. unfold is_type.
        apply String.eqb_neq. intros Heq. specialize (Hf Heq). lia. }
    reflexivity.
Qed.

End PeriodBuffersMore.

(* ------------------------------------------------------------------ *)
(** ** Numbers that are not numbers *)

Section NumberFacts.
Import Js.
Local Open Scope float_scope.

Lemma SFcompare_nan_r (x : spec_float) : SFcompare x S754_nan = None.
Proof. now destruct x. Qed.

Lemma is_nan_Prim2SF (d : number) :
  is_nan d = true -> Prim2SF d = S754_nan.
Proof.
  unfold is_nan. rewrite FloatAxioms.eqb_spec. unfold SFeqb.
  destruct (Prim2SF d) as [s|s| |s m e]; try reflexivity;
    destruct s; cbn; try discriminate;
    rewrite BinInt.Z.compare_refl; cbn;
    try (change (BinPos.Pos.compare_cont Eq m m) with (BinPos.Pos.compare m m);
         rewrite BinPos.Pos.compare_refl); cbn; discriminate.
Qed.

Lemma ltb_nan_r (x d : number) : is_nan d = true -> (x <? d) = false.
Proof.
  intros H. rewrite FloatAxioms.ltb_spec, (is_nan_Prim2SF _ H). unfold SFltb.
  now rewrite SFcompare_nan_r.
Qed.

Lemma ltb_nan_l (x d : number) : is_nan d = true -> (d <? x) = false.
Proof.
  intros H. rewrite FloatAxioms.ltb_spec, (is_nan_Prim2SF _ H). reflexivity.
Qed.

Lemma eqb_nan_r (x d : number) : is_nan d = true -> (x =? d) = false.
Proof.
  intros H. rewrite FloatAxioms.eqb_spec, (is_nan_Prim2SF _ H). unfold SFeqb.
  now rewrite SFcompare_nan_r.
Qed.

Lemma is_nan_sub_r (x d : number) : is_nan d = true -> is_nan (x - d) = true.
Proof.
  intros H. unfold is_nan. rewrite FloatAxioms.eqb_spec, FloatAxioms.sub_spec, (is_nan_Prim2SF _ H).
  now destruct (Prim2SF x).
Qed.

Lemma Prim2SF_zero : Prim2SF 0 = S754_zero false.
Proof. reflexivity. Qed.

Lemma leb_0_not_ltb (d : number) : (d <=? 0) = true -> (0 <? d) = false.
Proof.
  rewrite FloatAxioms.leb_spec, FloatAxioms.ltb_spec, Prim2SF_zero. unfold SFleb, SFltb.
  destruct (Prim2SF d) as [s|s| |s m e]; try reflexivity;
    destruct s; cbn; congruence.
Qed.

Lemma not_ltb_0_leb (a : number) :
  is_nan a = false -> (a <? 0) = false -> (0 <=? a) = true.
Proof.
  unfold is_nan. rewrite FloatAxioms.eqb_spec, FloatAxioms.ltb_spec, FloatAxioms.leb_spec, Prim2SF_zero.
  unfold SFeqb, SFleb, SFltb.
  destruct (Prim2SF a) as [s|s| |s m e]; try reflexivity;
    try destruct s; cbn; congruence.
Qed.

End NumberFacts.

Section EdgeNumbers.
Import Js Errors.
Local Open Scope float_scope.

Lemma eqb_nan_l (x d : number) : is_nan d = true -> (d =? x) = false.
Proof.
  intros H. rewrite FloatAxioms.eqb_spec, (is_nan_Prim2SF _ H). reflexivity.
Qed.

(** X15.  Where the setter of the platform keeps the value it is given,
    setting the same duration a second time, after a call that did not
    throw, does nothing.  The guard does not stop a duration that is [NaN]:
    it differs from whatever the media source holds, and is given to the
    setter at each call. *)
Theorem setDurationToMediaSource_twice
  (set_duration :
     MediaSource.MediaSource -> number -> error + MediaSource.MediaSource)
  (mediaSource : MediaSource.MediaSource) (duration : number) :
  ((forall ms value ms',
      set_duration ms value = inr ms' ->
      strict_eq ms'.(MediaSource.duration) value = true) ->
   forall once calls,
     MediaSource.setDurationToMediaSource set_duration mediaSource duration
     = inr (once, calls) ->
     MediaSource.setDurationToMediaSource set_duration once duration
     = inr (once, []))
  /\ (is_nan duration = true ->
      MediaSource.setDurationToMediaSource set_duration mediaSource duration
      = MediaSource.assign_duration set_duration mediaSource duration).
Proof.
  split.
  - intros Hkeeps once calls H.
    unfold MediaSource.setDurationToMediaSource in *. unfold strict_neq in *.
    destruct (MediaSource.duration mediaSource
              =? MediaSource.newDuration duration) eqn:Hsame; cbn [negb] in H.
    + injection H as <- _. now rewrite Hsame.
    + unfold MediaSource.assign_duration in H.
      destruct (set_duration mediaSource (MediaSource.newDuration duration))
        as [e|ms'] eqn:Hset; [discriminate|].
      injection H as <- _. apply Hkeeps in Hset. unfold strict_eq in Hset.
      now rewrite Hset.
  - intros Hnan.
    unfold MediaSource.setDurationToMediaSource, MediaSource.newDuration,
      strict_neq, strict_eq.
    now rewrite (eqb_nan_l _ _ Hnan), (eqb_nan_r _ _ Hnan).
Qed.

(** X16.  The time at which the overlay buffer is looked up at a clock
    emission is never negative: it is at least 0, or it is [NaN] (when the
    current time of the video element is). *)
Theorem lookup_time_never_negative {I : Overlay.Imports}
  (currentTime : number) :
  (0 <=? Overlay.lookup_time currentTime) = true
  \/ is_nan (Overlay.lookup_time currentTime) = true.
Proof.
  unfold Overlay.lookup_time, Math_max.
  set (a := currentTime - _ / _).
  destruct (is_nan a) eqn:Hnan; [now right | left].
  cbn [orb]. change (is_nan 0) with false. cbv iota.
  destruct (a <? 0) eqn:Hlt; [reflexivity|].
  destruct (0 <? a); [now apply not_ltb_0_leb|].
  destruct (get_sign a); [reflexivity | now apply not_ltb_0_leb].
Qed.

End EdgeNumbers.

Section EndOfPlayMore.
Import Js StreamCore.
Local Open Scope float_scope.


End EndOfPlayMore.

(* ------------------------------------------------------------------ *)
(** ** Protection driver, further *)

Section ProtectionMore.
Import Js Errors EME.

Variable compareMksConfigurations :
  MediaKeySystemConfiguration -> option MediaKeySystemConfiguration -> bool.

Lemma handleSessionStorage_frame (keySystem : IKeySystemOption)
  (s s1 : State) (r : error + unit) :
  handleSessionStorage keySystem s = (s1, r) ->
  s1.(instanceInfos) = s.(instanceInfos)
  /\ s1.(video_mediaKeys) = s.(video_mediaKeys)
  /\ match r with
     | inl e => s1 = s /\ e = EncryptedMediaError "INVALID_KEY_SYSTEM"
                  (Some "no license storage found for persistent license.")
                  true
     | inr _ => True
     end.
Proof.
  unfold handleSessionStorage.
  destruct (persistentLicense keySystem);
    [destruct (licenseStorage keySystem)|];
    intros [= <- <-]; repeat split; reflexivity.
Qed.


End ProtectionMore.

Section ReleaseFacts.
Import Js Errors EME EMERelease.

(** X19.  [clearEME] releases the media keys of the element once: a second
    call makes no call; it keeps the media keys, the configuration and the
    key system of the singleton, which [dispose] forgets; after [dispose]
    it makes no call; and a [dispose] that follows a [clearEME] that has
    released is made for no element. *)
Theorem clearEME_releases_once (shouldUnsetMediaKeys : bool)
  (i : IInstanceInfo) :
  let once := clearEME shouldUnsetMediaKeys i in
  clearEME shouldUnsetMediaKeys (fst once) = (fst once, [])
  /\ (fst once).(_mediaKeys) = i.(_mediaKeys)
  /\ (fst once).(_mediaKeySystemConfiguration)
     = i.(_mediaKeySystemConfiguration)
  /\ (fst once).(_keySystem) = i.(_keySystem)
  /\ (forall b, clearEME b (fst (dispose i)) = (fst (dispose i), []))
  /\ (snd once <> [] ->
      snd (dispose (fst once))
      = [disposeMediaKeys None; loadedSessions_dispose]).
Proof.
  cbv zeta. unfold clearEME.
  destruct (_videoElement i) as [video|] eqn:Hv;
    [destruct shouldUnsetMediaKeys|]; cbn; rewrite ?Hv;
    repeat split; auto; intros H; now try contradiction H.
Qed.

End ReleaseFacts.

Section RetryMore.
Import Js Errors StreamCore.

(** X20.  The error the retry options select is a known error that is
    fatal: it is not retried, and selecting it again changes nothing. *)
Theorem errorSelector_settles (e : error) :
  let selected := retryOptions.(errorSelector) e in
  isKnownError selected = true
  /\ fatal_of selected = true
  /\ retryOptions.(shouldRetry) selected = false
  /\ retryOptions.(errorSelector) selected = selected.
Proof. destruct e; repeat split. Qed.

End RetryMore.

Section DriverFacts.
Import Js Errors EME.
Local Open Scope nat_scope.

Variable compareMksConfigurations :
  MediaKeySystemConfiguration -> option MediaKeySystemConfiguration -> bool.
Variable findCompatibleKeySystem :
  list IKeySystemOption -> IInstanceInfo -> nat
  -> option (nat * (error + IKeySystemPackage)).
Variable settle : Plan -> State -> State.

(** What [onEncrypted$(video).take(1).combineLatest(findCompatibleKeySystem(
    ...))] emits: the first event with the key system found, at the later
    of the two. *)
Lemma first_event_and_key_system
  (onEncrypted : Rx.Observable LogCall MediaEncryptedEvent) (t1 : nat)
  (evt1 : MediaEncryptedEvent)
  (rest : list (nat * MediaEncryptedEvent)) (tk : nat)
  (keySystemInfo : IKeySystemPackage) :
  onEncrypted.(Rx.nexts) = (t1, evt1) :: rest ->
  (Rx.combineLatest (Rx.take 1 onEncrypted)
     (found (Some (tk, inr keySystemInfo)))).(Rx.nexts)
  = [(Nat.max t1 tk, (evt1, keySystemInfo))].
Proof.
  intros Hn. unfold Rx.combineLatest, Rx.take, found, Rx.tagged.
  rewrite Hn. cbn [nth_error Rx.nexts Rx.ending Rx.of_ firstn List.map fst snd
                   Rx.merge_ending Rx.stop_at_error Rx.interleave].
  destruct (Nat.leb_spec t1 tk) as [Hle | Hlt]; cbn [Rx.combine_from].
  - now rewrite Nat.max_r.
  - rewrite Nat.max_l by lia. reflexivity.
Qed.

(** X21.  The handler of the first encrypted event runs once both the
    event has been received and a key system has been found, at the later
    of the two instants: the driver emits nothing before, and what it emits
    first, or the error it ends with, is what the handler returns or throws
    then.  When the search fails, the driver fails at that instant, whether
    or not an event has been received; without an event, or without an
    answer of the search, it stays silent. *)
Theorem createEME_first_handler
  (onEncrypted : Rx.Observable LogCall MediaEncryptedEvent)
  (keySystems : list IKeySystemOption) (s : State) :
  onEncrypted.(Rx.ending) = Rx.Pending ->
  let out :=
    createEME compareMksConfigurations findCompatibleKeySystem settle
      onEncrypted keySystems s in
  match findCompatibleKeySystem keySystems s.(instanceInfos) 0,
        onEncrypted.(Rx.nexts) with
  | Some (tk, inr keySystemInfo), (t1, evt1) :: _ =>
      match handleInitEncryptedEvent evt1 keySystemInfo s with
      | (_, inr plan) =>
          exists later, out.(Rx.nexts) = (Nat.max t1 tk, plan) :: later
      | (_, inl e) =>
          out.(Rx.nexts) = []
          /\ out.(Rx.ending) = Rx.Errored (Nat.max t1 tk) e
      end
  | Some (tk, inl e), _ =>
      out.(Rx.nexts) = [] /\ out.(Rx.ending) = Rx.Errored tk e
  | Some (_, inr _), [] | None, _ =>
      out.(Rx.nexts) = [] /\ out.(Rx.ending) = Rx.Pending
  end.
Proof.
  intros Hend. cbv zeta.
  destruct (findCompatibleKeySystem keySystems (instanceInfos s) 0)
    as [[tk [e | keySystemInfo]]|] eqn:Hfind.
  - unfold createEME. rewrite Hfind. unfold Rx.combineLatest, Rx.tagged.
    assert (Hmerge : Rx.merge_ending (Rx.ending (Rx.take 1 onEncrypted))
                       (Rx.ending (found (Some (tk, inl e))))
                     = Rx.Errored tk e).
    { unfold Rx.take. destruct (nth_error (Rx.nexts onEncrypted) 0)
        as [[t a]|]; [reflexivity | now rewrite Hend]. }
    rewrite Hmerge. cbn [found Rx.throwError Rx.nexts List.map Rx.ending].
    assert (Hnone : forall l : list (nat * MediaEncryptedEvent),
              Rx.combine_from (B:=IKeySystemPackage) None None
                (Rx.interleave
                   (List.map (fun x => (fst x, inl (snd x))) l) [])
              = []).
    { intros l. replace (Rx.interleave _ []) with
        (List.map (fun x : nat * MediaEncryptedEvent =>
                     (fst x, @inl _ IKeySystemPackage (snd x))) l)
        by (now destruct l).
      generalize (@None MediaEncryptedEvent).
      induction l as [|[t a] l IH]; intros la; [reflexivity|].
      cbn. apply IH. }
    rewrite Hnone. cbn. now split.
  - destruct (Rx.nexts onEncrypted) as [|[t1 evt1] rest] eqn:Hn.
    + unfold createEME. rewrite Hfind.
      unfold Rx.combineLatest, Rx.tagged, Rx.take. rewrite Hn.
      cbn [nth_error]. rewrite Hn, Hend. cbn. now split.
    + pose proof (@first_event_and_key_system onEncrypted t1 evt1 rest tk
                    keySystemInfo Hn) as Hfirst.
      rewrite <- Hfind in Hfirst.
      rewrite (@createEME_eq compareMksConfigurations
                 findCompatibleKeySystem settle onEncrypted keySystems s
                 _ _ _ _ Hfirst).
      destruct (handleInitEncryptedEvent evt1 keySystemInfo s)
        as [s1 [e | plan]].
      * cbn. now split.
      * cbv zeta. cbn [Rx.nexts]. eauto.
  - unfold createEME. rewrite Hfind. unfold Rx.combineLatest, Rx.tagged.
    assert (Hmerge : Rx.merge_ending (Rx.ending (Rx.take 1 onEncrypted))
                       (Rx.ending (found None)) = Rx.Pending).
    { unfold Rx.take. destruct (nth_error (Rx.nexts onEncrypted) 0)
        as [[t a]|]; [reflexivity | now rewrite Hend]. }
    rewrite Hmerge. cbn [found Rx.never Rx.nexts List.map Rx.ending].
    assert (Hnone : forall l : list (nat * MediaEncryptedEvent),
              Rx.combine_from (B:=IKeySystemPackage) None None
                (Rx.interleave
                   (List.map (fun x => (fst x, inl (snd x))) l) [])
              = []).
    { intros l. replace (Rx.interleave _ []) with
        (List.map (fun x : nat * MediaEncryptedEvent =>
                     (fst x, @inl _ IKeySystemPackage (snd x))) l)
        by (now destruct l).
      generalize (@None MediaEncryptedEvent).
      induction l as [|[t a] l IH]; intros la; [reflexivity|].
      cbn. apply IH. }
    rewrite Hnone. cbn.
    destruct (Rx.nexts onEncrypted) as [|[t1 evt1] rest]; now split.
Qed.

End DriverFacts.

(* ------------------------------------------------------------------ *)
(** ** The properties above, on the examples *)

Section OverlayMoreFacts.
Import Js Overlay OverlayExamples MoreExamples.
Local Open Scope float_scope.

Lemma append_without_end_witness :
  open_segment.(seg_end) = None
  /\ exists s',
       @_append ledgerImports open_segment new_buffer = inr s'
       /\ s'.(buffered) = [(2 / 1, 6 + 0)]
       /\ s'.(childNodes) = [].
Proof.
  split; [reflexivity|].
  destruct (proj2 (@append_without_end ledgerImports open_segment new_buffer
                     eq_refl)
              [] {| start := 2 + 0; end_ := 6 + 0; element := 0%nat |}
              eq_refl)
    as (s' & H & _ & Hb & Hc & _).
  exists s'. split; [exact H|]. split; [exact Hb | exact Hc].
Defined.

Lemma nothing_attached_after_abort_witness :
  showing_7.(childNodes) = attached showing_7
  /\ (run [ClockEmits true 5; Append open_segment; ClockEmits true 3]
        (_abort showing_7)).(childNodes) = [].
Proof.
  split; [reflexivity|].
  exact (proj1 (@nothing_attached_after_abort ledgerImports showing_7
                  [ClockEmits true 5; Append open_segment; ClockEmits true 3]
                  eq_refl)).
Defined.

End OverlayMoreFacts.

Section ResetMoreFacts.
Import Js Errors MediaSource ResetExamples.
Local Open Scope nat_scope.

Lemma NoDup_1_2 : NoDup [1; 2].
Proof.
  constructor; [intros [H | []]; discriminate H|].
  constructor; [intros []|constructor].
Defined.


Lemma NoDup_text : NoDup ["text"%string].
Proof. constructor; [intros []|constructor]. Defined.

Lemma resetMediaElement_aborts_each_custom_once_witness :
  NoDup (keys playing.(customBuffers))
  /\ aborted (resetMediaElement playing).(calls) = [("text"%string, subtitles)].
Proof.
  split; [exact NoDup_text|].
  exact (@resetMediaElement_aborts_each_custom_once playing NoDup_text).
Defined.

Lemma createMediaSource_then_teardown_witness :
  let s := fst (createMediaSource "http://host/manifest.mpd" used_element
                  true true) in
  s.(video_src) = Some (ObjectUrl 1)
  /\ exists before,
       (unsubscribe
          (later_on playing.(mediaSource) playing.(nativeBuffers)
             playing.(customBuffers) [] s)).(calls)
       = before ++ [clearVideoSrc_call; log_debug "revoking previous URL";
                    revokeObjectURL (ObjectUrl 1)].
Proof.
  cbv zeta. split; [reflexivity|].
  exact (proj2 (proj2 (proj2 (proj2 (proj2 (proj2
           (@createMediaSource_then_teardown "http://host/manifest.mpd"
              used_element true playing.(mediaSource)
              playing.(nativeBuffers) playing.(customBuffers) []))))))
           (ObjectUrl 1) eq_refl).
Defined.

End ResetMoreFacts.

Section SetupFacts.
Import Js Errors StreamCore StreamSetup MoreExamples.
Local Open Scope nat_scope.

Lemma getSegmentBookkeeper_one_per_type_witness :
  let bs :=
    fst (getSegmentBookkeepers ["audio"; "video"; "audio"]%string
           (initializeSegmentBookkeepersHandler 0)) in
  nth_error bs 0 = Some 0 /\ nth_error bs 1 = Some 1
  /\ nth_error bs 2 = Some 0
  /\ (0 = 0 <-> "audio"%string = "audio"%string)
  /\ (0 = 1 <-> "audio"%string = "video"%string).
Proof.
  cbv zeta.
  pose proof (@getSegmentBookkeeper_one_per_type 0
                ["audio"; "video"; "audio"]%string) as H.
  cbn in H. destruct H as (_ & H & _).
  split; [reflexivity|]. split; [reflexivity|]. split; [reflexivity|].
  split.
  - exact (H 0 2 _ _ _ _ eq_refl eq_refl eq_refl eq_refl).
  - exact (H 0 1 _ _ _ _ eq_refl eq_refl eq_refl eq_refl).
Defined.

Lemma addNativeSourceBuffers_result_witness :
  In "video"%string ["video"; "text"]%string
  /\ audio_or_video "video" = true
  /\ first_period_adaptations (Some TwoPeriods.period1) "video" <> [].
Proof.
  assert (Hin : In "video"%string ["video"; "text"]%string) by now left.
  split; [exact Hin|]. split; [reflexivity|].
  pose proof (@addNativeSourceBuffers_result audio_or_video
                (Some TwoPeriods.period1) ["video"; "text"]%string) as H.
  cbn in H. destruct H as [H _].
  exact (H "video"%string Hin eq_refl).
Defined.

Lemma platform_set_duration_throws (mediaSource : MediaSource.MediaSource)
  (value : number) (e : error) :
  platform_set_duration mediaSource value = inl e -> isKnownError e = false.
Proof.
  unfold platform_set_duration.
  destruct (_ || _); [now intros [= <-]|].
  destruct (negb _); [now intros [= <-] | discriminate].
Qed.

Lemma createStream_setup_errors_witness :
  createStream_setup platform_set_duration LiveExamples.never_fails
    LiveExamples.starts_at_75 audio_or_video (Some open_mediaSource)
    TwoPeriods.manifest ["video"]%string
  = inl (MediaError "MEDIA_STARTING_TIME_NOT_FOUND" None true)
  /\ TwoPeriods.manifest.(getPeriodForTime) 75%float = None.
Proof.
  assert (H : createStream_setup platform_set_duration
                LiveExamples.never_fails LiveExamples.starts_at_75
                audio_or_video (Some open_mediaSource) TwoPeriods.manifest
                ["video"]%string
              = inl (MediaError "MEDIA_STARTING_TIME_NOT_FOUND" None true))
    by reflexivity.
  split; [exact H|].
  destruct (@createStream_setup_errors platform_set_duration
              LiveExamples.never_fails LiveExamples.starts_at_75
              audio_or_video (Some open_mediaSource) TwoPeriods.manifest
              ["video"]%string _ H)
    as [(Hm & _)
       | [(startTime & Hinit & Hp & _)
         | [(_ & _ & msg & He & _)
           | [(ms & value & Hset)
             | [(ms & bufferType & codec & Hadd) | Hinit]]]]].
  - discriminate Hm.
  - injection Hinit as <-. exact Hp.
  - discriminate He.
  - apply platform_set_duration_throws in Hset. discriminate Hset.
  - discriminate Hadd.
  - discriminate Hinit.
Defined.

End SetupFacts.

Section PeriodBuffersMoreFacts.
Import Js Errors StreamCore TwoPeriods EndOfPlayExamples MoreExamples.
Local Open Scope float_scope.

Lemma period_buffer_without_adaptation_witness :
  wantedRange_of (filled {| wr_start := 0; wr_end := 29 |})
  = Some {| wr_start := 0; wr_end := 29 |}
  /\ manifest.(getPeriodForTime) (29 + 2) = Some period2
  /\ get period2.(adaptations) "audio" = None
  /\ (2 < 3)%nat
  /\ (createPeriodBuffer adaptationBuffer garbageCollector manifest
        (Some open_mediaSource) "audio" 1 period1
        {| Rx.nexts := [(3%nat, None)]; Rx.ending := Rx.Pending;
           Rx.effects := [] |} 2).(Rx.nexts)
     = [(3%nat, adaptationChange "audio" None);
        (3%nat, representationChange "audio" None)]
  /\ onBufferEnd manifest "audio"
       (createPeriodBuffer adaptationBuffer garbageCollector manifest
          (Some open_mediaSource) "audio" 1)
       3%nat (filled {| wr_start := 0; wr_end := 29 |})
     = Rx.tap_effect 3%nat (log_warn_creating_new_Buffer "audio" period2)
         (createPeriodBuffer adaptationBuffer garbageCollector manifest
            (Some open_mediaSource) "audio" 1 period2
            (Rx.BehaviorSubject None 3) 3).
Proof.
  pose proof (@period_buffer_without_adaptation adaptationBuffer
                garbageCollector manifest "audio" open_mediaSource 0
                period1 period2 3%nat
                (filled {| wr_start := 0; wr_end := 29 |})
                {| wr_start := 0; wr_end := 29 |})
    as (_ & _ & _ & _ & Hlater & Hnext).
  split; [reflexivity|]. split; [reflexivity|]. split; [reflexivity|].
  split; [exact (le_n 3)|].
  split; [exact (Hlater 2%nat (le_n 3))|].
  exact (Hnext eq_refl eq_refl (or_introl eq_refl)).
Defined.

Lemma switchTrigger_earliest_witness :
  Rx.ordered two_events.(Rx.nexts) = true
  /\ In (2%nat, filled range_0_10) two_events.(Rx.nexts)
  /\ exists t1 m1,
       (switchTrigger 0 two_events).(Rx.nexts) = [(t1, m1)]
       /\ (t1 <= 2)%nat
       /\ In (t1, m1) two_events.(Rx.nexts)
       /\ (type_of m1 = "filled"
           \/ (type_of m1 = "finished" /\ (0 < t1)%nat)).
Proof.
  assert (Hin : In (2%nat, filled range_0_10) two_events.(Rx.nexts))
    by (right; now left).
  assert (Hok : forall t' e, two_events.(Rx.ending) <> Rx.Errored t' e)
    by (intros t' e H; discriminate H).
  split; [reflexivity|]. split; [exact Hin|].
  exact (proj1 (@switchTrigger_earliest 0%nat two_events eq_refl Hok)
           2%nat (filled range_0_10) Hin (or_introl eq_refl)).
Defined.


End PeriodBuffersMoreFacts.

Section DurationMoreFacts.
Import Js Errors MediaSource.
Local Open Scope float_scope.

Lemma platform_set_duration_keeps (ms : MediaSource.MediaSource)
  (value : number) (ms' : MediaSource.MediaSource) :
  platform_set_duration ms value = inr ms' ->
  strict_eq ms'.(MediaSource.duration) value = true.
Proof.
  unfold platform_set_duration.
  destruct (is_nan value) eqn:Hnan; [discriminate|]. cbn [orb].
  destruct (value <? 0); [discriminate|].
  destruct (negb _); [discriminate|]. intros [= <-]. cbn.
  unfold is_nan in Hnan. unfold strict_eq. now destruct (value =? value).
Qed.

Lemma setDurationToMediaSource_twice_witness :
  setDurationToMediaSource platform_set_duration fresh_open_mediaSource 30
  = inr ({| MediaSource.duration := 30; readyState := open;
            sourceBuffers := [1%nat; 2%nat] |}, [log_info "set duration"])
  /\ setDurationToMediaSource platform_set_duration
       {| MediaSource.duration := 30; readyState := open;
          sourceBuffers := [1%nat; 2%nat] |} 30
     = inr ({| MediaSource.duration := 30; readyState := open;
               sourceBuffers := [1%nat; 2%nat] |}, [])
  /\ is_nan nan = true
  /\ setDurationToMediaSource platform_set_duration fresh_open_mediaSource nan
     = assign_duration platform_set_duration fresh_open_mediaSource nan.
Proof.
  pose proof (setDurationToMediaSource_twice platform_set_duration
                fresh_open_mediaSource 30) as [Htwice _].
  pose proof (setDurationToMediaSource_twice platform_set_duration
                fresh_open_mediaSource nan) as [_ Hnan].
  split; [reflexivity|].
  split; [exact (Htwice platform_set_duration_keeps _ _ eq_refl)|].
  split; [reflexivity | exact (Hnan eq_refl)].
Defined.

End DurationMoreFacts.

Section ProtectionMoreFacts.
Import Js Errors EME EMERelease ProtectionExamples MoreExamples.
Local Open Scope nat_scope.


Lemma clearEME_releases_once_witness :
  snd (clearEME true protected_playback) <> []
  /\ snd (dispose (fst (clearEME true protected_playback)))
     = [disposeMediaKeys None; loadedSessions_dispose].
Proof.
  assert (H : snd (clearEME true protected_playback) <> [])
    by (intros H; discriminate H).
  split; [exact H|].
  exact (proj2 (proj2 (proj2 (proj2 (proj2
           (clearEME_releases_once true protected_playback))))) H).
Defined.

Lemma createEME_first_handler_witness :
  (encrypted_events [1]).(Rx.ending) = Rx.Pending
  /\ widevine_found [widevine] uninitialized.(instanceInfos) 0
     = Some (2, inr (package widevine temporary))
  /\ exists plan later,
       (createEME same_sessionTypes widevine_found no_settle
          (encrypted_events [1]) [widevine] uninitialized).(Rx.nexts)
       = (2, plan) :: later.
Proof.
  split; [reflexivity|]. split; [reflexivity|].
  pose proof (@createEME_first_handler same_sessionTypes widevine_found
                no_settle (encrypted_events [1]) [widevine] uninitialized
                eq_refl) as H.
  vm_compute in H. destruct H as (later & H).
  eexists. exists later. exact H.
Defined.

End ProtectionMoreFacts.
